(** * Glass / 20210412: dense linear-algebra kernel

    A shallow embedding of [cpp/include/qr.hpp] (Householder QR, the
    least-squares back-substitution) and of the pseudoinverse translation
    unit (Gauss-Jordan inversion, Moore-Penrose pseudoinverse, Frobenius
    condition estimate), together with the properties the design document
    states about them; and of [dijkstra.cpp] and the two C++ test programs,
    with further properties of all of this code.

    The C++ code works on [std::vector<std::vector<double>>].  The embedding
    keeps that shape: a matrix is a list of rows, every element access is
    bounds-checked in the model and an access outside a vector (undefined
    behaviour in C++) is the outcome [Err OutOfBounds].  The code is written
    once over a class of scalar operations; it is run on IEEE binary64
    ([PrimFloat]) for what the program computes, and on the rationals for
    what the algorithms compute over exact arithmetic. *)

From Stdlib Require Import List Arith ZArith Lia Bool.
From Stdlib Require Import Floats QArith Qcanon Qcabs Ring.
From Stdlib Require Import Permutation.
Import ListNotations.

#[local] Close Scope Qc_scope.
#[local] Close Scope Q_scope.
#[local] Close Scope Z_scope.
#[local] Open Scope nat_scope.

(** ** Outcomes *)

(** The conditions of the design's taxonomy.  In the source
    [DimensionMismatch] is [std::invalid_argument] and the other three are
    [std::runtime_error] with distinct messages.  [OutOfBounds] stands for
    an [operator[]] access past the end of a vector. *)
Inductive error : Type :=
| DimensionMismatch
| NonSquareMatrix
| SingularMatrix
| SingularSystem
| OutOfBounds.

Inductive result (A : Type) : Type :=
| Ok (a : A)
| Err (e : error).

Arguments Ok {A} a.
Arguments Err {A} e.

Definition bind {A B : Type} (c : result A) (k : A -> result B) : result B :=
  match c with
  | Ok a => k a
  | Err e => Err e
  end.

Notation "x <- c ;; k" := (bind c (fun x => k))
  (at level 61, c at next level, right associativity).
Notation "' p <- c ;; k" := (bind c (fun p => k))
  (at level 61, p pattern, c at next level, right associativity).

(** ** Loops *)

(** [for (i = lo; i < hi; ++i) body] threading the loop state [s]. *)
Fixpoint for_loop {St : Type} (count i : nat) (body : nat -> St -> result St)
  (s : St) : result St :=
  match count with
  | 0 => Ok s
  | S c => s' <- body i s ;; for_loop c (S i) body s'
  end.

Definition for_range {St : Type} (lo hi : nat) (body : nat -> St -> result St)
  (s : St) : result St :=
  for_loop (hi - lo) lo body s.

(** [for (i = n; i-- > 0;) body]: runs [i = n-1, ..., 0]. *)
Fixpoint for_down {St : Type} (n : nat) (body : nat -> St -> result St)
  (s : St) : result St :=
  match n with
  | 0 => Ok s
  | S i => s' <- body i s ;; for_down i body s'
  end.

(** ** Scalars *)

(** The operations the code applies to [double]. *)
Class Scalar : Type := {
  num : Type;
  zero : num;
  one : num;
  two : num;
  tiny : num;                       (* the literal 1e-12 *)
  add : num -> num -> num;
  sub : num -> num -> num;
  mul : num -> num -> num;
  div : num -> num -> num;
  neg : num -> num;
  fabs : num -> num;
  eqb : num -> num -> bool;         (* == *)
  ltb : num -> num -> bool;         (* <  *)
  leb : num -> num -> bool          (* <= *)
}.

Class ScalarSqrt (K : Scalar) : Type := {
  sqrt : num -> num
}.

(** [x > y] is [y < x] and [x >= y] is [y <= x], for IEEE comparisons too. *)
Definition gtb {K : Scalar} (x y : num) : bool := ltb y x.
Definition geb {K : Scalar} (x y : num) : bool := leb y x.

(** ** Vectors and matrices *)

Section Containers.
Context {K : Scalar}.

Definition Vector : Type := list num.
Definition Matrix : Type := list (list num).

(** [std::vector<double>(n, 0.0)] and [Matrix(m, std::vector<double>(n))]
    (value-initialised, so zero as well). *)
Definition vzeros (n : nat) : Vector := repeat zero n.
Definition mzeros (m n : nat) : Matrix := repeat (vzeros n) m.

Definition set_nth {A : Type} (l : list A) (i : nat) (x : A) : list A :=
  firstn i l ++ x :: skipn (S i) l.

(** [v[i]] *)
Definition vget (v : Vector) (i : nat) : result num :=
  match nth_error v i with
  | Some x => Ok x
  | None => Err OutOfBounds
  end.

(** [v[i] = x] *)
Definition vset (v : Vector) (i : nat) (x : num) : result Vector :=
  if i <? length v then Ok (set_nth v i x) else Err OutOfBounds.

(** [A[i]] *)
Definition row (A : Matrix) (i : nat) : result Vector :=
  match nth_error A i with
  | Some r => Ok r
  | None => Err OutOfBounds
  end.

(** [A[i][j]] *)
Definition mget (A : Matrix) (i j : nat) : result num :=
  r <- row A i ;; vget r j.

(** [A[i][j] = x] *)
Definition mset (A : Matrix) (i j : nat) (x : num) : result Matrix :=
  r <- row A i ;;
  r' <- vset r j x ;;
  Ok (set_nth A i r').

(** [A[0].size()] *)
Definition cols0 (A : Matrix) : result nat :=
  r <- row A 0 ;; Ok (length r).

(** [std::swap(A[p], A[i])] *)
Definition swap_rows (A : Matrix) (p i : nat) : result Matrix :=
  rp <- row A p ;;
  ri <- row A i ;;
  Ok (set_nth (set_nth A p ri) i rp).

(** [s = 0.0; for (double x : v) s += x * x;] *)
Definition sum_squares (v : Vector) : num :=
  fold_left (fun s x => add s (mul x x)) v zero.

End Containers.

(** ** qr.hpp *)

Module QR.
Section Code.
Context {K : Scalar} {SQ : ScalarSqrt K}.

Definition identity (n : nat) : result Matrix :=
  for_range 0 n (fun i I => mset I i i one) (mzeros n n).

Definition transpose (A : Matrix) : result Matrix :=
  let m := length A in
  n <- cols0 A ;;
  for_range 0 m (fun i B =>
    for_range 0 n (fun j B =>
      a <- mget A i j ;;
      mset B j i a) B) (mzeros n m).

Definition matmul (A B : Matrix) : result Matrix :=
  let m := length A in
  n <- cols0 A ;;
  p <- cols0 B ;;
  for_range 0 m (fun i C =>
    for_range 0 n (fun k C =>
      a <- mget A i k ;;
      for_range 0 p (fun j C =>
        c <- mget C i j ;;
        b <- mget B k j ;;
        mset C i j (add c (mul a b))) C) C) (mzeros m p).

Definition column_norm (A : Matrix) (col start : nat) : result num :=
  sum <- for_range start (length A) (fun i sum =>
           a <- mget A i col ;;
           Ok (add sum (mul a a))) zero ;;
  Ok (sqrt sum).

(** The reflection [I - 2 v v^T] applied to the rows [start ..] of the
    columns [lo .. hi-1] of [A]. *)
Definition reflect_columns (v : Vector) (start lo hi : nat) (A : Matrix)
  : result Matrix :=
  for_range lo hi (fun j A =>
    proj <- for_range 0 (length v) (fun k proj =>
              vk <- vget v k ;;
              a <- mget A (start + k) j ;;
              Ok (add proj (mul vk a))) zero ;;
    let proj := mul proj two in
    for_range 0 (length v) (fun k A =>
      a <- mget A (start + k) j ;;
      vk <- vget v k ;;
      mset A (start + k) j (sub a (mul proj vk))) A) A.

(** The same reflection applied to the columns [start ..] of every row of
    [Q]. *)
Definition reflect_rows (v : Vector) (start qrows : nat) (Q : Matrix)
  : result Matrix :=
  for_range 0 qrows (fun j Q =>
    proj <- for_range 0 (length v) (fun k proj =>
              vk <- vget v k ;;
              q <- mget Q j (start + k) ;;
              Ok (add proj (mul vk q))) zero ;;
    let proj := mul proj two in
    for_range 0 (length v) (fun k Q =>
      q <- mget Q j (start + k) ;;
      vk <- vget v k ;;
      mset Q j (start + k) (sub q (mul proj vk))) Q) Q.

(** [householder_reflect(A, Q, start, col)]; the two matrices are passed
    by reference and come back as the pair [(A, Q)].  [m - start] is a
    [size_t] subtraction; every caller has [start < m]. *)
Definition householder_reflect (A Q : Matrix) (start col : nat)
  : result (Matrix * Matrix) :=
  let m := length A in
  x <- for_range start m (fun i x =>
         a <- mget A i col ;;
         vset x (i - start) a) (vzeros (m - start)) ;;
  let norm_x := sqrt (sum_squares x) in
  if eqb norm_x zero then Ok (A, Q) else
  x0 <- vget x 0 ;;
  v0 <- vget x 0 ;;
  v <- vset x 0 (add v0 (if geb x0 zero then norm_x else neg norm_x)) ;;
  let norm_v := sqrt (sum_squares v) in
  if eqb norm_v zero then Ok (A, Q) else
  let v := map (fun t => div t norm_v) v in
  n <- cols0 A ;;
  A <- reflect_columns v start col n A ;;
  Q <- reflect_rows v start (length Q) Q ;;
  Ok (A, Q).

(** The final loops of [qr_decompose], which overwrite the elements
    strictly below the diagonal with [0.0]; the inner loop
    [for (j = 0; j < i && j < n; ++j)] runs [j] over [0 .. min i n - 1]. *)
Definition cleanup (m n : nat) (R : Matrix) : result Matrix :=
  for_range 0 m (fun i R =>
    for_range 0 (Nat.min i n) (fun j R => mset R i j zero) R) R.

(** [qr_decompose(A_in, Q, R)], returning [(Q, R)]. *)
Definition qr_decompose (A_in : Matrix) : result (Matrix * Matrix) :=
  let m := length A_in in
  n <- cols0 A_in ;;
  let R := A_in in
  Q <- identity m ;;
  let min_dim := if m <? n then m else n in
  '(R, Q) <- for_range 0 min_dim (fun col '(R, Q) =>
               householder_reflect R Q col col) (R, Q) ;;
  R <- cleanup m n R ;;
  Q <- transpose Q ;;
  Ok (Q, R).

Definition solve_qr (Q R : Matrix) (b : Vector) : result Vector :=
  let m := length Q in
  n <- cols0 R ;;
  if negb (length b =? m) then Err DimensionMismatch else
  y <- for_range 0 m (fun i y =>
         for_range 0 m (fun j y =>
           yi <- vget y i ;;
           q <- mget Q j i ;;
           bj <- vget b j ;;
           vset y i (add yi (mul q bj))) y) (vzeros m) ;;
  for_down n (fun i x =>
    sum <- for_range (i + 1) n (fun j sum =>
             r <- mget R i j ;;
             xj <- vget x j ;;
             Ok (add sum (mul r xj))) zero ;;
    yi <- vget y i ;;
    let val := sub yi sum in
    diag <- mget R i i ;;
    if ltb (fabs diag) tiny then Err SingularSystem else
    vset x i (div val diag)) (vzeros n).

Definition norm2 (v : Vector) : num := sqrt (sum_squares v).

End Code.
End QR.

(** ** The pseudoinverse translation unit *)

(** Its header declares [lin::Matrix] as a vector of vectors of [double],
    the [Matrix] of [qr.hpp], and the three entry points. *)

Module Pinv.
Section Code.
Context {K : Scalar}.

Definition multiply (A B : Matrix) : result Matrix :=
  let m := length A in
  n <- cols0 B ;;
  let inner := length B in
  for_range 0 m (fun i C =>
    for_range 0 inner (fun k C =>
      a <- mget A i k ;;
      if negb (eqb a zero) then
        for_range 0 n (fun j C =>
          c <- mget C i j ;;
          b <- mget B k j ;;
          mset C i j (add c (mul a b))) C
      else Ok C) C) (mzeros m n).

Definition transpose (A : Matrix) : result Matrix :=
  let m := length A in
  n <- cols0 A ;;
  for_range 0 m (fun i T =>
    for_range 0 n (fun j T =>
      a <- mget A i j ;;
      mset T j i a) T) (mzeros n m).

(** The augmented matrix [A | I]. *)
Definition augment (A : Matrix) (n : nat) : result Matrix :=
  for_range 0 n (fun i aug =>
    aug <- for_range 0 n (fun j aug =>
             a <- mget A i j ;;
             mset aug i j a) aug ;;
    for_range 0 n (fun j aug =>
      mset aug i (n + j) (if i =? j then one else zero)) aug)
    (mzeros n (2 * n)).

(** Pivot search of column [i]: the first row of [i .. n-1] whose entry
    has the largest magnitude. *)
Definition select_pivot (aug : Matrix) (n i : nat) : result nat :=
  for_range i n (fun r pivot =>
    x <- mget aug r i ;;
    y <- mget aug pivot i ;;
    if gtb (fabs x) (fabs y) then Ok r else Ok pivot) i.

(** One iteration of the elimination loop. *)
Definition eliminate_column (n i : nat) (aug : Matrix) : result Matrix :=
  pivot <- select_pivot aug n i ;;
  p <- mget aug pivot i ;;
  if ltb (fabs p) tiny then Err SingularMatrix else
  aug <- (if negb (pivot =? i) then swap_rows aug pivot i else Ok aug) ;;
  diag <- mget aug i i ;;
  aug <- for_range 0 (2 * n) (fun j aug =>
           a <- mget aug i j ;;
           mset aug i j (div a diag)) aug ;;
  for_range 0 n (fun r aug =>
    if r =? i then Ok aug else
    factor <- mget aug r i ;;
    if negb (eqb factor zero) then
      for_range 0 (2 * n) (fun j aug =>
        a <- mget aug r j ;;
        b <- mget aug i j ;;
        mset aug r j (sub a (mul factor b))) aug
    else Ok aug) aug.

(** The right half of the augmented matrix. *)
Definition extract (aug : Matrix) (n : nat) : result Matrix :=
  for_range 0 n (fun i inv =>
    for_range 0 n (fun j inv =>
      a <- mget aug i (n + j) ;;
      mset inv i j a) inv) (mzeros n n).

Definition inverse (A : Matrix) : result Matrix :=
  let n := length A in
  match A with
  | [] => Err NonSquareMatrix
  | r0 :: _ =>
    if negb (length r0 =? n) then Err NonSquareMatrix else
    aug <- augment A n ;;
    aug <- for_range 0 n (eliminate_column n) aug ;;
    extract aug n
  end.

Definition pseudoinverse (A : Matrix) : result Matrix :=
  let m := length A in
  let n := match A with [] => 0 | r0 :: _ => length r0 end in
  if (m =? 0) || (n =? 0) then Ok [] else
  AT <- transpose A ;;
  if n <=? m then
    ATA <- multiply AT A ;;
    ATA_inv <- inverse ATA ;;
    multiply ATA_inv AT
  else
    AAT <- multiply A AT ;;
    AAT_inv <- inverse AAT ;;
    multiply AT AAT_inv.

End Code.

Section Norms.
Context {K : Scalar} {SQ : ScalarSqrt K}.

Definition frobenius_norm (A : Matrix) : num :=
  sqrt (fold_left (fun sum r =>
          fold_left (fun sum v => add sum (mul v v)) r sum) A zero).

Definition condition_number (A : Matrix) : result num :=
  pinv <- pseudoinverse A ;;
  let normA := frobenius_norm A in
  let normInv := frobenius_norm pinv in
  Ok (mul normA normInv).

End Norms.
End Pinv.

(** ** dijkstra.cpp *)

Module Graphs.

(** How a call ends: with the returned value, with the
    [std::runtime_error] of a negative weight, with the [std::length_error]
    of a vector constructed with a negative size, or in an [operator[]]
    access outside a vector. *)
Inductive outcome (A : Type) : Type :=
| Returned (a : A)
| NegativeWeight
| LengthError
| OutOfRange.

Arguments Returned {A} a.
Arguments NegativeWeight {A}.
Arguments LengthError {A}.
Arguments OutOfRange {A}.

Definition and_then {A B : Type} (c : outcome A) (k : A -> outcome B)
  : outcome B :=
  match c with
  | Returned a => k a
  | NegativeWeight => NegativeWeight
  | LengthError => LengthError
  | OutOfRange => OutOfRange
  end.

Notation "x <~ c ;; k" := (and_then c (fun x => k))
  (at level 61, c at next level, right associativity).
Notation "' p <~ c ;; k" := (and_then c (fun p => k))
  (at level 61, p pattern, c at next level, right associativity).

(** The operations [dijkstra] applies to [double]. *)
Class Weight : Type := {
  weight : Type;
  w_zero : weight;                          (* 0.0 *)
  w_inf : weight;                           (* numeric_limits::infinity() *)
  w_add : weight -> weight -> weight;
  w_ltb : weight -> weight -> bool          (* < *)
}.

(** [v[i]] with an [int] index: a negative index converts to a size past
    the end. *)
Definition at_index {A : Type} (l : list A) (i : Z) : outcome A :=
  if (i <? 0)%Z then OutOfRange else
  match nth_error l (Z.to_nat i) with
  | Some x => Returned x
  | None => OutOfRange
  end.

(** [v[i] = x] *)
Definition assign {A : Type} (l : list A) (i : Z) (x : A) : outcome (list A) :=
  if (i <? 0)%Z then OutOfRange else
  if Z.to_nat i <? length l then Returned (set_nth l (Z.to_nat i) x)
  else OutOfRange.

Section Code.
Context {W : Weight}.

(** [std::pair<double, int>]: a tentative distance and its node. *)
Definition Item : Type := weight * Z.

(** [std::vector<std::vector<std::pair<int, double>>>] *)
Definition AdjList : Type := list (list (Z * weight)).

(** [NodeCmp]: [a.first > b.first]. *)
Definition NodeCmp (a b : Item) : bool := w_ltb (fst b) (fst a).

(** [std::priority_queue<Item, std::vector<Item>, NodeCmp>].  The source
    fixes the comparison, not the heap: any container that returns the
    items it was given, each once, stands for it.  [pq_pop] is [empty()],
    [top()] and [pop()] in one. *)
Record PriorityQueue : Type := {
  pq : Type;
  pq_empty : pq;
  pq_push : Item -> pq -> pq;
  pq_pop : pq -> option (Item * pq);
  pq_items : pq -> list Item;
  pq_empty_items : pq_items pq_empty = [];
  pq_push_items : forall x q,
    Permutation (pq_items (pq_push x q)) (x :: pq_items q);
  pq_pop_none : forall q, pq_pop q = None -> pq_items q = [];
  pq_pop_some : forall q x q',
    pq_pop q = Some (x, q') -> Permutation (pq_items q) (x :: pq_items q')
}.

(** What [top()] promises under [NodeCmp]: no item of the queue goes
    before the one returned. *)
Definition pops_first (Q : PriorityQueue) : Prop :=
  forall q x q', pq_pop Q q = Some (x, q') ->
  forall y, In y (pq_items Q q) -> NodeCmp x y = false.

Variable Q : PriorityQueue.

(** The loop over the edges of the node popped with distance [d]. *)
Fixpoint relax (d : weight) (edges : list (Z * weight))
  (dist : list weight) (q : pq Q) : outcome (list weight * pq Q) :=
  match edges with
  | [] => Returned (dist, q)
  | (v, w) :: rest =>
      if w_ltb w w_zero then NegativeWeight else
      let alt := w_add d w in
      dv <~ at_index dist v ;;
      if w_ltb alt dv then
        dist' <~ assign dist v alt ;;
        relax d rest dist' (pq_push Q (alt, v) q)
      else relax d rest dist q
  end.

(** One turn of [while (!pq.empty())]: [None] when the queue is empty,
    else the state after the body. *)
Definition turn (adj : AdjList) (dist : list weight) (visited : list bool)
  (q : pq Q) : option (outcome (list weight * list bool * pq Q)) :=
  match pq_pop Q q with
  | None => None
  | Some ((d, u), q') =>
      Some (seen <~ at_index visited u ;;
            if seen : bool then Returned (dist, visited, q') else
            visited' <~ assign visited u true ;;
            edges <~ at_index adj u ;;
            '(dist', q'') <~ relax d edges dist q' ;;
            Returned (dist', visited', q''))
  end.

(** The loop, run for at most [fuel] turns; [None]: the turns ran out. *)
Fixpoint drain (fuel : nat) (adj : AdjList) (dist : list weight)
  (visited : list bool) (q : pq Q) : option (outcome (list weight)) :=
  match fuel with
  | 0 => None
  | S fuel' =>
      match turn adj dist visited q with
      | None => Some (Returned dist)
      | Some (Returned (dist', visited', q')) =>
          drain fuel' adj dist' visited' q'
      | Some NegativeWeight => Some NegativeWeight
      | Some LengthError => Some LengthError
      | Some OutOfRange => Some OutOfRange
      end
  end.

Definition dijkstra_in (fuel : nat) (n : Z) (adj : AdjList) (source : Z)
  : option (outcome (list weight)) :=
  if (n <? 0)%Z then Some LengthError else
  let dist := repeat w_inf (Z.to_nat n) in
  let visited := repeat false (Z.to_nat n) in
  match assign dist source w_zero with
  | Returned dist =>
      drain fuel adj dist visited (pq_push Q (w_zero, source) (pq_empty Q))
  | NegativeWeight => Some NegativeWeight
  | LengthError => Some LengthError
  | OutOfRange => Some OutOfRange
  end.

(** The number of edges of the graph. *)
Definition edge_count (adj : AdjList) : nat := list_sum (map (@length _) adj).

(** Every edge enters the queue at most once and the source once: the
    loop takes at most [edge_count adj + 1] turns and one more look at the
    queue. *)
Definition dijkstra (n : Z) (adj : AdjList) (source : Z)
  : option (outcome (list weight)) :=
  dijkstra_in (edge_count adj + 2) n adj source.

End Code.
End Graphs.

(** ** IEEE binary64 *)

(** [double] with the operations of the language: each one correctly
    rounded to nearest, ties to even, a multiplication followed by an
    addition rounded twice; comparisons with a NaN are false. *)

#[export] Instance double : Scalar := {|
  num := float;
  zero := 0%float;
  one := 1%float;
  two := 2%float;
  tiny := 0x1.19799812dea11p-40%float;
  add := PrimFloat.add;
  sub := PrimFloat.sub;
  mul := PrimFloat.mul;
  div := PrimFloat.div;
  neg := PrimFloat.opp;
  fabs := PrimFloat.abs;
  eqb := PrimFloat.eqb;
  ltb := PrimFloat.ltb;
  leb := PrimFloat.leb
|}.

#[export] Instance double_sqrt : ScalarSqrt double := {|
  sqrt := PrimFloat.sqrt
|}.

(** [double] as the weights of a graph. *)
#[export] Instance double_weight : Graphs.Weight := {|
  Graphs.weight := float;
  Graphs.w_zero := 0%float;
  Graphs.w_inf := infinity;
  Graphs.w_add := PrimFloat.add;
  Graphs.w_ltb := PrimFloat.ltb
|}.

(** ** Comparing up to a tolerance *)

Section Tolerance.
Context {K : Scalar}.

(** [|x - y| <= eps] *)
Definition within (eps x y : num) : bool := leb (fabs (sub x y)) eps.

Fixpoint vec_within (eps : num) (u v : Vector) : bool :=
  match u, v with
  | [], [] => true
  | x :: u', y :: v' => within eps x y && vec_within eps u' v'
  | _, _ => false
  end.

Fixpoint mat_within (eps : num) (A B : Matrix) : bool :=
  match A, B with
  | [], [] => true
  | r :: A', s :: B' => vec_within eps r s && mat_within eps A' B'
  | _, _ => false
  end.

End Tolerance.

(** ** Exact arithmetic: the rationals *)

#[export] Instance rational : Scalar := {|
  num := Qc;
  zero := Q2Qc 0;
  one := Q2Qc 1;
  two := Q2Qc 2;
  tiny := Q2Qc (1 # 1000000000000);
  add := Qcplus;
  sub := Qcminus;
  mul := Qcmult;
  div := Qcdiv;
  neg := Qcopp;
  fabs := Qcabs;
  eqb := fun x y => Qeq_bool x y;
  ltb := fun x y => match Qccompare x y with Lt => true | _ => false end;
  leb := fun x y => match Qccompare x y with Gt => false | _ => true end
|}.

(** The rationals with a point at infinity, as the weights of a graph. *)
Inductive extended : Type :=
| Finite (q : Qc)
| Infinite.

#[export] Instance extended_weight : Graphs.Weight := {|
  Graphs.weight := extended;
  Graphs.w_zero := Finite (Q2Qc 0);
  Graphs.w_inf := Infinite;
  Graphs.w_add := fun a b =>
    match a, b with
    | Finite x, Finite y => Finite (Qcplus x y)
    | _, _ => Infinite
    end;
  Graphs.w_ltb := fun a b =>
    match a, b with
    | Finite x, Finite y => @ltb rational x y
    | Finite _, Infinite => true
    | Infinite, _ => false
    end
|}.

(** * Specification vocabulary *)

(** [c] raises nothing but an out-of-range access. *)
Definition oob_only {A : Type} (c : result A) : Prop :=
  forall e, c = Err e -> e = OutOfBounds.

Section Vocabulary.
Context {K : Scalar}.

(** ** Shapes and elements *)

(** [A] has [m] rows, each of length [n]. *)
Definition shape (m n : nat) (A : Matrix) : Prop :=
  length A = m /\ Forall (fun r => length r = n) A.

(** Element [(i, j)], with [zero] outside the matrix. *)
Definition get (A : Matrix) (i j : nat) : num := nth j (nth i A []) zero.

(** [A] with element [(i, j)] replaced. *)
Definition upd (A : Matrix) (i j : nat) (x : num) : Matrix :=
  set_nth A i (set_nth (nth i A []) j x).

(** ** Sums and products *)

(** [f 0 + f 1 + ... + f (n-1)], accumulated from zero. *)
Definition sum_to (n : nat) (f : nat -> num) : num :=
  fold_left (fun acc k => add acc (f k)) (seq 0 n) zero.

(** The inner-product sum as the loops accumulate it: from [0.0], terms
    added in the order [k = 0, 1, ..., n-1]. *)
Definition dot_sum (n : nat) (a b : nat -> num) : num :=
  fold_left (fun acc k => add acc (mul (a k) (b k))) (seq 0 n) zero.

(** The same sum with the terms whose left factor compares equal to [0.0]
    left out, as [multiply] accumulates it. *)
Definition dot_skip (n : nat) (a b : nat -> num) : num :=
  fold_left (fun acc k =>
    if negb (eqb (a k) zero) then add acc (mul (a k) (b k)) else acc)
    (seq 0 n) zero.

(** Element [(i, j)] of the product as [matmul] computes it. *)
Definition product_entry (n : nat) (A B : Matrix) (i j : nat) : num :=
  dot_sum n (fun k => get A i k) (fun k => get B k j).

(** The same as [multiply] computes it. *)
Definition product_entry_skip (n : nat) (A B : Matrix) (i j : nat) : num :=
  dot_skip n (fun k => get A i k) (fun k => get B k j).

(** Element [(r, c)] of the identity. *)
Definition unit_entry (r c : nat) : num := if r =? c then one else zero.

(** ** Householder QR *)

(** [qr_decompose] up to its clean-up loops: the working copy [R] and the
    accumulated [Q] after all the reflections. *)
Definition before_cleanup {SQ : ScalarSqrt K} (A_in : Matrix)
  : result (Matrix * Matrix) :=
  let m := length A_in in
  n <- cols0 A_in ;;
  Q <- QR.identity m ;;
  for_range 0 (if m <? n then m else n) (fun col '(R, Q) =>
    QR.householder_reflect R Q col col) (A_in, Q).

(** ** Back-substitution *)

(** [y = Q^T b], element [i]. *)
Definition qt_b (m : nat) (Q : Matrix) (b : Vector) (i : nat) : num :=
  dot_sum m (fun j => get Q j i) (fun j => nth j b zero).

(** [sum of R[i][j] * x[j] for j = i+1 .. n-1], accumulated from [0.0]. *)
Definition back_sum (n : nat) (R : Matrix) (x : Vector) (i : nat) : num :=
  fold_left (fun acc j => add acc (mul (get R i j) (nth j x zero)))
            (seq (i + 1) (n - (i + 1))) zero.

(** [x] is the result of the back-substitution on [R x = y]. *)
Definition back_substituted (n : nat) (R : Matrix) (y : nat -> num)
  (x : Vector) : Prop :=
  length x = n /\
  forall i, i < n ->
    nth i x zero = div (sub (y i) (back_sum n R x i)) (get R i i).

(** Some diagonal element of the triangular block is below [1e-12]. *)
Definition singular_diagonal (n : nat) (R : Matrix) : bool :=
  existsb (fun i => ltb (fabs (get R i i)) tiny) (seq 0 n).

(** ** Gauss-Jordan elimination *)

(** Element [(i, j)] of the augmented matrix [A | I]. *)
Definition aug_entry (n : nat) (A : Matrix) (i j : nat) : num :=
  if j <? n then get A i j else if i =? j - n then one else zero.

(** Row [r] after [std::swap(aug[p], aug[i])]. *)
Definition swapped (p i r : nat) : nat :=
  if r =? i then p else if r =? p then i else r.

(** Row [r] of [aug] after the rows other than [i] had their multiple of
    row [i] subtracted. *)
Definition reduced (aug : Matrix) (i r j : nat) : num :=
  if r =? i then get aug i j
  else if negb (eqb (get aug r i) zero)
       then sub (get aug r j) (mul (get aug r i) (get aug i j))
       else get aug r j.

(** Element [(r, j)] after one elimination step on column [i] with the
    pivot found in row [p]: rows [p] and [i] are exchanged, the new row [i]
    is divided by the pivot, and every other row loses its multiple of it
    (rows whose factor compares equal to [0.0] are left alone). *)
Definition eliminated (aug : Matrix) (p i r j : nat) : num :=
  let piv := fun j => div (get aug p j) (get aug p i) in
  if r =? i then piv j
  else
    let q := swapped p i r in
    let f := get aug q i in
    if negb (eqb f zero) then sub (get aug q j) (mul f (piv j))
    else get aug q j.

(** The state of the elimination when it reaches column [i]: the augmented
    matrix after the steps on the columns [0 .. i-1]. *)
Definition gj_run (n : nat) (A : Matrix) (i : nat) : result Matrix :=
  aug <- Pinv.augment A n ;; for_range 0 i (Pinv.eliminate_column n) aug.

(** Row [r] of the right half of [aug], times the column vector [a]. *)
Definition rdot (n : nat) (aug : Matrix) (r : nat) (a : nat -> num) : num :=
  sum_to n (fun k => mul (get aug r (n + k)) (a k)).

(** The right half times [A] is the left half. *)
Definition right_times (n : nat) (A aug : Matrix) : Prop :=
  forall r j, r < n -> j < n ->
    rdot n aug r (fun k => get A k j) = get aug r j.

(** The columns [0 .. i-1] of the left half are unit vectors. *)
Definition columns_done (n i : nat) (aug : Matrix) : Prop :=
  forall r c, r < n -> c < i -> get aug r c = unit_entry r c.

(** Only the zero vector is annihilated by every row of the right half. *)
Definition right_kernel_trivial (n : nat) (aug : Matrix) : Prop :=
  forall w : nat -> num,
    (forall r, r < n -> rdot n aug r w = zero) ->
    forall k, k < n -> w k = zero.

(** ** Norms and normal matrices *)

(** The sum of the squares of the elements of an [m x n] matrix,
    accumulated from [0.0] row by row, each row from left to right. *)
Definition square_sum (m n : nat) (A : Matrix) : num :=
  fold_left (fun acc i =>
    fold_left (fun acc j => add acc (mul (get A i j) (get A i j)))
              (seq 0 n) acc)
    (seq 0 m) zero.

(** The Frobenius norm of an [m x n] matrix: the square root of the sum of
    the squares of its elements. *)
Definition frobenius {SQ : ScalarSqrt K} (m n : nat) (A : Matrix) : num :=
  sqrt (square_sum m n A).

(** Element [(t, l)] of [A^T A] for [A] with [m] rows, and of [A A^T] for
    [A] with [n] columns. *)
Definition gram_columns (m : nat) (A : Matrix) (t l : nat) : num :=
  sum_to m (fun k => mul (get A k t) (get A k l)).

Definition gram_rows (n : nat) (A : Matrix) (t l : nat) : num :=
  sum_to n (fun k => mul (get A t k) (get A l k)).

End Vocabulary.

(** ** Column slices, frames and products by elements *)

Section FurtherVocabulary.
Context {K : Scalar}.

(** The elements of column [col] in the rows [start ..], top to bottom. *)
Definition column_from (A : Matrix) (col start : nat) : Vector :=
  map (fun r => nth col r zero) (skipn start A).

(** [A'] has the shape of [A] and agrees with it on the rows before
    [start] and on the columns before [lo]. *)
Definition same_outside (m n start lo : nat) (A A' : Matrix) : Prop :=
  shape m n A' /\
  forall i j, i < m -> j < n -> i < start \/ j < lo ->
              get A' i j = get A i j.

(** [Q'] has the shape of [Q] and agrees with it on the columns before
    [start]. *)
Definition same_left (q m start : nat) (Q Q' : Matrix) : Prop :=
  shape q m Q' /\
  forall i j, i < q -> j < m -> j < start -> get Q' i j = get Q i j.

(** Element [(i, j)] of the product of two matrices given by their
    elements, the inner dimension being [n]. *)
Definition fprod (n : nat) (X Y : nat -> nat -> num) (i j : nat) : num :=
  sum_to n (fun k => mul (X i k) (Y k j)).

(** The comparison of [matrices_approx_equal] at one element. *)
Definition differs (eps : num) (A B : Matrix) (i j : nat) : bool :=
  gtb (fabs (sub (get A i j) (get B i j))) eps.

End FurtherVocabulary.

(** ** Graphs *)

Import Graphs.

(** [a <= b] on weights, as the negation of [b < a]. *)
Notation "a <=w b" := (w_ltb b a = false) (at level 70).

Section GraphVocabulary.
Context {W : Weight}.

(** [v] is a node of a graph of [n] nodes. *)
Definition is_node (n : nat) (v : Z) : Prop := (0 <= v < Z.of_nat n)%Z.

(** The edges leaving [u]; none when [adj] has no entry for [u]. *)
Definition edges_of (adj : AdjList) (u : Z) : list (Z * weight) :=
  match at_index adj u with
  | Returned edges => edges
  | _ => []
  end.

(** [walk adj s v d]: some walk from [s] to [v] along the edges of [adj]
    has the length [d], its weights added from [0.0] in the order of the
    walk. *)
Inductive walk (adj : AdjList) (s : Z) : Z -> weight -> Prop :=
| walk_start : walk adj s s w_zero
| walk_edge u v d w :
    walk adj s u d -> In (v, w) (edges_of adj u) ->
    walk adj s v (w_add d w).

(** The edges still to be looked at: those of the nodes not yet visited. *)
Fixpoint pending (adj : AdjList) (visited : list bool) : nat :=
  match adj, visited with
  | edges :: adj', seen :: visited' =>
      (if seen then 0 else length edges) + pending adj' visited'
  | _, _ => 0
  end.

(** [dist[v]] and [visited[x]]. *)
Definition dist_at (dist : list weight) (v : Z) : weight :=
  nth (Z.to_nat v) dist w_inf.

Definition seen (visited : list bool) (x : Z) : bool :=
  nth (Z.to_nat x) visited false.

(** Every item of the queue holds a node and the length of a walk to it. *)
Definition items_sound (n : nat) (adj : AdjList) (s : Z)
  (items : list Item) : Prop :=
  forall d u, In (d, u) items -> is_node n u /\ walk adj s u d.

(** Every distance is the initial infinity or the length of a walk. *)
Definition dist_sound (n : nat) (adj : AdjList) (s : Z)
  (dist : list weight) : Prop :=
  length dist = n /\
  forall v, is_node n v ->
            dist_at dist v = w_inf \/ walk adj s v (dist_at dist v).

(** What an outcome of the loop tells: the distances returned are sound;
    a negative weight was met on an edge leaving a node the walks reach;
    the access outside a vector was to the entry of [adj] for such a node
    or to the distance of the target of one of its edges. *)
Definition outcome_sound (n : nat) (adj : AdjList) (s : Z)
  (r : outcome (list weight)) : Prop :=
  match r with
  | Returned dist => dist_sound n adj s dist
  | NegativeWeight =>
      exists u d v w, walk adj s u d /\ is_node n u /\
                      In (v, w) (edges_of adj u) /\ w_ltb w w_zero = true
  | OutOfRange =>
      exists u d, walk adj s u d /\ is_node n u /\
        (length adj <= Z.to_nat u \/
         exists v w, In (v, w) (edges_of adj u) /\ ~ is_node n v)
  | LengthError => False
  end.

(** The graph has an entry for each of its [n] nodes, every edge of a node
    leads to a node and no weight is below [0.0]. *)
Definition edge_ok (n : nat) (e : Z * weight) : bool :=
  (0 <=? fst e)%Z && (fst e <? Z.of_nat n)%Z && negb (w_ltb (snd e) w_zero).

Definition well_formed (n : nat) (adj : AdjList) : bool :=
  (n <=? length adj) && forallb (forallb (edge_ok n)) (firstn n adj).

(** The state at the head of the loop of [dijkstra] on a well-formed
    graph, over ordered weights: the items of the queue hold nodes and
    distances that the current ones do not exceed; no visited node is
    farther than an item; a node not yet visited is in the queue with its
    distance, or at infinity; the edges of the visited nodes are relaxed;
    the source is at [0.0] or below. *)
Definition settled (n : nat) (adj : AdjList) (s : Z)
  (dist : list weight) (visited : list bool) (items : list Item) : Prop :=
  length dist = n /\ length visited = n /\
  (forall d u, In (d, u) items ->
     is_node n u /\ dist_at dist u <=w d /\ d <=w w_inf) /\
  (forall x d u, is_node n x -> seen visited x = true -> In (d, u) items ->
     dist_at dist x <=w d) /\
  (forall u, is_node n u -> seen visited u = false ->
     In (dist_at dist u, u) items \/ dist_at dist u = w_inf) /\
  (forall x v w, is_node n x -> seen visited x = true ->
     In (v, w) (edges_of adj x) ->
     dist_at dist v <=w w_add (dist_at dist x) w) /\
  (forall v, is_node n v -> dist_at dist v <=w w_inf) /\
  dist_at dist s <=w w_zero.

(** The state inside the loop over the edges of [u], popped with the
    distance [d], after the edges [done]. *)
Definition relaxing (n : nat) (adj : AdjList) (s : Z)
  (d : weight) (u : Z) (visited : list bool)
  (done : list (Z * weight)) (dist : list weight) (items : list Item)
  : Prop :=
  length dist = n /\
  (forall k x, In (k, x) items ->
     is_node n x /\ dist_at dist x <=w k /\ k <=w w_inf /\ d <=w k) /\
  (forall x, is_node n x -> seen visited x = true -> dist_at dist x <=w d) /\
  (forall x, is_node n x -> seen visited x = false ->
     In (dist_at dist x, x) items \/ dist_at dist x = w_inf) /\
  (forall x v w, is_node n x -> x <> u -> seen visited x = true ->
     In (v, w) (edges_of adj x) ->
     dist_at dist v <=w w_add (dist_at dist x) w) /\
  (forall v w, In (v, w) done -> dist_at dist v <=w w_add d w) /\
  d <=w dist_at dist u /\
  (forall v, is_node n v -> dist_at dist v <=w w_inf) /\
  dist_at dist s <=w w_zero.

(** A priority queue kept as the list of its items: [pop_first] takes out
    the first of the items that no other item goes before. *)
Fixpoint pop_first (l : list Item) : option (Item * list Item) :=
  match l with
  | [] => None
  | x :: l' =>
      match pop_first l' with
      | None => Some (x, [])
      | Some (y, r) => if NodeCmp x y then Some (y, x :: r) else Some (x, l')
      end
  end.

End GraphVocabulary.

(** ** Laws a scalar type may satisfy *)

(** [<] is a strict order.  IEEE comparison is one: a NaN takes part in no
    true comparison. *)
Class OrderedScalar (K : Scalar) : Prop := {
  ltb_irrefl : forall x : num, ltb x x = false;
  ltb_trans : forall x y z : num,
    ltb x y = true -> ltb y z = true -> ltb x z = true
}.

(** The scalars form a field, [==] decides equality and [|0| < 1e-12]:
    what the algorithms assume of the reals.  [double] is not an instance
    (its addition is not associative); the rationals are. *)
Class ExactField (K : Scalar) : Prop := {
  exact_ring : ring_theory zero one add mul sub neg (@eq num);
  div_def : forall x y : num, div x y = mul x (div one y);
  div_inv : forall y : num, y <> zero -> mul (div one y) y = one;
  eqb_eq : forall x y : num, eqb x y = true <-> x = y;
  fabs_zero_small : ltb (fabs zero) tiny = true
}.

(** The weights are linearly ordered by [<], addition is monotone, adding
    a weight that is not negative does not decrease, and [0.0] is not above
    the infinity: what the algorithm assumes of the reals.  [double] is not
    an instance (a NaN is neither below nor above another weight, so [<=]
    is not transitive); the extended rationals are. *)
Class OrderedWeight (W : Weight) : Prop := {
  w_le_refl : forall a : weight, a <=w a;
  w_le_trans : forall a b c : weight, a <=w b -> b <=w c -> a <=w c;
  w_lt_le : forall a b : weight, w_ltb a b = true -> a <=w b;
  w_add_mono : forall a b w : weight, a <=w b -> w_add a w <=w w_add b w;
  w_add_nonneg : forall d w : weight, w_zero <=w w -> d <=w w_add d w;
  w_inf_nonneg : w_zero <=w w_inf
}.

(** ** Test data *)

#[local] Set Warnings "-inexact-float".

(** The literal 1e-6 as a [double]. *)
Definition tol6 : @num double := 0x1.0c6f7a0b5ed8dp-20%float.

(** The literals of the source are these doubles. *)
Definition literal_1e12 : @num double := 1e-12%float.
Definition literal_1e6 : @num double := 1e-6%float.

(** The matrix of the repository's QR test, and its 2x2 system with the
    solution the test expects. *)
Definition qr_test_matrix : @Matrix double :=
  [[12; -51; 4]; [6; 167; -68]; [-4; 24; -41]]%float.
Definition solve_test_matrix : @Matrix double := [[2; 1]; [1; 3]]%float.
Definition solve_test_rhs : @Vector double := [3; 5]%float.
Definition solve_test_solution : @Vector double := [1; 1]%float.

(** The singular matrix of the design's fifth scenario. *)
Definition singular_example : @Matrix double := [[1; 2]; [2; 4]]%float.

(** The 3x2 matrix of the repository's pseudoinverse test. *)
Definition pinv_test_matrix : @Matrix double :=
  [[1; 2]; [3; 4]; [5; 6]]%float.

(** Its pseudoinverse [[-4/3, -1/3, 2/3], [13/12, 1/3, -5/12]], to sixteen
    digits. *)
Definition pinv_test_expected : @Matrix double :=
  [[-1.3333333333333333; -0.3333333333333333; 0.6666666666666666];
   [1.0833333333333333; 0.3333333333333333; -0.4166666666666667]]%float.

(** The 2x2 and 3x3 identities. *)
Definition identity2 : @Matrix double := [[1; 0]; [0; 1]]%float.
Definition identity3 : @Matrix double :=
  [[1; 0; 0]; [0; 1; 0]; [0; 0; 1]]%float.

(** Scenario 1 and the first pseudoinverse test. *)
Definition inverse_test_matrix : @Matrix double := [[4; 7]; [2; 6]]%float.
Definition inverse_test_expected : @Matrix double :=
  [[0.6; -0.7]; [-0.2; 0.4]]%float.
Definition inverse_test_exact : @Matrix rational :=
  [[Q2Qc 4; Q2Qc 7]; [Q2Qc 2; Q2Qc 6]].

(** An ill-conditioned matrix whose pivots are all above [1e-12]. *)
Definition ill_conditioned : @Matrix double :=
  [[0.1; 0.3]; [0.7; 2.10000000001]]%float.

(** [1e-7]: above the pivot threshold, its square below it. *)
Definition tiny_pivot : @Matrix double := [[1e-7]]%float.
Definition tiny_pivot_exact : @Matrix rational := [[Q2Qc (1 # 10000000)]].

(** Operands whose inner dimensions differ. *)
Definition row12 : @Matrix double := [[1; 2]]%float.
Definition ones31 : @Matrix double := [[1]; [1]; [1]]%float.
Definition row123 : @Matrix double := [[1; 2; 3]]%float.
Definition ones21 : @Matrix double := [[1]; [1]]%float.

(** A matrix whose first reflection leaves a residue of about [1.2e-7]
    below the diagonal. *)
Definition residue_example : @Matrix double :=
  [[123456789; 1]; [987654321; 1]]%float.

(** A factorization for the solver: [Q] the identity, [R] triangular. *)
Definition solve_R : @Matrix double := [[2; 1]; [0; 4]]%float.
Definition solve_b : @Vector double := [3; 8]%float.

(** The matrices of the tests over the rationals, and a triangular system
    with [Q] the identity. *)
Definition pinv_test_exact : @Matrix rational :=
  [[Q2Qc 1; Q2Qc 2]; [Q2Qc 3; Q2Qc 4]; [Q2Qc 5; Q2Qc 6]].
Definition identity2_exact : @Matrix rational :=
  [[Q2Qc 1; Q2Qc 0]; [Q2Qc 0; Q2Qc 1]].
Definition solve_R_exact : @Matrix rational :=
  [[Q2Qc 2; Q2Qc 1]; [Q2Qc 0; Q2Qc 4]].
Definition solve_b_exact : @Vector rational := [Q2Qc 3; Q2Qc 8].

(** A matrix without columns, and a matrix of a single NaN. *)
Definition no_columns : @Matrix double := [[]; []].
Definition nan_matrix : @Matrix double := [[nan]].

(** A zero factor against an infinite one. *)
Definition zero11 : @Matrix double := [[0%float]].
Definition infinity11 : @Matrix double := [[infinity]].

(** The graph of the repository's Dijkstra test:
    0 -> 1 (1), 0 -> 2 (4), 1 -> 2 (2), 1 -> 3 (5), 2 -> 3 (1),
    in [double] and over the extended rationals. *)
Definition test_graph : @AdjList double_weight :=
  [[(1%Z, 1%float); (2%Z, 4%float)];
   [(2%Z, 2%float); (3%Z, 5%float)];
   [(3%Z, 1%float)];
   []].
Definition test_distances : list (@weight double_weight) :=
  [0; 1; 3; 4]%float.
Definition test_graph_exact : @AdjList extended_weight :=
  [[(1%Z, Finite (Q2Qc 1)); (2%Z, Finite (Q2Qc 4))];
   [(2%Z, Finite (Q2Qc 2)); (3%Z, Finite (Q2Qc 5))];
   [(3%Z, Finite (Q2Qc 1))];
   []].

(** ** The test programs *)

Module Tests.

(** How a test program ends when no exception leaves it: it returns 0, or
    the [assert] number [k] of its text, counted from 1, aborts it. *)
Inductive verdict : Type :=
| Passed
| Aborted (k : nat).

(** [assert(c);] followed by the rest of the program. *)
Definition assert_that (k : nat) (c : bool) (rest : result verdict)
  : result verdict :=
  if c then rest else Ok (Aborted k).

Section Helpers.
Context {K : Scalar}.

(** The static [matmul] of test_pseudoinverse.cpp has the text of
    [multiply]. *)
Definition matmul (A B : Matrix) : result Matrix := Pinv.multiply A B.

(** [matrices_approx_equal]; the flag is false once [return false] has
    left the loops. *)
Definition matrices_approx_equal (A B : Matrix) (eps : num) : result bool :=
  if negb (length A =? length B) || (length A =? 0) || (length B =? 0)
  then Ok false else
  ca <- cols0 A ;;
  cb <- cols0 B ;;
  if negb (ca =? cb) then Ok false else
  for_range 0 (length A) (fun i same =>
    if same : bool then
      for_range 0 ca (fun j same =>
        if same : bool then
          a <- mget A i j ;;
          b <- mget B i j ;;
          Ok (negb (gtb (fabs (sub a b)) eps))
        else Ok false) same
    else Ok false) true.

End Helpers.

(** The literals [1e-5] and [1e4]. *)
Definition literal_1e5 : @num double := 1e-5%float.
Definition literal_1e4 : @num double := 10000%float.

(** [main] of test_pseudoinverse.cpp. *)
Definition test_pseudoinverse : result verdict :=
  let A := inverse_test_matrix in
  invA <- Pinv.pseudoinverse A ;;
  let expected_inv := inverse_test_expected in
  c1 <- matrices_approx_equal invA expected_inv literal_1e6 ;;
  assert_that 1 c1 (
  I <- matmul A invA ;;
  let ident := identity2 in
  c2 <- matrices_approx_equal I ident literal_1e6 ;;
  assert_that 2 c2 (
  let B := pinv_test_matrix in
  Bplus <- Pinv.pseudoinverse B ;;
  BBplus <- matmul B Bplus ;;
  B1 <- matmul BBplus B ;;
  c3 <- matrices_approx_equal B1 B literal_1e5 ;;
  assert_that 3 c3 (
  BplusB <- matmul Bplus B ;;
  B2 <- matmul BplusB Bplus ;;
  c4 <- matrices_approx_equal B2 Bplus literal_1e5 ;;
  assert_that 4 c4 (
  cond <- Pinv.condition_number B ;;
  assert_that 5 (gtb cond zero && ltb cond literal_1e4) (Ok Passed))))).

(** The two loops of test_qr.cpp that compare a matrix with what is
    expected of its elements; the flag is false once an [assert] has
    failed. *)
Definition all_close (M : @Matrix double) (rows : nat)
  (cols : result nat) (expected : nat -> nat -> result (@num double))
  : result bool :=
  for_range 0 rows (fun i close =>
    if close : bool then
      n <- cols ;;
      for_range 0 n (fun j close =>
        if close : bool then
          x <- mget M i j ;;
          e <- expected i j ;;
          let diff := fabs (sub x e) in
          Ok (ltb diff literal_1e6)
        else Ok false) close
    else Ok false) true.

(** [main] of test_qr.cpp. *)
Definition test_qr : result verdict :=
  let A := qr_test_matrix in
  '(Q, R) <- QR.qr_decompose A ;;
  QRm <- QR.matmul Q R ;;
  c1 <- all_close QRm (length A) (cols0 A) (fun i j => mget A i j) ;;
  assert_that 1 c1 (
  Qt <- QR.transpose Q ;;
  QtQ <- QR.matmul Qt Q ;;
  c2 <- all_close QtQ (length QtQ) (cols0 QtQ)
          (fun i j => Ok (if i =? j then one else zero)) ;;
  assert_that 2 c2 (
  let A2 := solve_test_matrix in
  let b := solve_test_rhs in
  '(Q2, R2) <- QR.qr_decompose A2 ;;
  x <- QR.solve_qr Q2 R2 b ;;
  x0 <- vget x 0 ;;
  assert_that 3 (ltb (fabs (sub x0 one)) literal_1e6) (
  x1 <- vget x 1 ;;
  assert_that 4 (ltb (fabs (sub x1 one)) literal_1e6) (Ok Passed)))).

End Tests.

(** * Properties *)

(** ** The literals *)

Lemma tiny_is_literal : tiny = literal_1e12.
Proof. reflexivity. Qed.

Lemma tol6_is_literal : tol6 = literal_1e6.
Proof. reflexivity. Qed.

(** ** The outcome monad and the loops *)

Lemma bind_ok_inv {A B : Type} (c : result A) (k : A -> result B) (b : B) :
  bind c k = Ok b -> exists a, c = Ok a /\ k a = Ok b.
Proof. destruct c as [a|e]; simpl; intros H; [eauto | discriminate]. Qed.

Lemma bind_err_inv {A B : Type} (c : result A) (k : A -> result B) (e : error) :
  bind c k = Err e -> c = Err e \/ exists a, c = Ok a /\ k a = Err e.
Proof. destruct c as [a|e']; simpl; intros H; [eauto | left; congruence]. Qed.

Lemma for_loop_app {St : Type} (body : nat -> St -> result St) :
  forall c1 c2 i s,
    for_loop (c1 + c2) i body s =
    (s' <- for_loop c1 i body s ;; for_loop c2 (i + c1) body s').
Proof.
  induction c1 as [|c1 IH]; intros c2 i s; simpl.
  - now rewrite Nat.add_0_r.
  - destruct (body i s) as [s'|e]; simpl; [|reflexivity].
    rewrite IH. now replace (i + S c1) with (S i + c1) by lia.
Qed.

(** Invariant rule: a body that preserves [P] from index to index and never
    fails makes the loop succeed with [P] at the exit index. *)
Lemma for_loop_ind {St : Type} (P : nat -> St -> Prop)
  (body : nat -> St -> result St) :
  forall count i s,
    P i s ->
    (forall k t, i <= k < i + count -> P k t ->
                 exists t', body k t = Ok t' /\ P (S k) t') ->
    exists s', for_loop count i body s = Ok s' /\ P (i + count) s'.
Proof.
  induction count as [|c IH]; intros i s Hs Hstep; simpl.
  - exists s. now rewrite Nat.add_0_r.
  - destruct (Hstep i s) as (t & Hb & Ht); [lia | exact Hs |].
    rewrite Hb; simpl.
    destruct (IH (S i) t Ht) as (s' & Hl & Hs').
    + intros k u Hk Hu. apply Hstep; [lia | exact Hu].
    + exists s'. split; [exact Hl |].
      now replace (i + S c) with (S i + c) by lia.
Qed.

Lemma for_range_ind {St : Type} (P : nat -> St -> Prop)
  (body : nat -> St -> result St) (lo hi : nat) (s : St) :
  lo <= hi ->
  P lo s ->
  (forall k t, lo <= k < hi -> P k t ->
               exists t', body k t = Ok t' /\ P (S k) t') ->
  exists s', for_range lo hi body s = Ok s' /\ P hi s'.
Proof.
  intros Hle Hs Hstep. unfold for_range.
  destruct (for_loop_ind P body (hi - lo) lo s Hs) as (s' & Hl & Hs').
  - intros k t Hk. apply Hstep. lia.
  - exists s'. split; [exact Hl |].
    now replace (lo + (hi - lo)) with hi in Hs' by lia.
Qed.

(** The same for a property of the state alone. *)
Lemma for_range_pres {St : Type} (P : St -> Prop)
  (body : nat -> St -> result St) (lo hi : nat) (s : St) :
  P s ->
  (forall k t, lo <= k < hi -> P t -> exists t', body k t = Ok t' /\ P t') ->
  exists s', for_range lo hi body s = Ok s' /\ P s'.
Proof.
  intros Hs Hstep. unfold for_range.
  destruct (for_loop_ind (fun _ => P) body (hi - lo) lo s Hs)
    as (s' & Hl & Hs').
  - intros k t Hk. apply Hstep. lia.
  - now exists s'.
Qed.

(** A loop fails exactly when some iteration fails after the earlier ones
    succeeded; it then fails with that iteration's condition. *)
Lemma for_loop_err {St : Type} (body : nat -> St -> result St) (e : error) :
  forall count i s,
    for_loop count i body s = Err e <->
    exists k t, k < count /\ for_loop k i body s = Ok t /\
                body (i + k) t = Err e.
Proof.
  induction count as [|c IH]; intros i s; simpl.
  - split; [discriminate | intros (k & t & Hk & _); lia].
  - split.
    + intros H. destruct (body i s) as [s'|e'] eqn:Hb; simpl in H.
      * apply IH in H. destruct H as (k & t & Hk & Hl & He).
        exists (S k), t. simpl. rewrite Hb. simpl.
        repeat split; [lia | exact Hl |].
        now replace (i + S k) with (S i + k) by lia.
      * exists 0, s. simpl. rewrite Nat.add_0_r.
        repeat split; [lia | congruence].
    + intros (k & t & Hk & Hl & He). destruct k as [|k]; simpl in Hl.
      * injection Hl as <-. rewrite Nat.add_0_r in He. now rewrite He.
      * destruct (body i s) as [s'|e'] eqn:Hb; simpl in Hl; [|discriminate].
        simpl. apply IH. exists k, t.
        repeat split; [lia | exact Hl |].
        now replace (S i + k) with (i + S k) by lia.
Qed.

(** ** Shapes and element access *)

Section Access.
Context {K : Scalar}.

Lemma set_nth_length {A : Type} (l : list A) i x :
  i < length l -> length (set_nth l i x) = length l.
Proof.
  intros H. unfold set_nth.
  rewrite length_app. cbn [length]. rewrite length_firstn, length_skipn. lia.
Qed.

Lemma nth_set_nth {A : Type} (l : list A) i k x d :
  i < length l ->
  nth k (set_nth l i x) d = if k =? i then x else nth k l d.
Proof.
  intros H. unfold set_nth.
  destruct (Nat.eqb_spec k i) as [->|Hne].
  - rewrite app_nth2; rewrite length_firstn; [|lia].
    now replace (i - Nat.min i (length l)) with 0 by lia.
  - destruct (Nat.lt_ge_cases k i) as [Hlt|Hge].
    + rewrite app_nth1; [|rewrite length_firstn; lia].
      rewrite nth_firstn. now apply Nat.ltb_lt in Hlt as ->.
    + rewrite app_nth2; rewrite length_firstn; [|lia].
      replace (k - Nat.min i (length l)) with (S (k - S i)) by lia.
      cbn [nth]. rewrite nth_skipn. f_equal. lia.
Qed.

Lemma shape_length {m n A} : shape m n A -> length A = m.
Proof. now intros [H _]. Qed.

Lemma shape_row {m n A i} : shape m n A -> i < m -> length (nth i A []) = n.
Proof.
  intros [Hm Hr] Hi. rewrite Forall_forall in Hr.
  apply Hr, nth_In. lia.
Qed.

Lemma row_ok A i : i < length A -> row A i = Ok (nth i A []).
Proof.
  intros H. unfold row. now rewrite (nth_error_nth' A [] H).
Qed.

Lemma vget_ok (v : Vector) j : j < length v -> vget v j = Ok (nth j v zero).
Proof.
  intros H. unfold vget. now rewrite (nth_error_nth' v zero H).
Qed.

Lemma vset_ok (v : Vector) j x :
  j < length v -> vset v j x = Ok (set_nth v j x).
Proof.
  intros H. unfold vset. now apply Nat.ltb_lt in H as ->.
Qed.

Lemma mget_ok {m n A} i j :
  shape m n A -> i < m -> j < n -> mget A i j = Ok (get A i j).
Proof.
  intros HA Hi Hj. unfold mget.
  rewrite row_ok by (rewrite (shape_length HA); exact Hi). simpl.
  apply vget_ok. now rewrite (shape_row HA Hi).
Qed.

Lemma mset_ok {m n A} i j x :
  shape m n A -> i < m -> j < n -> mset A i j x = Ok (upd A i j x).
Proof.
  intros HA Hi Hj. unfold mset.
  rewrite row_ok by (rewrite (shape_length HA); exact Hi). simpl.
  rewrite vset_ok by (now rewrite (shape_row HA Hi)). reflexivity.
Qed.

Lemma shape_set_row {m n A} i r :
  shape m n A -> i < m -> length r = n -> shape m n (set_nth A i r).
Proof.
  intros [Hm Hr] Hi Hlen. split.
  - rewrite set_nth_length; lia.
  - apply Forall_nth. intros k d Hk.
    rewrite set_nth_length in Hk by lia.
    rewrite nth_set_nth by lia.
    destruct (k =? i); [exact Hlen |].
    rewrite Forall_forall in Hr. apply Hr, nth_In. exact Hk.
Qed.

Lemma shape_upd {m n A} i j x :
  shape m n A -> i < m -> j < n -> shape m n (upd A i j x).
Proof.
  intros HA Hi Hj. unfold upd. apply shape_set_row; [exact HA | exact Hi |].
  rewrite set_nth_length; rewrite (shape_row HA Hi); [reflexivity | exact Hj].
Qed.

Lemma get_upd {m n A} i j x i' j' :
  shape m n A -> i < m -> j < n ->
  get (upd A i j x) i' j' =
  if (i' =? i) && (j' =? j) then x else get A i' j'.
Proof.
  intros HA Hi Hj. unfold get, upd.
  rewrite nth_set_nth by (rewrite (shape_length HA); exact Hi).
  destruct (Nat.eqb_spec i' i) as [->|Hne]; simpl; [|reflexivity].
  rewrite nth_set_nth by (now rewrite (shape_row HA Hi)).
  reflexivity.
Qed.

Lemma get_set_row {m n A} i r i' j' :
  shape m n A -> i < m ->
  get (set_nth A i r) i' j' = if i' =? i then nth j' r zero else get A i' j'.
Proof.
  intros HA Hi. unfold get.
  rewrite nth_set_nth by (rewrite (shape_length HA); exact Hi).
  now destruct (i' =? i).
Qed.

(** Two matrices of one shape with the same elements are equal. *)
Lemma shape_ext m n A B :
  shape m n A -> shape m n B ->
  (forall i j, i < m -> j < n -> get A i j = get B i j) ->
  A = B.
Proof.
  intros HA HB Hget.
  apply (nth_ext A B [] []).
  - now rewrite (shape_length HA), (shape_length HB).
  - intros i Hi. rewrite (shape_length HA) in Hi.
    apply (nth_ext _ _ zero zero).
    + now rewrite (shape_row HA Hi), (shape_row HB Hi).
    + intros j Hj. rewrite (shape_row HA Hi) in Hj. now apply Hget.
Qed.

Lemma shape_mzeros m n : shape m n (mzeros m n).
Proof.
  unfold mzeros, vzeros. split.
  - apply repeat_length.
  - apply Forall_forall. intros r Hr. apply repeat_spec in Hr. subst r.
    apply repeat_length.
Qed.

Lemma nth_vzeros n j : nth j (vzeros n) zero = zero.
Proof.
  unfold vzeros. destruct (Nat.lt_ge_cases j n) as [H|H].
  - now apply nth_repeat_lt.
  - apply nth_overflow. now rewrite repeat_length.
Qed.

Lemma get_mzeros m n i j : get (mzeros m n) i j = zero.
Proof.
  unfold get, mzeros. destruct (Nat.lt_ge_cases i m) as [H|H].
  - rewrite nth_repeat_lt by exact H. apply nth_vzeros.
  - rewrite (@nth_overflow (list num) _ i [])
      by (now rewrite repeat_length).
    now destruct j.
Qed.

Lemma cols0_ok {m n A} : shape m n A -> 0 < m -> cols0 A = Ok n.
Proof.
  intros HA Hm. unfold cols0.
  rewrite row_ok by (rewrite (shape_length HA); exact Hm). simpl.
  now rewrite (shape_row HA Hm).
Qed.

End Access.

(** ** Transpose *)

Section TransposeFacts.
Context {K : Scalar}.

(** The loops of [transpose] fill [B] column by column of the result; on a
    matrix with at least one row no access leaves a vector. *)
Lemma transpose_spec {m n} {A : Matrix} :
  shape m n A -> 0 < m ->
  exists B, QR.transpose A = Ok B /\ shape n m B /\
            forall i j, i < m -> j < n -> get B j i = get A i j.
Proof.
  intros HA Hm. unfold QR.transpose.
  rewrite (cols0_ok HA Hm). simpl. rewrite (shape_length HA).
  destruct (for_range_ind
    (fun i B => shape n m B /\
                forall i' j, i' < i -> j < n -> get B j i' = get A i' j)
    (fun i B => for_range 0 n (fun j B =>
                  a <- mget A i j ;; mset B j i a) B)
    0 m (mzeros n m)) as (B & HB & HsB & HgB).
  - lia.
  - split; [apply shape_mzeros | intros; lia].
  - intros i B0 Hi [HsB0 HgB0].
    destruct (for_range_ind
      (fun j B => shape n m B /\
                  (forall i' j', i' < i -> j' < n ->
                                 get B j' i' = get A i' j') /\
                  (forall j', j' < j -> get B j' i = get A i j'))
      (fun j B => a <- mget A i j ;; mset B j i a)
      0 n B0) as (B1 & HB1 & HsB1 & Hold & Hnew).
    + lia.
    + repeat split; [apply HsB0 | apply HsB0 | exact HgB0 | intros; lia].
    + intros j B1 Hj (HsB1 & Hold & Hnew).
      rewrite (mget_ok i j HA) by lia. simpl.
      rewrite (mset_ok j i _ HsB1) by lia.
      eexists. split; [reflexivity |].
      split; [apply shape_upd; [exact HsB1 | lia | lia] |].
      split.
      * intros i' j' Hi' Hj'. rewrite (get_upd j i _ j' i' HsB1) by lia.
        replace (i' =? i) with false by (symmetry; apply Nat.eqb_neq; lia).
        rewrite andb_false_r. now apply Hold.
      * intros j' Hj'. rewrite (get_upd j i _ j' i HsB1) by lia.
        rewrite Nat.eqb_refl, andb_true_r.
        destruct (Nat.eqb_spec j' j) as [->|Hne]; [reflexivity |].
        apply Hnew. lia.
    + exists B1. split; [exact HB1 |]. split; [exact HsB1 |].
      intros i' j Hi' Hj.
      destruct (Nat.eq_dec i' i) as [->|Hne]; [now apply Hnew |].
      apply Hold; lia.
  - exists B. split; [exact HB |]. split; [exact HsB |].
    intros i j Hi Hj. now apply HgB.
Qed.

Lemma pinv_transpose_same (A : Matrix) : Pinv.transpose A = QR.transpose A.
Proof. reflexivity. Qed.

End TransposeFacts.

(** ** Products *)

Ltac nat_cases :=
  repeat match goal with
  | |- context [?a <? ?b] => destruct (Nat.ltb_spec a b)
  | |- context [?a =? ?b] => destruct (Nat.eqb_spec a b)
  end; simpl; try subst; try lia; try reflexivity.

Section ProductFacts.
Context {K : Scalar}.

Lemma dot_sum_S n a b :
  dot_sum (S n) a b = add (dot_sum n a b) (mul (a n) (b n)).
Proof. unfold dot_sum. now rewrite seq_S, fold_left_app. Qed.

Lemma dot_skip_S n a b :
  dot_skip (S n) a b =
  if negb (eqb (a n) zero) then add (dot_skip n a b) (mul (a n) (b n))
  else dot_skip n a b.
Proof. unfold dot_skip. now rewrite seq_S, fold_left_app. Qed.

Lemma matmul_spec {m n n' p} {A B : Matrix} :
  shape m n A -> shape n' p B -> 0 < m -> 0 < n' -> n <= n' ->
  exists C, QR.matmul A B = Ok C /\ shape m p C /\
            forall i j, i < m -> j < p -> get C i j = product_entry n A B i j.
Proof.
  intros HA HB Hm Hn' Hn. unfold QR.matmul.
  rewrite (cols0_ok HA Hm), (cols0_ok HB Hn'). simpl. rewrite (shape_length HA).
  pose (Fo := fun i i' j => if i' <? i then product_entry n A B i' j else zero).
  pose (Fk := fun i k i' j =>
          if i' =? i then dot_sum k (fun k => get A i k) (fun k => get B k j)
          else Fo i i' j).
  pose (Fj := fun i k j i' j' =>
          if (i' =? i) && (j' <? j)
          then dot_sum (S k) (fun k => get A i k) (fun k => get B k j')
          else Fk i k i' j').
  pose (Inv := fun (F : nat -> nat -> num) (C : Matrix) =>
          shape m p C /\ forall i j, i < m -> j < p -> get C i j = F i j).
  destruct (for_range_ind (fun i => Inv (Fo i)) 
    (fun i C => for_range 0 n (fun k C =>
        a <- mget A i k ;;
        for_range 0 p (fun j C =>
          c <- mget C i j ;;
          b <- mget B k j ;;
          mset C i j (add c (mul a b))) C) C)
    0 m (mzeros m p)) as (C & HC & HsC & HgC).
  - lia.
  - split; [apply shape_mzeros |]. intros i j _ _. now rewrite get_mzeros.
  - intros i C0 Hi [Hs0 Hg0].
    destruct (for_range_ind (fun k => Inv (Fk i k))
      (fun k C =>
        a <- mget A i k ;;
        for_range 0 p (fun j C =>
          c <- mget C i j ;;
          b <- mget B k j ;;
          mset C i j (add c (mul a b))) C)
      0 n C0) as (C1 & HC1 & Hs1 & Hg1).
    + lia.
    + split; [exact Hs0 |]. intros i' j Hi' Hj. rewrite Hg0 by lia.
      unfold Fk, Fo. nat_cases.
    + intros k C1 Hk [Hs1 Hg1].
      rewrite (mget_ok i k HA) by lia. simpl.
      destruct (for_range_ind (fun j => Inv (Fj i k j))
        (fun j C =>
          c <- mget C i j ;;
          b <- mget B k j ;;
          mset C i j (add c (mul (get A i k) b)))
        0 p C1) as (C2 & HC2 & Hs2 & Hg2).
      * lia.
      * split; [exact Hs1 |]. intros i' j' Hi' Hj'. rewrite Hg1 by lia.
        unfold Fj. nat_cases.
      * intros j C2 Hj [Hs2 Hg2].
        rewrite (mget_ok i j Hs2), (mget_ok k j HB) by lia. simpl.
        rewrite (mset_ok i j _ Hs2) by lia.
        eexists. split; [reflexivity |].
        split; [apply shape_upd; [exact Hs2 | lia | lia] |].
        intros i' j' Hi' Hj'. rewrite (get_upd i j _ i' j' Hs2) by lia.
        rewrite !Hg2 by lia. unfold Fj, Fk.
        nat_cases; now rewrite dot_sum_S.
      * exists C2. split; [exact HC2 |]. split; [exact Hs2 |].
        intros i' j' Hi' Hj'. rewrite Hg2 by lia.
        unfold Fj, Fk. nat_cases.
    + exists C1. split; [exact HC1 |]. split; [exact Hs1 |].
      intros i' j' Hi' Hj'. rewrite Hg1 by lia.
      unfold Fk, Fo, product_entry. nat_cases.
  - exists C. split; [exact HC |]. split; [exact HsC |].
    intros i j Hi Hj. rewrite HgC by lia. unfold Fo. nat_cases.
Qed.

Lemma multiply_spec {m n inner p} {A B : Matrix} :
  shape m n A -> shape inner p B -> 0 < inner -> inner <= n ->
  exists C, Pinv.multiply A B = Ok C /\ shape m p C /\
            forall i j, i < m -> j < p ->
                        get C i j = product_entry_skip inner A B i j.
Proof.
  intros HA HB Hin Hn. unfold Pinv.multiply.
  rewrite (cols0_ok HB Hin). simpl.
  rewrite (shape_length HA), (shape_length HB).
  pose (Fo := fun i i' j =>
          if i' <? i then product_entry_skip inner A B i' j else zero).
  pose (Fk := fun i k i' j =>
          if i' =? i then dot_skip k (fun k => get A i k) (fun k => get B k j)
          else Fo i i' j).
  pose (Fj := fun i k j i' j' =>
          if (i' =? i) && (j' <? j)
          then add (dot_skip k (fun k => get A i k) (fun k => get B k j'))
                   (mul (get A i k) (get B k j'))
          else Fk i k i' j').
  pose (Inv := fun (F : nat -> nat -> num) (C : Matrix) =>
          shape m p C /\ forall i j, i < m -> j < p -> get C i j = F i j).
  destruct (for_range_ind (fun i => Inv (Fo i))
    (fun i C => for_range 0 inner (fun k C =>
        a <- mget A i k ;;
        if negb (eqb a zero) then
          for_range 0 p (fun j C =>
            c <- mget C i j ;;
            b <- mget B k j ;;
            mset C i j (add c (mul a b))) C
        else Ok C) C)
    0 m (mzeros m p)) as (C & HC & HsC & HgC).
  - lia.
  - split; [apply shape_mzeros |]. intros i j _ _. now rewrite get_mzeros.
  - intros i C0 Hi [Hs0 Hg0].
    destruct (for_range_ind (fun k => Inv (Fk i k))
      (fun k C =>
        a <- mget A i k ;;
        if negb (eqb a zero) then
          for_range 0 p (fun j C =>
            c <- mget C i j ;;
            b <- mget B k j ;;
            mset C i j (add c (mul a b))) C
        else Ok C)
      0 inner C0) as (C1 & HC1 & Hs1 & Hg1).
    + lia.
    + split; [exact Hs0 |]. intros i' j Hi' Hj. rewrite Hg0 by lia.
      unfold Fk, Fo. nat_cases.
    + intros k C1 Hk [Hs1 Hg1].
      rewrite (mget_ok i k HA) by lia. simpl.
      destruct (negb (eqb (get A i k) zero)) eqn:Hskip.
      * destruct (for_range_ind (fun j => Inv (Fj i k j))
          (fun j C =>
            c <- mget C i j ;;
            b <- mget B k j ;;
            mset C i j (add c (mul (get A i k) b)))
          0 p C1) as (C2 & HC2 & Hs2 & Hg2).
        -- lia.
        -- split; [exact Hs1 |]. intros i' j' Hi' Hj'. rewrite Hg1 by lia.
           unfold Fj. nat_cases.
        -- intros j C2 Hj [Hs2 Hg2].
           rewrite (mget_ok i j Hs2), (mget_ok k j HB) by lia. simpl.
           rewrite (mset_ok i j _ Hs2) by lia.
           eexists. split; [reflexivity |].
           split; [apply shape_upd; [exact Hs2 | lia | lia] |].
           intros i' j' Hi' Hj'. rewrite (get_upd i j _ i' j' Hs2) by lia.
           rewrite !Hg2 by lia. unfold Fj, Fk. nat_cases.
        -- exists C2. split; [exact HC2 |]. split; [exact Hs2 |].
           intros i' j' Hi' Hj'. rewrite Hg2 by lia.
           unfold Fj, Fk. nat_cases; now rewrite dot_skip_S, Hskip.
      * exists C1. split; [reflexivity |]. split; [exact Hs1 |].
        intros i' j' Hi' Hj'. rewrite Hg1 by lia.
        unfold Fk. nat_cases; now rewrite dot_skip_S, Hskip.
    + exists C1. split; [exact HC1 |]. split; [exact Hs1 |].
      intros i' j' Hi' Hj'. rewrite Hg1 by lia.
      unfold Fk, Fo, product_entry_skip. nat_cases.
  - exists C. split; [exact HC |]. split; [exact HsC |].
    intros i j Hi Hj. rewrite HgC by lia. unfold Fo. nat_cases.
Qed.

End ProductFacts.

(** ** Which conditions a routine can raise *)

Lemma oob_only_ok {A : Type} (a : A) : oob_only (Ok a).
Proof. intros e H. discriminate. Qed.

Lemma oob_only_err {A : Type} : oob_only (@Err A OutOfBounds).
Proof. intros e H. congruence. Qed.

Lemma oob_only_bind {A B : Type} (c : result A) (k : A -> result B) :
  oob_only c -> (forall a, oob_only (k a)) -> oob_only (bind c k).
Proof.
  intros Hc Hk e H. destruct (bind_err_inv _ _ _ H) as [Hc'|(a & _ & Hk')].
  - now apply Hc.
  - now apply (Hk a).
Qed.

Lemma oob_only_for_loop {St : Type} (body : nat -> St -> result St) :
  (forall i s, oob_only (body i s)) ->
  forall count i s, oob_only (for_loop count i body s).
Proof.
  intros Hb count i s e H.
  apply for_loop_err in H. destruct H as (k & t & _ & _ & He).
  exact (Hb _ _ e He).
Qed.

Lemma oob_only_for_range {St : Type} (body : nat -> St -> result St) lo hi s :
  (forall i s, oob_only (body i s)) -> oob_only (for_range lo hi body s).
Proof. intros Hb. now apply oob_only_for_loop. Qed.

Section OobFacts.
Context {K : Scalar}.

Lemma oob_only_row (A : Matrix) i : oob_only (row A i).
Proof.
  unfold row.
  destruct (nth_error A i); [apply oob_only_ok | apply oob_only_err].
Qed.

Lemma oob_only_vget (v : Vector) i : oob_only (vget v i).
Proof.
  unfold vget.
  destruct (nth_error v i); [apply oob_only_ok | apply oob_only_err].
Qed.

Lemma oob_only_vset (v : Vector) i x : oob_only (vset v i x).
Proof.
  unfold vset.
  destruct (i <? length v); [apply oob_only_ok | apply oob_only_err].
Qed.

Lemma oob_only_mget (A : Matrix) i j : oob_only (mget A i j).
Proof.
  unfold mget. apply oob_only_bind; [apply oob_only_row |].
  intros r. apply oob_only_vget.
Qed.

Lemma oob_only_mset (A : Matrix) i j x : oob_only (mset A i j x).
Proof.
  unfold mset. apply oob_only_bind; [apply oob_only_row |]. intros r.
  apply oob_only_bind; [apply oob_only_vset |]. intros r'. apply oob_only_ok.
Qed.

Lemma oob_only_cols0 (A : Matrix) : oob_only (cols0 A).
Proof.
  unfold cols0. apply oob_only_bind; [apply oob_only_row |].
  intros r. apply oob_only_ok.
Qed.

End OobFacts.

Ltac oob :=
  repeat first
    [ apply oob_only_ok | apply oob_only_err
    | apply oob_only_mget | apply oob_only_mset | apply oob_only_cols0
    | apply oob_only_vget | apply oob_only_vset | apply oob_only_row
    | apply oob_only_for_range; intros ? ?
    | apply oob_only_bind; [| intros ?]
    | match goal with |- oob_only (if ?b then _ else _) => destruct b end ].

Section ProductConditions.
Context {K : Scalar}.

Lemma oob_only_matmul (A B : Matrix) : oob_only (QR.matmul A B).
Proof. unfold QR.matmul. oob. Qed.

Lemma oob_only_multiply (A B : Matrix) : oob_only (Pinv.multiply A B).
Proof. unfold Pinv.multiply. oob. Qed.

End ProductConditions.

(** ** Householder QR: shapes and the clean-up of R *)

Section QrFacts.
Context {K : Scalar} {SQ : ScalarSqrt K}.

Lemma identity_spec n :
  exists I, QR.identity n = Ok I /\ shape n n I /\
            forall i j, i < n -> j < n ->
                        get I i j = if i =? j then one else zero.
Proof.
  unfold QR.identity.
  destruct (for_range_ind
    (fun k I => shape n n I /\
                forall i j, i < n -> j < n ->
                  get I i j = if (i =? j) && (i <? k) then one else zero)
    (fun i I => mset I i i one) 0 n (mzeros n n)) as (I & HI & HsI & HgI).
  - lia.
  - split; [apply shape_mzeros |]. intros i j _ _.
    rewrite get_mzeros. nat_cases.
  - intros k I Hk [HsI HgI]. rewrite (mset_ok k k _ HsI) by lia.
    eexists. split; [reflexivity |].
    split; [apply shape_upd; [exact HsI | lia | lia] |].
    intros i j Hi Hj. rewrite (get_upd k k _ i j HsI) by lia.
    rewrite HgI by lia. nat_cases.
  - exists I. split; [exact HI |]. split; [exact HsI |].
    intros i j Hi Hj. rewrite HgI by lia. nat_cases.
Qed.

Lemma cleanup_spec {m n} {R : Matrix} :
  shape m n R ->
  exists R', QR.cleanup m n R = Ok R' /\ shape m n R' /\
             forall i j, i < m -> j < n ->
                         get R' i j = if j <? i then zero else get R i j.
Proof.
  intros HR. unfold QR.cleanup.
  pose (Inv := fun (F : nat -> nat -> num) (C : Matrix) =>
          shape m n C /\ forall i j, i < m -> j < n -> get C i j = F i j).
  destruct (for_range_ind
    (fun k => Inv (fun i j => if (j <? i) && (i <? k) then zero else get R i j))
    (fun i R => for_range 0 (Nat.min i n) (fun j R => mset R i j zero) R)
    0 m R) as (R' & HR' & Hs' & Hg').
  - lia.
  - split; [exact HR |]. intros i j _ _. nat_cases.
  - intros k R0 Hk [Hs0 Hg0].
    destruct (for_range_ind
      (fun l => Inv (fun i j =>
         if (j <? i) && ((i <? k) || ((i =? k) && (j <? l)))
         then zero else get R i j))
      (fun j R => mset R k j zero) 0 (Nat.min k n) R0)
      as (R1 & HR1 & Hs1 & Hg1).
    + lia.
    + split; [exact Hs0 |]. intros i j Hi Hj. rewrite Hg0 by lia. nat_cases.
    + intros l R1 Hl [Hs1 Hg1]. rewrite (mset_ok k l _ Hs1) by lia.
      eexists. split; [reflexivity |].
      split; [apply shape_upd; [exact Hs1 | lia | lia] |].
      intros i j Hi Hj. rewrite (get_upd k l _ i j Hs1) by lia.
      rewrite Hg1 by lia. nat_cases.
    + exists R1. split; [exact HR1 |]. split; [exact Hs1 |].
      intros i j Hi Hj. rewrite Hg1 by lia. nat_cases.
  - exists R'. split; [exact HR' |]. split; [exact Hs' |].
    intros i j Hi Hj. rewrite Hg' by lia. nat_cases.
Qed.

Lemma reflect_columns_shape {m n} (v : Vector) start lo hi {A : Matrix} :
  shape m n A -> start + length v <= m -> hi <= n ->
  exists A', QR.reflect_columns v start lo hi A = Ok A' /\ shape m n A'.
Proof.
  intros HA Hv Hhi. unfold QR.reflect_columns.
  apply for_range_pres; [exact HA |].
  intros j A0 Hj HA0.
  destruct (for_range_pres (fun _ : num => True)
    (fun k proj =>
       vk <- vget v k ;;
       a <- mget A0 (start + k) j ;;
       Ok (add proj (mul vk a))) 0 (length v) zero I) as (proj & Hproj & _).
  { intros k t Hk _. rewrite vget_ok by lia. simpl.
    rewrite (mget_ok (start + k) j HA0) by lia. simpl. eauto. }
  rewrite Hproj. simpl.
  apply for_range_pres; [exact HA0 |].
  intros k A1 Hk HA1.
  rewrite (mget_ok (start + k) j HA1) by lia. simpl.
  rewrite vget_ok by lia. simpl.
  rewrite (mset_ok (start + k) j _ HA1) by lia.
  eexists. split; [reflexivity |]. apply shape_upd; [exact HA1 | lia | lia].
Qed.

Lemma reflect_rows_shape {q m} (v : Vector) start {Q : Matrix} :
  shape q m Q -> start + length v <= m ->
  exists Q', QR.reflect_rows v start q Q = Ok Q' /\ shape q m Q'.
Proof.
  intros HQ Hv. unfold QR.reflect_rows.
  apply for_range_pres; [exact HQ |].
  intros j Q0 Hj HQ0.
  destruct (for_range_pres (fun _ : num => True)
    (fun k proj =>
       vk <- vget v k ;;
       a <- mget Q0 j (start + k) ;;
       Ok (add proj (mul vk a))) 0 (length v) zero I) as (proj & Hproj & _).
  { intros k t Hk _. rewrite vget_ok by lia. simpl.
    rewrite (mget_ok j (start + k) HQ0) by lia. simpl. eauto. }
  rewrite Hproj. simpl.
  apply for_range_pres; [exact HQ0 |].
  intros k Q1 Hk HQ1.
  rewrite (mget_ok j (start + k) HQ1) by lia. simpl.
  rewrite vget_ok by lia. simpl.
  rewrite (mset_ok j (start + k) _ HQ1) by lia.
  eexists. split; [reflexivity |]. apply shape_upd; [exact HQ1 | lia | lia].
Qed.

(** One reflection step never leaves its vectors and keeps both shapes. *)
Lemma householder_reflect_shape {m n q} {A Q : Matrix} start col :
  shape m n A -> shape q m Q -> start < m -> col < n ->
  exists A' Q', QR.householder_reflect A Q start col = Ok (A', Q') /\
                shape m n A' /\ shape q m Q'.
Proof.
  intros HA HQ Hstart Hcol. unfold QR.householder_reflect.
  rewrite (shape_length HA).
  destruct (for_range_pres (fun x : Vector => length x = m - start)
    (fun i x => a <- mget A i col ;; vset x (i - start) a)
    start m (vzeros (m - start))) as (x & Hx & Hlen).
  { apply repeat_length. }
  { intros i x Hi Hlen. rewrite (mget_ok i col HA) by lia. simpl.
    rewrite vset_ok by lia. eexists. split; [reflexivity |].
    rewrite set_nth_length; lia. }
  rewrite Hx. cbn [bind].
  destruct (eqb (sqrt (sum_squares x)) zero); [now exists A, Q |].
  rewrite vget_ok by lia. cbn [bind].
  rewrite vset_ok by lia. cbn [bind].
  match goal with
  | |- context [eqb (sqrt (sum_squares ?w)) zero] => set (v := w)
  end.
  assert (Hv : length v = m - start)
    by (unfold v; rewrite set_nth_length; lia).
  destruct (eqb (sqrt (sum_squares v)) zero); [now exists A, Q |].
  rewrite (cols0_ok HA) by lia. cbn [bind].
  set (u := map (fun t => div t (sqrt (sum_squares v))) v).
  assert (Hu : length u = m - start) by (unfold u; now rewrite length_map).
  destruct (reflect_columns_shape u start col n HA) as (A' & HA' & HsA');
    [lia | lia |].
  rewrite HA'. cbn [bind]. rewrite (shape_length HQ).
  destruct (reflect_rows_shape u start HQ) as (Q' & HQ' & HsQ'); [lia |].
  rewrite HQ'. cbn [bind]. now exists A', Q'.
Qed.

(** [qr_decompose] returns on every matrix with at least one row, with
    [Q] of size [m x m], [R] of size [m x n], and [R] zero below the
    diagonal. *)
Lemma qr_decompose_spec {m n} {A : Matrix} :
  shape m n A -> 0 < m ->
  exists Q R, QR.qr_decompose A = Ok (Q, R) /\
              shape m m Q /\ shape m n R /\
              forall i j, i < m -> j < n -> j < i -> get R i j = zero.
Proof.
  intros HA Hm. unfold QR.qr_decompose.
  rewrite (cols0_ok HA Hm). simpl. rewrite (shape_length HA).
  destruct (identity_spec m) as (I & HI & HsI & _). rewrite HI. simpl.
  destruct (for_range_pres
    (fun s : Matrix * Matrix => shape m n (fst s) /\ shape m m (snd s))
    (fun col '(R, Q) => QR.householder_reflect R Q col col)
    0 (if m <? n then m else n) (A, I)) as ([R Q] & Hloop & HsR & HsQ).
  { now split. }
  { intros col [R Q] Hcol [HsR HsQ]. simpl in HsR, HsQ.
    destruct (householder_reflect_shape col col HsR HsQ)
      as (R' & Q' & H' & HsR' & HsQ').
    - destruct (m <? n) eqn:E; [lia |]. apply Nat.ltb_ge in E. lia.
    - destruct (m <? n) eqn:E; [apply Nat.ltb_lt in E; lia | lia].
    - exists (R', Q'). split; [exact H' | split; assumption]. }
  rewrite Hloop. simpl. simpl in HsR, HsQ.
  destruct (cleanup_spec HsR) as (R' & HR' & HsR' & HgR').
  rewrite HR'. simpl.
  destruct (transpose_spec HsQ Hm) as (Qt & HQt & HsQt & _).
  rewrite HQt. simpl.
  exists Qt, R'. repeat split; try assumption; try apply HsQt; try apply HsR'.
  intros i j Hi Hj Hji. rewrite HgR' by lia.
  now apply Nat.ltb_lt in Hji as ->.
Qed.

Lemma qr_decompose_unfold (A : Matrix) :
  QR.qr_decompose A =
  (n <- cols0 A ;;
   '(R, Q) <- before_cleanup A ;;
   R <- QR.cleanup (length A) n R ;;
   Q <- QR.transpose Q ;;
   Ok (Q, R)).
Proof.
  unfold QR.qr_decompose, before_cleanup.
  destruct (cols0 A) as [n|e]; [|reflexivity]. cbn [bind].
  destruct (QR.identity (length A)) as [I|e]; reflexivity.
Qed.

End QrFacts.

(** ** Least squares by back-substitution *)

Lemma for_loop_fold {St : Type} (g : St -> nat -> St)
  (body : nat -> St -> result St) :
  forall count lo s,
    (forall k t, lo <= k < lo + count -> body k t = Ok (g t k)) ->
    for_loop count lo body s = Ok (fold_left g (seq lo count) s).
Proof.
  induction count as [|c IH]; intros lo s Hb; simpl; [reflexivity |].
  rewrite Hb by lia. simpl. apply IH. intros k t Hk. apply Hb. lia.
Qed.

(** A loop whose body only accumulates is a left fold over its indices. *)
Lemma for_range_fold {St : Type} (g : St -> nat -> St)
  (body : nat -> St -> result St) lo hi s :
  (forall k t, lo <= k < hi -> body k t = Ok (g t k)) ->
  for_range lo hi body s = Ok (fold_left g (seq lo (hi - lo)) s).
Proof.
  intros Hb. unfold for_range. apply for_loop_fold.
  intros k t Hk. apply Hb. lia.
Qed.

Lemma fold_left_ext_in {A B : Type} (f g : A -> B -> A) (l : list B) :
  (forall a x, In x l -> f a x = g a x) ->
  forall a, fold_left f l a = fold_left g l a.
Proof.
  induction l as [|x l IH]; intros H a; simpl; [reflexivity |].
  rewrite H by (now left). apply IH. intros a' y Hy. apply H. now right.
Qed.

(** A downward loop whose failures depend on the index alone: it fails with
    [e] when some index is bad, and otherwise carries the invariant from
    [n] down to [0]. *)
Lemma for_down_cases {St : Type} (bad : nat -> bool) (P : nat -> St -> Prop)
  (body : nat -> St -> result St) (e : error) :
  forall n s,
    P n s ->
    (forall i t, i < n -> P (S i) t ->
       if bad i then body i t = Err e
       else exists t', body i t = Ok t' /\ P i t') ->
    if existsb bad (seq 0 n) then for_down n body s = Err e
    else exists s', for_down n body s = Ok s' /\ P 0 s'.
Proof.
  induction n as [|n IH]; intros s Hs Hstep.
  - now exists s.
  - cbn [for_down]. rewrite seq_S, existsb_app. cbn [existsb Nat.add].
    rewrite orb_false_r.
    specialize (Hstep n s (Nat.lt_succ_diag_r n) Hs) as Hn.
    destruct (bad n).
    + rewrite orb_true_r, Hn. reflexivity.
    + rewrite orb_false_r. destruct Hn as (t & Hb & Ht). rewrite Hb.
      cbn [bind].
      apply IH; [exact Ht |]. intros i u Hi. apply Hstep. lia.
Qed.

Section SolveFacts.
Context {K : Scalar}.

Lemma singular_diagonal_true n R :
  singular_diagonal n R = true <->
  exists i, i < n /\ ltb (fabs (get R i i)) tiny = true.
Proof.
  unfold singular_diagonal. rewrite existsb_exists. split.
  - intros (i & Hi & Hb). apply in_seq in Hi. exists i. split; [lia | exact Hb].
  - intros (i & Hi & Hb). exists i. split; [apply in_seq; lia | exact Hb].
Qed.

Lemma back_sum_ext n R x x' i :
  (forall j, i < j < n -> nth j x zero = nth j x' zero) ->
  back_sum n R x i = back_sum n R x' i.
Proof.
  intros H. unfold back_sum. apply fold_left_ext_in.
  intros a j Hj. apply in_seq in Hj. rewrite H by lia. reflexivity.
Qed.

Lemma qt_b_loop m (Q : Matrix) (b : Vector) :
  shape m m Q -> length b = m ->
  exists y,
    for_range 0 m (fun i y =>
      for_range 0 m (fun j y =>
        yi <- vget y i ;;
        q <- mget Q j i ;;
        bj <- vget b j ;;
        vset y i (add yi (mul q bj))) y) (vzeros m) = Ok y /\
    length y = m /\ forall i, i < m -> nth i y zero = qt_b m Q b i.
Proof.
  intros HQ Hb.
  pose (Inv := fun (F : nat -> num) (y : Vector) =>
          length y = m /\ forall i, i < m -> nth i y zero = F i).
  destruct (for_range_ind
    (fun i => Inv (fun k => if k <? i then qt_b m Q b k else zero))
    (fun i y => for_range 0 m (fun j y =>
        yi <- vget y i ;;
        q <- mget Q j i ;;
        bj <- vget b j ;;
        vset y i (add yi (mul q bj))) y)
    0 m (vzeros m)) as (y & Hy & Hlen & Hnth).
  - lia.
  - split; [apply repeat_length |]. intros i _. now rewrite nth_vzeros.
  - intros i y0 Hi [Hl0 Hn0].
    destruct (for_range_ind
      (fun j => Inv (fun k =>
         if k =? i
         then dot_sum j (fun j => get Q j i) (fun j => nth j b zero)
         else if k <? i then qt_b m Q b k else zero))
      (fun j y =>
        yi <- vget y i ;;
        q <- mget Q j i ;;
        bj <- vget b j ;;
        vset y i (add yi (mul q bj)))
      0 m y0) as (y1 & Hy1 & Hl1 & Hn1).
    + lia.
    + split; [exact Hl0 |]. intros k Hk. rewrite Hn0 by lia. nat_cases.
    + intros j y1 Hj [Hl1 Hn1].
      rewrite vget_ok by lia. simpl.
      rewrite (mget_ok j i HQ) by lia. simpl.
      rewrite vget_ok by lia. simpl.
      rewrite vset_ok by lia.
      eexists. split; [reflexivity |].
      split; [rewrite set_nth_length; lia |].
      intros k Hk. rewrite nth_set_nth by lia. rewrite !Hn1 by lia.
      nat_cases; now rewrite dot_sum_S.
    + exists y1. split; [exact Hy1 |]. split; [exact Hl1 |].
      intros k Hk. rewrite Hn1 by lia. unfold qt_b. nat_cases.
  - exists y. split; [exact Hy |]. split; [exact Hlen |].
    intros i Hi. rewrite Hnth by lia. nat_cases.
Qed.

Lemma back_substitution_loop m n (R : Matrix) (y : Vector) :
  shape m n R -> length y = m -> n <= m ->
  let loop :=
    for_down n (fun i x =>
      sum <- for_range (i + 1) n (fun j sum =>
               r <- mget R i j ;;
               xj <- vget x j ;;
               Ok (add sum (mul r xj))) zero ;;
      yi <- vget y i ;;
      let val := sub yi sum in
      diag <- mget R i i ;;
      if ltb (fabs diag) tiny then Err SingularSystem else
      vset x i (div val diag)) (vzeros n) in
  if singular_diagonal n R then loop = Err SingularSystem
  else exists x, loop = Ok x /\
                 back_substituted n R (fun i => nth i y zero) x.
Proof.
  intros HR Hy Hn loop. unfold loop, singular_diagonal.
  pose (P := fun (i : nat) (x : Vector) =>
          length x = n /\
          forall k, i <= k < n ->
            nth k x zero =
            div (sub (nth k y zero) (back_sum n R x k)) (get R k k)).
  assert (H := for_down_cases
    (fun i => ltb (fabs (get R i i)) tiny) P
    (fun i x =>
      sum <- for_range (i + 1) n (fun j sum =>
               r <- mget R i j ;;
               xj <- vget x j ;;
               Ok (add sum (mul r xj))) zero ;;
      yi <- vget y i ;;
      let val := sub yi sum in
      diag <- mget R i i ;;
      if ltb (fabs diag) tiny then Err SingularSystem else
      vset x i (div val diag)) SingularSystem n (vzeros n)).
  cbv beta in H.
  match type of H with
  | ?A -> ?B -> ?C => assert (HA : A); [| assert (HB : B)]
  end.
  - split; [apply repeat_length | intros; lia].
  - intros i x Hi [Hlen Hx].
    rewrite (for_range_fold
      (fun sum j => add sum (mul (get R i j) (nth j x zero)))).
    2:{ intros j t Hj. rewrite (mget_ok i j HR) by lia. simpl.
        rewrite vget_ok by lia. reflexivity. }
    cbn [bind]. rewrite vget_ok by lia. cbn [bind].
    rewrite (mget_ok i i HR) by lia. cbn [bind].
    destruct (ltb (fabs (get R i i)) tiny); [reflexivity |].
    rewrite vset_ok by lia. eexists. split; [reflexivity |].
    split; [rewrite set_nth_length; lia |].
    intros k Hk. rewrite nth_set_nth by lia.
    rewrite (back_sum_ext n R (set_nth x i _) x k).
    2:{ intros j Hj. rewrite nth_set_nth by lia. nat_cases. }
    destruct (Nat.eqb_spec k i) as [->|Hne]; [reflexivity |].
    apply Hx. lia.
  - specialize (H HA HB).
    destruct (existsb _ (seq 0 n)); [exact H |].
    destruct H as (x & Hx & Hlen & Hrec). exists x. split; [exact Hx |].
    split; [exact Hlen |]. intros i Hi. apply Hrec. lia.
Qed.

End SolveFacts.

(** ** Gauss-Jordan inversion: what each loop computes *)

Section GaussJordanFacts.
Context {K : Scalar}.

Lemma augment_spec {n} {A : Matrix} :
  shape n n A ->
  exists aug, Pinv.augment A n = Ok aug /\ shape n (2 * n) aug /\
              forall i j, i < n -> j < 2 * n ->
                          get aug i j = aug_entry n A i j.
Proof.
  intros HA. unfold Pinv.augment.
  pose (Inv := fun (F : nat -> nat -> num) (C : Matrix) =>
          shape n (2 * n) C /\
          forall i j, i < n -> j < 2 * n -> get C i j = F i j).
  pose (Fo := fun i i' j => if i' <? i then aug_entry n A i' j else zero).
  destruct (for_range_ind (fun i => Inv (Fo i))
    (fun i aug =>
      aug <- for_range 0 n (fun j aug =>
               a <- mget A i j ;;
               mset aug i j a) aug ;;
      for_range 0 n (fun j aug =>
        mset aug i (n + j) (if i =? j then one else zero)) aug)
    0 n (mzeros n (2 * n))) as (aug & Haug & Hs & Hg).
  - lia.
  - split; [apply shape_mzeros |]. intros i j _ _. now rewrite get_mzeros.
  - intros i C0 Hi [Hs0 Hg0].
    destruct (for_range_ind
      (fun j => Inv (fun i' j' =>
         if i' =? i then (if j' <? j then get A i j' else zero)
         else Fo i i' j'))
      (fun j aug => a <- mget A i j ;; mset aug i j a)
      0 n C0) as (C1 & HC1 & Hs1 & Hg1).
    + lia.
    + split; [exact Hs0 |]. intros i' j' Hi' Hj'. rewrite Hg0 by lia.
      unfold Fo. nat_cases.
    + intros j C1 Hj [Hs1 Hg1].
      rewrite (mget_ok i j HA) by lia. simpl.
      rewrite (mset_ok i j _ Hs1) by lia.
      eexists. split; [reflexivity |].
      split; [apply shape_upd; [exact Hs1 | lia | lia] |].
      intros i' j' Hi' Hj'. rewrite (get_upd i j _ i' j' Hs1) by lia.
      rewrite Hg1 by lia. nat_cases.
    + rewrite HC1. cbn [bind].
      destruct (for_range_ind
        (fun j => Inv (fun i' j' =>
           if i' =? i
           then (if j' <? n then get A i j'
                 else if j' - n <? j
                      then (if i =? j' - n then one else zero)
                      else zero)
           else Fo i i' j'))
        (fun j aug => mset aug i (n + j) (if i =? j then one else zero))
        0 n C1) as (C2 & HC2 & Hs2 & Hg2).
      * lia.
      * split; [exact Hs1 |]. intros i' j' Hi' Hj'. rewrite Hg1 by lia.
        nat_cases.
      * intros j C2 Hj [Hs2 Hg2].
        rewrite (mset_ok i (n + j) _ Hs2) by lia.
        eexists. split; [reflexivity |].
        split; [apply shape_upd; [exact Hs2 | lia | lia] |].
        intros i' j' Hi' Hj'. rewrite (get_upd i (n + j) _ i' j' Hs2) by lia.
        rewrite Hg2 by lia. nat_cases.
      * exists C2. split; [exact HC2 |]. split; [exact Hs2 |].
        intros i' j' Hi' Hj'. rewrite Hg2 by lia.
        unfold Fo, aug_entry. nat_cases.
  - exists aug. split; [exact Haug |]. split; [exact Hs |].
    intros i j Hi Hj. rewrite Hg by lia. unfold Fo. nat_cases.
Qed.

Lemma extract_spec {n} {aug : Matrix} :
  shape n (2 * n) aug ->
  exists inv, Pinv.extract aug n = Ok inv /\ shape n n inv /\
              forall i j, i < n -> j < n -> get inv i j = get aug i (n + j).
Proof.
  intros Ha. unfold Pinv.extract.
  pose (Inv := fun (F : nat -> nat -> num) (C : Matrix) =>
          shape n n C /\ forall i j, i < n -> j < n -> get C i j = F i j).
  destruct (for_range_ind
    (fun i => Inv (fun i' j => if i' <? i then get aug i' (n + j) else zero))
    (fun i inv => for_range 0 n (fun j inv =>
        a <- mget aug i (n + j) ;; mset inv i j a) inv)
    0 n (mzeros n n)) as (inv & Hinv & Hs & Hg).
  - lia.
  - split; [apply shape_mzeros |]. intros i j _ _. now rewrite get_mzeros.
  - intros i C0 Hi [Hs0 Hg0].
    destruct (for_range_ind
      (fun j => Inv (fun i' j' =>
         if (i' <? i) || ((i' =? i) && (j' <? j))
         then get aug i' (n + j') else zero))
      (fun j inv => a <- mget aug i (n + j) ;; mset inv i j a)
      0 n C0) as (C1 & HC1 & Hs1 & Hg1).
    + lia.
    + split; [exact Hs0 |]. intros i' j' Hi' Hj'. rewrite Hg0 by lia.
      nat_cases.
    + intros j C1 Hj [Hs1 Hg1].
      rewrite (mget_ok i (n + j) Ha) by lia. simpl.
      rewrite (mset_ok i j _ Hs1) by lia.
      eexists. split; [reflexivity |].
      split; [apply shape_upd; [exact Hs1 | lia | lia] |].
      intros i' j' Hi' Hj'. rewrite (get_upd i j _ i' j' Hs1) by lia.
      rewrite Hg1 by lia. nat_cases.
    + exists C1. split; [exact HC1 |]. split; [exact Hs1 |].
      intros i' j' Hi' Hj'. rewrite Hg1 by lia. nat_cases.
  - exists inv. split; [exact Hinv |]. split; [exact Hs |].
    intros i j Hi Hj. rewrite Hg by lia. nat_cases.
Qed.

(** [select_pivot] stays inside the rows [i .. n-1]. *)
Lemma select_pivot_range {n c} {aug : Matrix} i :
  shape n c aug -> i < n -> i < c ->
  exists p, Pinv.select_pivot aug n i = Ok p /\ i <= p < n.
Proof.
  intros Ha Hi Hc. unfold Pinv.select_pivot.
  apply for_range_pres; [lia |].
  intros r p Hr Hp.
  rewrite (mget_ok r i Ha), (mget_ok p i Ha) by lia. simpl.
  destruct (gtb _ _); eexists; (split; [reflexivity | lia]).
Qed.

Lemma swap_rows_spec {n c} {A : Matrix} p i :
  shape n c A -> p < n -> i < n ->
  exists A', swap_rows A p i = Ok A' /\ shape n c A' /\
             forall r j, r < n -> get A' r j = get A (swapped p i r) j.
Proof.
  intros HA Hp Hi. unfold swap_rows.
  rewrite !row_ok by (rewrite (shape_length HA); lia). cbn [bind].
  eexists. split; [reflexivity |].
  assert (Hs1 : shape n c (set_nth A p (nth i A [])))
    by (apply shape_set_row; [exact HA | exact Hp | exact (shape_row HA Hi)]).
  split.
  - apply shape_set_row; [exact Hs1 | exact Hi | exact (shape_row HA Hp)].
  - intros r j Hr. rewrite (get_set_row i _ r j Hs1 Hi).
    unfold swapped. destruct (Nat.eqb_spec r i) as [->|Hne]; [reflexivity |].
    rewrite (get_set_row p _ r j HA Hp).
    now destruct (r =? p).
Qed.

Lemma swapped_lt p i r n : p < n -> i < n -> r < n -> swapped p i r < n.
Proof. intros. unfold swapped. nat_cases. Qed.

Lemma normalize_loop {n} {aug : Matrix} i (diag : num) :
  shape n (2 * n) aug -> i < n ->
  exists aug',
    for_range 0 (2 * n) (fun j aug =>
      a <- mget aug i j ;; mset aug i j (div a diag)) aug = Ok aug' /\
    shape n (2 * n) aug' /\
    forall r j, r < n -> j < 2 * n ->
      get aug' r j = if r =? i then div (get aug i j) diag else get aug r j.
Proof.
  intros Ha Hi.
  destruct (for_range_ind
    (fun l C => shape n (2 * n) C /\
       forall r j, r < n -> j < 2 * n ->
         get C r j = if (r =? i) && (j <? l) then div (get aug i j) diag
                     else get aug r j)
    (fun j aug => a <- mget aug i j ;; mset aug i j (div a diag))
    0 (2 * n) aug) as (C & HC & Hs & Hg).
  - lia.
  - split; [exact Ha |]. intros r j _ _. nat_cases.
  - intros l C Hl [Hs Hg].
    rewrite (mget_ok i l Hs) by lia. simpl.
    rewrite (mset_ok i l _ Hs) by lia.
    eexists. split; [reflexivity |].
    split; [apply shape_upd; [exact Hs | lia | lia] |].
    intros r j Hr Hj. rewrite (get_upd i l _ r j Hs) by lia.
    rewrite !Hg by lia. nat_cases.
  - exists C. split; [exact HC |]. split; [exact Hs |].
    intros r j Hr Hj. rewrite Hg by lia. nat_cases.
Qed.

Lemma reduce_loop {n} {aug : Matrix} i :
  shape n (2 * n) aug -> i < n ->
  exists aug',
    for_range 0 n (fun r aug =>
      if r =? i then Ok aug else
      factor <- mget aug r i ;;
      if negb (eqb factor zero) then
        for_range 0 (2 * n) (fun j aug =>
          a <- mget aug r j ;;
          b <- mget aug i j ;;
          mset aug r j (sub a (mul factor b))) aug
      else Ok aug) aug = Ok aug' /\
    shape n (2 * n) aug' /\
    forall r j, r < n -> j < 2 * n -> get aug' r j = reduced aug i r j.
Proof.
  intros Ha Hi.
  pose (Inv := fun (F : nat -> nat -> num) (C : Matrix) =>
          shape n (2 * n) C /\
          forall r j, r < n -> j < 2 * n -> get C r j = F r j).
  destruct (for_range_ind
    (fun l => Inv (fun r j => if r <? l then reduced aug i r j
                              else get aug r j))
    (fun r aug =>
      if r =? i then Ok aug else
      factor <- mget aug r i ;;
      if negb (eqb factor zero) then
        for_range 0 (2 * n) (fun j aug =>
          a <- mget aug r j ;;
          b <- mget aug i j ;;
          mset aug r j (sub a (mul factor b))) aug
      else Ok aug)
    0 n aug) as (C & HC & Hs & Hg).
  - lia.
  - split; [exact Ha |]. intros r j _ _. nat_cases.
  - intros l C Hl [Hs Hg].
    destruct (Nat.eqb_spec l i) as [->|Hli].
    { exists C. split; [reflexivity |]. split; [exact Hs |].
      intros r j Hr Hj. rewrite Hg by lia. unfold reduced. nat_cases. }
    rewrite (mget_ok l i Hs) by lia. cbn [bind].
    assert (Hf : get C l i = get aug l i) by (rewrite Hg by lia; nat_cases).
    rewrite Hf.
    destruct (negb (eqb (get aug l i) zero)) eqn:Hskip.
    + destruct (for_range_ind
        (fun k => Inv (fun r j =>
           if (r =? l) && (j <? k)
           then sub (get aug l j) (mul (get aug l i) (get aug i j))
           else if r <? l then reduced aug i r j else get aug r j))
        (fun j M =>
          a <- mget M l j ;;
          b <- mget M i j ;;
          mset M l j (sub a (mul (get aug l i) b)))
        0 (2 * n) C) as (C1 & HC1 & Hs1 & Hg1).
      * lia.
      * split; [exact Hs |]. intros r j Hr Hj. rewrite Hg by lia. nat_cases.
      * intros k C1 Hk [Hs1 Hg1].
        rewrite (mget_ok l k Hs1), (mget_ok i k Hs1) by lia. cbn [bind].
        rewrite (mset_ok l k _ Hs1) by lia.
        eexists. split; [reflexivity |].
        split; [apply shape_upd; [exact Hs1 | lia | lia] |].
        intros r j Hr Hj. rewrite (get_upd l k _ r j Hs1) by lia.
        rewrite !Hg1 by lia. unfold reduced. nat_cases.
      * exists C1. split; [exact HC1 |]. split; [exact Hs1 |].
        intros r j Hr Hj. rewrite Hg1 by lia. unfold reduced.
        nat_cases; try (replace r with l by lia); rewrite ?Hskip; reflexivity.
    + exists C. split; [reflexivity |]. split; [exact Hs |].
      intros r j Hr Hj. rewrite Hg by lia. unfold reduced.
      nat_cases; try (replace r with l by lia); rewrite ?Hskip; reflexivity.
  - exists C. split; [exact HC |]. split; [exact Hs |].
    intros r j Hr Hj. rewrite Hg by lia. nat_cases.
Qed.

Lemma eliminate_column_spec {n} {aug : Matrix} i :
  shape n (2 * n) aug -> i < n ->
  exists p, Pinv.select_pivot aug n i = Ok p /\ i <= p < n /\
    if ltb (fabs (get aug p i)) tiny
    then Pinv.eliminate_column n i aug = Err SingularMatrix
    else exists aug',
      Pinv.eliminate_column n i aug = Ok aug' /\ shape n (2 * n) aug' /\
      forall r j, r < n -> j < 2 * n ->
                  get aug' r j = eliminated aug p i r j.
Proof.
  intros Ha Hi.
  destruct (select_pivot_range i Ha Hi) as (p & Hp & Hrange); [lia |].
  exists p. split; [exact Hp |]. split; [exact Hrange |].
  unfold Pinv.eliminate_column. rewrite Hp. cbn [bind].
  rewrite (mget_ok p i Ha) by lia. cbn [bind].
  destruct (ltb (fabs (get aug p i)) tiny); [reflexivity |].
  assert (Hsw : exists A1,
    (if negb (p =? i) then swap_rows aug p i else Ok aug) = Ok A1 /\
    shape n (2 * n) A1 /\
    forall r j, r < n -> get A1 r j = get aug (swapped p i r) j).
  { destruct (Nat.eqb_spec p i) as [->|Hne]; cbn [negb].
    - exists aug. split; [reflexivity |]. split; [exact Ha |].
      intros r j _. unfold swapped. nat_cases.
    - apply swap_rows_spec; [exact Ha | lia | lia]. }
  destruct Hsw as (A1 & HA1 & Hs1 & Hg1). rewrite HA1. cbn [bind].
  rewrite (mget_ok i i Hs1) by lia. cbn [bind].
  destruct (normalize_loop i (get A1 i i) Hs1 Hi) as (A2 & HA2 & Hs2 & Hg2).
  rewrite HA2. cbn [bind].
  destruct (reduce_loop i Hs2 Hi) as (A3 & HA3 & Hs3 & Hg3).
  exists A3. split; [exact HA3 |]. split; [exact Hs3 |].
  intros r j Hr Hj. rewrite Hg3 by lia. unfold reduced, eliminated.
  rewrite !Hg2 by lia. rewrite !Hg1 by lia.
  rewrite Nat.eqb_refl.
  replace (swapped p i i) with p by (unfold swapped; now rewrite Nat.eqb_refl).
  destruct (Nat.eqb_spec r i) as [->|Hne]; [reflexivity |].
  reflexivity.
Qed.

Lemma gj_run_S n A i :
  gj_run n A (S i) = (aug <- gj_run n A i ;; Pinv.eliminate_column n i aug).
Proof.
  unfold gj_run, for_range. rewrite !Nat.sub_0_r.
  destruct (Pinv.augment A n) as [aug|e]; [|reflexivity]. cbn [bind].
  replace (S i) with (i + 1) by lia. rewrite for_loop_app.
  destruct (for_loop i 0 (Pinv.eliminate_column n) aug) as [t|e];
    [|reflexivity].
  cbn [bind for_loop Nat.add].
  now destruct (Pinv.eliminate_column n i t).
Qed.

Lemma inverse_unfold {n} {A : Matrix} :
  shape n n A -> 0 < n ->
  Pinv.inverse A = (aug <- gj_run n A n ;; Pinv.extract aug n).
Proof.
  intros HA Hn. unfold Pinv.inverse, gj_run.
  destruct A as [|r0 A']; [destruct HA as [H _]; simpl in H; lia |].
  assert (Hr0 : length r0 = n) by exact (shape_row (i := 0) HA Hn).
  rewrite (shape_length HA), Hr0, Nat.eqb_refl. cbn [negb].
  now destruct (Pinv.augment (r0 :: A') n).
Qed.

Lemma gj_run_shape {n} {A : Matrix} i aug :
  shape n n A -> i <= n -> gj_run n A i = Ok aug -> shape n (2 * n) aug.
Proof.
  intros HA. revert aug. induction i as [|i IH]; intros aug Hi H.
  - unfold gj_run in H. destruct (augment_spec HA) as (a0 & Ha0 & Hs0 & _).
    rewrite Ha0 in H. cbn in H. now injection H as <-.
  - rewrite gj_run_S in H. apply bind_ok_inv in H.
    destruct H as (t & Ht & Hstep).
    assert (Hst : shape n (2 * n) t) by (apply IH; [lia | exact Ht]).
    destruct (eliminate_column_spec i Hst) as (p & _ & _ & Hcase); [lia |].
    destruct (ltb (fabs (get t p i)) tiny); [congruence |].
    destruct Hcase as (aug' & Haug' & Hs' & _). congruence.
Qed.

(** The elimination fails before column [k] exactly when one of the steps
    on the columns [0 .. k-1] fails after the earlier ones succeeded. *)
Lemma gj_run_err {n} {A : Matrix} k e :
  shape n n A -> k <= n ->
  (gj_run n A k = Err e <->
   exists i aug, i < k /\ gj_run n A i = Ok aug /\
                 Pinv.eliminate_column n i aug = Err e).
Proof.
  intros HA. induction k as [|k IH]; intros Hk.
  - split.
    + unfold gj_run. destruct (augment_spec HA) as (a0 & Ha0 & _).
      rewrite Ha0. cbn. discriminate.
    + intros (i & _ & Hi & _). lia.
  - rewrite gj_run_S. split.
    + intros H. apply bind_err_inv in H. destruct H as [H|(t & Ht & Hstep)].
      * apply IH in H; [|lia]. destruct H as (i & aug & Hi & Hrun & Herr).
        exists i, aug. split; [lia | now split].
      * exists k, t. split; [lia | now split].
    + intros (i & aug & Hi & Hrun & Herr).
      destruct (Nat.eq_dec i k) as [->|Hne].
      * rewrite Hrun. exact Herr.
      * assert (H : gj_run n A k = Err e)
          by (apply IH; [lia |]; exists i, aug; split; [lia | now split]).
        now rewrite H.
Qed.

(** On a square matrix nothing but a small pivot stops the inversion. *)
Lemma inverse_square_cases {n} {A : Matrix} :
  shape n n A -> 0 < n ->
  (exists B, Pinv.inverse A = Ok B /\ shape n n B /\
     exists aug, gj_run n A n = Ok aug /\
                 forall i j, i < n -> j < n -> get B i j = get aug i (n + j)) \/
  (Pinv.inverse A = Err SingularMatrix /\
   exists i aug p, i < n /\ gj_run n A i = Ok aug /\
     Pinv.select_pivot aug n i = Ok p /\ i <= p < n /\
     ltb (fabs (get aug p i)) tiny = true).
Proof.
  intros HA Hn. rewrite (inverse_unfold HA Hn).
  destruct (gj_run n A n) as [aug|e] eqn:Hrun.
  - left. cbn [bind].
    destruct (extract_spec (gj_run_shape n aug HA (le_n n) Hrun))
      as (B & HB & HsB & HgB).
    exists B. split; [exact HB |]. split; [exact HsB |]. now exists aug.
  - right. cbn [bind].
    apply (gj_run_err n e HA (le_n n)) in Hrun.
    destruct Hrun as (i & aug & Hi & Hrun & Herr).
    pose proof (gj_run_shape i aug HA (Nat.lt_le_incl _ _ Hi) Hrun) as Hs.
    destruct (eliminate_column_spec i Hs Hi)
      as (p & Hp & Hrange & Hcase).
    destruct (ltb (fabs (get aug p i)) tiny) eqn:Hbad.
    + rewrite Hcase in Herr. injection Herr as <-.
      split; [reflexivity |]. exists i, aug, p. now repeat split.
    + destruct Hcase as (aug' & Haug' & _). congruence.
Qed.

Lemma inverse_nonsquare {m n} {A : Matrix} :
  shape m n A -> m <> n -> Pinv.inverse A = Err NonSquareMatrix.
Proof.
  intros HA Hmn. unfold Pinv.inverse.
  destruct A as [|r0 A']; [reflexivity |].
  assert (Hm : 0 < m) by (destruct HA as [H _]; simpl in H; lia).
  assert (Hr0 : length r0 = n) by exact (shape_row (i := 0) HA Hm).
  rewrite (shape_length HA), Hr0.
  now destruct (Nat.eqb_spec n m) as [->|_].
Qed.

End GaussJordanFacts.

(** ** The order on scalars *)

Lemma SFltb_irrefl x : SFltb x x = false.
Proof.
  unfold SFltb, SFcompare.
  destruct x as [s|s| |s m e]; try destruct s; try reflexivity;
    rewrite Z.compare_refl;
    change (PosDef.Pos.compare_cont Eq m m) with (Pos.compare m m);
    now rewrite Pos.compare_refl.
Qed.

Lemma SFltb_trans x y z :
  SFltb x y = true -> SFltb y z = true -> SFltb x z = true.
Proof.
  unfold SFltb, SFcompare.
  destruct x as [sx|sx| |sx mx ex], y as [sy|sy| |sy my ey],
           z as [sz|sz| |sz mz ez];
    try destruct sx; try destruct sy; try destruct sz;
    try discriminate; try reflexivity; try (intros; assumption);
    change PosDef.Pos.compare_cont with Pos.compare_cont;
    fold (Pos.compare mx my); fold (Pos.compare my mz);
    fold (Pos.compare mx mz);
    destruct (Z.compare_spec ex ey), (Z.compare_spec ey ez),
             (Z.compare_spec ex ez);
    try discriminate; try reflexivity; try lia;
    destruct (Pos.compare_spec mx my), (Pos.compare_spec my mz),
             (Pos.compare_spec mx mz);
    simpl; try discriminate; try reflexivity; try lia.
Qed.

#[export] Instance double_ordered : OrderedScalar double.
Proof.
  split; simpl.
  - intros x. rewrite ltb_spec. apply SFltb_irrefl.
  - intros x y z. rewrite !ltb_spec. apply SFltb_trans.
Qed.

Section PivotFacts.
Context {K : Scalar} {O : OrderedScalar K}.

(** No row of [i .. n-1] has an entry in column [i] of larger magnitude
    than the selected one. *)
Lemma select_pivot_max {n c} {aug : Matrix} i p :
  shape n c aug -> i < n -> i < c ->
  Pinv.select_pivot aug n i = Ok p ->
  forall r, i <= r < n ->
            gtb (fabs (get aug r i)) (fabs (get aug p i)) = false.
Proof.
  intros Ha Hi Hc Hp.
  destruct (for_range_ind
    (fun l q => i <= q < n /\
       forall r, i <= r < l ->
                 gtb (fabs (get aug r i)) (fabs (get aug q i)) = false)
    (fun r pivot =>
       x <- mget aug r i ;;
       y <- mget aug pivot i ;;
       if gtb (fabs x) (fabs y) then Ok r else Ok pivot)
    i n i) as (q & Hq & _ & Hmax).
  - lia.
  - split; [lia | intros; lia].
  - intros l q Hl [Hq Hmax].
    rewrite (mget_ok l i Ha), (mget_ok q i Ha) by lia. cbn [bind].
    destruct (gtb (fabs (get aug l i)) (fabs (get aug q i))) eqn:Hgt.
    + exists l. split; [reflexivity |]. split; [lia |].
      intros r Hr. destruct (Nat.eq_dec r l) as [->|Hne].
      * apply ltb_irrefl.
      * destruct (gtb (fabs (get aug r i)) (fabs (get aug l i))) eqn:Hrl;
          [|reflexivity].
        unfold gtb in *.
        rewrite <- (Hmax r) by lia. unfold gtb. symmetry.
        now apply (ltb_trans _ (fabs (get aug l i))).
    + exists q. split; [reflexivity |]. split; [lia |].
      intros r Hr. destruct (Nat.eq_dec r l) as [->|Hne]; [exact Hgt |].
      apply Hmax. lia.
  - unfold Pinv.select_pivot in Hp. rewrite Hq in Hp. injection Hp as <-.
    exact Hmax.
Qed.

End PivotFacts.

(** ** Pseudoinverse and condition number *)

Section PseudoinverseFacts.
Context {K : Scalar}.

Lemma pseudoinverse_nonempty {m n} {A : Matrix} :
  shape m n A -> 0 < m -> 0 < n ->
  Pinv.pseudoinverse A =
  (AT <- Pinv.transpose A ;;
   if n <=? m then
     ATA <- Pinv.multiply AT A ;;
     ATA_inv <- Pinv.inverse ATA ;;
     Pinv.multiply ATA_inv AT
   else
     AAT <- Pinv.multiply A AT ;;
     AAT_inv <- Pinv.inverse AAT ;;
     Pinv.multiply AT AAT_inv).
Proof.
  intros HA Hm Hn. unfold Pinv.pseudoinverse.
  destruct A as [|r0 A']; [destruct HA as [H _]; simpl in H; lia |].
  assert (Hr0 : length r0 = n) by exact (shape_row (i := 0) HA Hm).
  rewrite (shape_length HA), Hr0.
  destruct (Nat.eqb_spec m 0); [lia |]. destruct (Nat.eqb_spec n 0); [lia |].
  reflexivity.
Qed.

(** The outcome of [N^-1] followed by a product, for a square [N]: the
    inversion either succeeds and the product with it, or fails with
    SingularMatrix, which is then the outcome of the whole. *)
Lemma invert_then {n} {N : Matrix} (k : Matrix -> result Matrix) r c :
  shape n n N -> 0 < n ->
  (forall I, shape n n I -> exists P, k I = Ok P /\ shape r c P) ->
  (forall I, Pinv.inverse N = Ok I ->
             exists P, bind (Pinv.inverse N) k = Ok P /\ k I = Ok P /\
                       shape r c P) /\
  (forall e, bind (Pinv.inverse N) k = Err e <-> Pinv.inverse N = Err e) /\
  (forall e, Pinv.inverse N = Err e -> e = SingularMatrix).
Proof.
  intros HN Hn Hk.
  destruct (inverse_square_cases HN Hn) as [(B & HB & HsB & _)|(Herr & _)].
  - rewrite HB. cbn [bind]. destruct (Hk B HsB) as (P & HP & HsP).
    split; [|split].
    + intros I HI. injection HI as <-. now exists P.
    + intros e. rewrite HP. split; discriminate.
    + intros e. discriminate.
  - rewrite Herr. cbn [bind]. split; [|split].
    + intros I. discriminate.
    + intros e. tauto.
    + intros e H. congruence.
Qed.

End PseudoinverseFacts.

(** ** Exact arithmetic *)

#[export] Instance rational_exact : ExactField rational.
Proof.
  split; simpl.
  - exact Qcrt.
  - intros x y. unfold Qcdiv. now rewrite Qcmult_1_l.
  - intros y Hy. unfold Qcdiv. rewrite Qcmult_1_l. now apply Qcmult_inv_l.
  - intros x y. rewrite Qeq_bool_iff. split.
    + apply Qc_is_canon.
    + now intros ->.
  - reflexivity.
Qed.

Section Sums.
Context {K : Scalar} {E : ExactField K}.

Add Ring scalar_ring : exact_ring.

Lemma sum_to_S n f : sum_to (S n) f = add (sum_to n f) (f n).
Proof. unfold sum_to. now rewrite seq_S, fold_left_app. Qed.

Lemma sum_to_ext n f g :
  (forall k, k < n -> f k = g k) -> sum_to n f = sum_to n g.
Proof.
  induction n as [|n IH]; intros H; [reflexivity |].
  rewrite !sum_to_S, IH, H by (intros; try apply H; lia). reflexivity.
Qed.

Lemma sum_to_zero n : sum_to n (fun _ => zero) = zero.
Proof.
  induction n as [|n IH]; [reflexivity |]. rewrite sum_to_S, IH. ring.
Qed.

Lemma sum_to_add n f g :
  sum_to n (fun k => add (f k) (g k)) = add (sum_to n f) (sum_to n g).
Proof.
  induction n as [|n IH]; [simpl; unfold sum_to; simpl; ring |].
  rewrite !sum_to_S, IH. ring.
Qed.

Lemma sum_to_sub n f g :
  sum_to n (fun k => sub (f k) (g k)) = sub (sum_to n f) (sum_to n g).
Proof.
  induction n as [|n IH]; [unfold sum_to; simpl; ring |].
  rewrite !sum_to_S, IH. ring.
Qed.

Lemma sum_to_scale n c f :
  sum_to n (fun k => mul c (f k)) = mul c (sum_to n f).
Proof.
  induction n as [|n IH]; [unfold sum_to; simpl; ring |].
  rewrite !sum_to_S, IH. ring.
Qed.

(** Summing against a unit vector picks one term. *)
Lemma sum_to_unit n i f :
  i < n ->
  sum_to n (fun k => mul (if i =? k then one else zero) (f k)) = f i.
Proof.
  intros Hi. induction n as [|n IH]; [lia |].
  rewrite sum_to_S. destruct (Nat.eqb_spec i n) as [->|Hne].
  - rewrite (sum_to_ext n _ (fun _ => zero)).
    + rewrite sum_to_zero. ring.
    + intros k Hk. destruct (Nat.eqb_spec n k); [lia | ring].
  - rewrite IH by lia. ring.
Qed.

Lemma sum_to_unit_r n i f :
  i < n ->
  sum_to n (fun k => mul (f k) (if k =? i then one else zero)) = f i.
Proof.
  intros Hi. rewrite <- (sum_to_unit n i f Hi). apply sum_to_ext.
  intros k _. rewrite (Nat.eqb_sym k i). ring.
Qed.

(** Exchanging two finite sums. *)
Lemma sum_to_swap n m (f : nat -> nat -> num) :
  sum_to n (fun i => sum_to m (fun j => f i j)) =
  sum_to m (fun j => sum_to n (fun i => f i j)).
Proof.
  induction n as [|n IH].
  - cbn. now rewrite sum_to_zero.
  - rewrite sum_to_S, IH, <- sum_to_add. apply sum_to_ext.
    intros j _. now rewrite sum_to_S.
Qed.

(** Over a field the terms [multiply] leaves out are zero. *)
Lemma dot_skip_dot_sum n a b : dot_skip n a b = dot_sum n a b.
Proof.
  induction n as [|n IH]; [reflexivity |].
  rewrite dot_skip_S, dot_sum_S, IH.
  destruct (eqb (a n) zero) eqn:Hz; [|reflexivity].
  apply eqb_eq in Hz. cbn [negb]. rewrite Hz. ring.
Qed.

End Sums.

(** ** Gauss-Jordan over a field *)

Section GaussJordanExact.
Context {K : Scalar} {E : ExactField K}.

Add Ring scalar_ring_gj : exact_ring.

Lemma pivot_nonzero (d : num) : ltb (fabs d) tiny = false -> d <> zero.
Proof.
  intros H Hd. subst d. rewrite fabs_zero_small in H. discriminate.
Qed.

Lemma swapped_involutive p i r : swapped p i (swapped p i r) = r.
Proof.
  unfold swapped. destruct (Nat.eqb_spec r i) as [->|H1].
  - destruct (Nat.eqb_spec p i); [congruence |]. now rewrite Nat.eqb_refl.
  - destruct (Nat.eqb_spec r p) as [->|H2].
    + now rewrite Nat.eqb_refl.
    + now rewrite (proj2 (Nat.eqb_neq _ _) H1), (proj2 (Nat.eqb_neq _ _) H2).
Qed.

Lemma swapped_pivot p i : swapped p i i = p.
Proof. unfold swapped. now rewrite Nat.eqb_refl. Qed.

(** The rows of the right half after a step are combinations of the rows
    before it. *)
Lemma rdot_eliminated n (aug aug' : Matrix) p i (a : nat -> num) r :
  (forall r j, r < n -> j < 2 * n -> get aug' r j = eliminated aug p i r j) ->
  r < n ->
  rdot n aug' r a =
  let c := div one (get aug p i) in
  if r =? i then mul (rdot n aug p a) c
  else
    let q := swapped p i r in
    let f := get aug q i in
    if negb (eqb f zero)
    then sub (rdot n aug q a) (mul f (mul (rdot n aug p a) c))
    else rdot n aug q a.
Proof.
  intros Hent Hr. cbv zeta. unfold rdot.
  rewrite (sum_to_ext n _
    (fun k => mul (eliminated aug p i r (n + k)) (a k)))
    by (intros k Hk; rewrite Hent by lia; reflexivity).
  unfold eliminated. destruct (r =? i).
  - rewrite (sum_to_ext n _
      (fun k => mul (div one (get aug p i))
                    (mul (get aug p (n + k)) (a k))))
      by (intros k _; rewrite div_def; ring).
    rewrite sum_to_scale. ring.
  - destruct (negb (eqb (get aug (swapped p i r) i) zero)); [|reflexivity].
    rewrite (sum_to_ext n _
      (fun k => sub (mul (get aug (swapped p i r) (n + k)) (a k))
                    (mul (mul (get aug (swapped p i r) i)
                              (div one (get aug p i)))
                         (mul (get aug p (n + k)) (a k)))))
      by (intros k _; rewrite div_def; ring).
    rewrite sum_to_sub, sum_to_scale. ring.
Qed.

Lemma step_right_times n (A aug aug' : Matrix) p i :
  (forall r j, r < n -> j < 2 * n -> get aug' r j = eliminated aug p i r j) ->
  p < n -> i < n ->
  right_times n A aug -> right_times n A aug'.
Proof.
  intros Hent Hp Hi Hinv r j Hr Hj.
  rewrite (rdot_eliminated n aug aug' p i _ r Hent Hr). cbv zeta.
  rewrite Hent by lia. unfold eliminated.
  rewrite !Hinv by (try apply swapped_lt; lia).
  rewrite (div_def (get aug p j)).
  destruct (r =? i); [reflexivity |].
  destruct (negb (eqb (get aug (swapped p i r) i) zero)); reflexivity.
Qed.

Lemma step_columns_done n (aug aug' : Matrix) p i :
  (forall r j, r < n -> j < 2 * n -> get aug' r j = eliminated aug p i r j) ->
  i <= p < n -> get aug p i <> zero ->
  columns_done n i aug -> columns_done n (S i) aug'.
Proof.
  intros Hent Hp Hd Hcols r c Hr Hc.
  rewrite Hent by lia. unfold eliminated, unit_entry.
  rewrite (div_def (get aug p c)).
  assert (Hq : swapped p i r < n) by (apply swapped_lt; lia).
  destruct (Nat.eq_dec c i) as [->|Hci].
  - destruct (Nat.eqb_spec r i) as [->|Hri].
    + rewrite (Rmul_comm exact_ring). now apply div_inv.
    + destruct (eqb (get aug (swapped p i r) i) zero) eqn:Hz; cbn [negb].
      * now apply eqb_eq in Hz.
      * rewrite (Rmul_comm exact_ring (get aug p i)), div_inv by exact Hd.
        ring.
  - assert (Hp0 : get aug p c = zero).
    { rewrite Hcols by lia. unfold unit_entry.
      destruct (Nat.eqb_spec p c); [lia | reflexivity]. }
    rewrite Hp0.
    destruct (Nat.eqb_spec r i) as [->|Hri].
    + destruct (Nat.eqb_spec i c); [lia | ring].
    + assert (Hold : get aug (swapped p i r) c =
                     if r =? c then one else zero).
      { rewrite Hcols by lia. unfold unit_entry, swapped.
        destruct (Nat.eqb_spec r i); [lia |].
        destruct (Nat.eqb_spec r p) as [->|_]; [|reflexivity].
        destruct (Nat.eqb_spec i c), (Nat.eqb_spec p c); try lia; reflexivity. }
      rewrite Hold.
      destruct (negb (eqb (get aug (swapped p i r) i) zero));
        [ring | reflexivity].
Qed.

Lemma step_kernel n (aug aug' : Matrix) p i :
  (forall r j, r < n -> j < 2 * n -> get aug' r j = eliminated aug p i r j) ->
  p < n -> i < n -> get aug p i <> zero ->
  right_kernel_trivial n aug -> right_kernel_trivial n aug'.
Proof.
  intros Hent Hp Hi Hd Hker w Hw. apply Hker.
  assert (Hrow : forall r, r < n ->
    (let c := div one (get aug p i) in
     if r =? i then mul (rdot n aug p w) c
     else
       let q := swapped p i r in
       let f := get aug q i in
       if negb (eqb f zero)
       then sub (rdot n aug q w) (mul f (mul (rdot n aug p w) c))
       else rdot n aug q w) = zero).
  { intros r Hr. rewrite <- (rdot_eliminated n aug aug' p i w r Hent Hr).
    now apply Hw. }
  assert (Hpz : rdot n aug p w = zero).
  { specialize (Hrow i Hi). cbv zeta in Hrow. rewrite Nat.eqb_refl in Hrow.
    transitivity (mul (mul (rdot n aug p w) (div one (get aug p i)))
                      (get aug p i)).
    - rewrite <- (Rmul_assoc exact_ring), div_inv by exact Hd. ring.
    - rewrite Hrow. ring. }
  intros q Hq. destruct (Nat.eq_dec q p) as [->|Hqp]; [exact Hpz |].
  specialize (Hrow (swapped p i q) (swapped_lt p i q n Hp Hi Hq)).
  cbv zeta in Hrow. rewrite swapped_involutive, Hpz in Hrow.
  destruct (Nat.eqb_spec (swapped p i q) i) as [Heq|_].
  - exfalso. apply Hqp. rewrite <- (swapped_involutive p i q), Heq.
    apply swapped_pivot.
  - destruct (negb (eqb (get aug q i) zero)); [|exact Hrow].
    rewrite <- Hrow. ring.
Qed.

(** The three invariants hold whenever the elimination reaches column
    [i]. *)
Lemma gj_run_invariants {n} {A : Matrix} i aug :
  shape n n A -> i <= n -> gj_run n A i = Ok aug ->
  right_times n A aug /\ columns_done n i aug /\ right_kernel_trivial n aug.
Proof.
  intros HA. revert aug. induction i as [|i IH]; intros aug Hi Hrun.
  - unfold gj_run in Hrun.
    destruct (augment_spec HA) as (a0 & Ha0 & Hs0 & Hg0).
    rewrite Ha0 in Hrun. cbn in Hrun. injection Hrun as <-.
    assert (Hright : forall r (a : nat -> num), r < n ->
                       rdot n a0 r a = a r).
    { intros r a Hr. unfold rdot.
      rewrite (sum_to_ext n _
        (fun k => mul (if r =? k then one else zero) (a k))).
      - now apply sum_to_unit.
      - intros k Hk. rewrite Hg0 by lia. unfold aug_entry.
        destruct (Nat.ltb_spec (n + k) n); [lia |].
        now replace (n + k - n) with k by lia. }
    split; [|split].
    + intros r j Hr Hj. rewrite Hright by exact Hr.
      rewrite Hg0 by lia. unfold aug_entry.
      now destruct (Nat.ltb_spec j n); [|lia].
    + intros r c _ Hc. lia.
    + intros w Hw k Hk. rewrite <- (Hright k w Hk). now apply Hw.
  - rewrite gj_run_S in Hrun. apply bind_ok_inv in Hrun.
    destruct Hrun as (t & Ht & Hstep).
    destruct (IH t ltac:(lia) Ht) as (Hrt & Hcd & Hkt).
    assert (Hst : shape n (2 * n) t)
      by (apply (gj_run_shape i t HA); [lia | exact Ht]).
    destruct (eliminate_column_spec i Hst) as (p & _ & Hp & Hcase); [lia |].
    destruct (ltb (fabs (get t p i)) tiny) eqn:Hbad; [congruence |].
    destruct Hcase as (aug' & Haug' & _ & Hent).
    assert (aug' = aug) by congruence. subst aug'.
    pose proof (pivot_nonzero _ Hbad) as Hd.
    split; [|split].
    + apply (step_right_times n A t aug p i Hent); [lia | lia | exact Hrt].
    + apply (step_columns_done n t aug p i Hent Hp Hd Hcd).
    + apply (step_kernel n t aug p i Hent); [lia | lia | exact Hd | exact Hkt].
Qed.

End GaussJordanExact.

Section InverseExact.
Context {K : Scalar} {E : ExactField K}.

Add Ring scalar_ring_inv : exact_ring.

(** [x (M y) = (x M) y] for a row [x], a matrix [M] and a column [y]. *)
Lemma sum_to_assoc n m (x : nat -> num) (M : nat -> nat -> num)
  (y : nat -> num) :
  sum_to n (fun k => mul (x k) (sum_to m (fun l => mul (M k l) (y l)))) =
  sum_to m (fun l => mul (sum_to n (fun k => mul (x k) (M k l))) (y l)).
Proof.
  rewrite (sum_to_ext n _
    (fun k => sum_to m (fun l => mul (x k) (mul (M k l) (y l)))))
    by (intros k _; now rewrite sum_to_scale).
  rewrite sum_to_swap. apply sum_to_ext. intros l _.
  rewrite (sum_to_ext n _ (fun k => mul (y l) (mul (x k) (M k l))))
    by (intros k _; ring).
  rewrite sum_to_scale. ring.
Qed.

(** What a successful [inverse] returns: a left inverse whose rows
    annihilate only the zero vector. *)
Lemma inverse_left_inverse {n} {A B : Matrix} :
  shape n n A -> Pinv.inverse A = Ok B ->
  0 < n /\ shape n n B /\
  (forall r j, r < n -> j < n ->
     sum_to n (fun k => mul (get B r k) (get A k j)) = unit_entry r j) /\
  (forall w : nat -> num,
     (forall r, r < n -> sum_to n (fun k => mul (get B r k) (w k)) = zero) ->
     forall k, k < n -> w k = zero).
Proof.
  intros HA HB.
  assert (Hn : 0 < n).
  { destruct n as [|n]; [|lia]. destruct HA as [Hlen _].
    destruct A; [discriminate HB | discriminate Hlen]. }
  split; [exact Hn |].
  destruct (inverse_square_cases HA Hn)
    as [(B' & HB' & HsB & aug & Hrun & HgB)|(Herr & _)]; [|congruence].
  assert (B' = B) by congruence. subst B'.
  destruct (gj_run_invariants n aug HA (le_n n) Hrun) as (Hrt & Hcd & Hker).
  assert (Hrow : forall r (a : nat -> num), r < n ->
    sum_to n (fun k => mul (get B r k) (a k)) = rdot n aug r a).
  { intros r a Hr. apply sum_to_ext. intros k Hk. now rewrite HgB. }
  split; [exact HsB |]. split.
  - intros r j Hr Hj. rewrite Hrow, Hrt by assumption. now apply Hcd.
  - intros w Hw. apply Hker. intros r Hr. rewrite <- Hrow by exact Hr.
    now apply Hw.
Qed.

(** It is a right inverse as well. *)
Lemma inverse_right_inverse {n} {A B : Matrix} :
  shape n n A -> Pinv.inverse A = Ok B ->
  forall k j, k < n -> j < n ->
    sum_to n (fun l => mul (get A k l) (get B l j)) = unit_entry k j.
Proof.
  intros HA HB k j Hk Hj.
  destruct (inverse_left_inverse HA HB) as (Hn & HsB & Hleft & Hker).
  pose (w := fun k => sub (sum_to n (fun l => mul (get A k l) (get B l j)))
                          (unit_entry k j)).
  assert (Hw : w k = zero).
  { apply Hker; [|exact Hk]. intros r Hr. unfold w.
    rewrite (sum_to_ext n _
      (fun k => sub (mul (get B r k)
                         (sum_to n (fun l => mul (get A k l) (get B l j))))
                    (mul (get B r k) (unit_entry k j))))
      by (intros; ring).
    rewrite sum_to_sub, sum_to_assoc.
    rewrite (sum_to_ext n _
      (fun l => mul (if r =? l then one else zero) (get B l j)))
      by (intros l Hl; rewrite Hleft by assumption; reflexivity).
    rewrite sum_to_unit by exact Hr.
    unfold unit_entry. rewrite sum_to_unit_r by exact Hj. ring. }
  unfold w in Hw.
  transitivity (add (sub (sum_to n (fun l => mul (get A k l) (get B l j)))
                         (unit_entry k j)) (unit_entry k j)); [ring |].
  rewrite Hw. ring.
Qed.

Lemma identity_entries_ext {n} {C : Matrix} :
  shape n n C ->
  (forall r j, r < n -> j < n -> get C r j = unit_entry r j) ->
  QR.identity n = Ok C.
Proof.
  intros HC Hg. destruct (identity_spec n) as (I & HI & HsI & HgI).
  rewrite HI. f_equal. apply (shape_ext n n); [exact HsI | exact HC |].
  intros r j Hr Hj. now rewrite HgI, Hg.
Qed.

(** Both products of a matrix with its computed inverse are the identity. *)
Lemma inverse_products {n} {A B : Matrix} :
  shape n n A -> Pinv.inverse A = Ok B ->
  QR.matmul B A = QR.identity n /\ QR.matmul A B = QR.identity n /\
  Pinv.multiply B A = QR.identity n /\ Pinv.multiply A B = QR.identity n.
Proof.
  intros HA HB.
  destruct (inverse_left_inverse HA HB) as (Hn & HsB & Hleft & _).
  pose proof (inverse_right_inverse HA HB) as Hright.
  destruct (matmul_spec HsB HA Hn Hn (le_n n)) as (C1 & HC1 & Hs1 & Hg1).
  destruct (matmul_spec HA HsB Hn Hn (le_n n)) as (C2 & HC2 & Hs2 & Hg2).
  destruct (multiply_spec HsB HA Hn (le_n n)) as (C3 & HC3 & Hs3 & Hg3).
  destruct (multiply_spec HA HsB Hn (le_n n)) as (C4 & HC4 & Hs4 & Hg4).
  rewrite HC1, HC2, HC3, HC4.
  repeat split; symmetry; apply identity_entries_ext; try assumption;
    intros r j Hr Hj.
  - rewrite Hg1 by assumption. now apply Hleft.
  - rewrite Hg2 by assumption. now apply Hright.
  - rewrite Hg3 by assumption. unfold product_entry_skip.
    rewrite dot_skip_dot_sum. now apply Hleft.
  - rewrite Hg4 by assumption. unfold product_entry_skip.
    rewrite dot_skip_dot_sum. now apply Hright.
Qed.

(** When both the inverse and the pseudoinverse of a square matrix are
    computed, they are the same matrix. *)
Lemma pseudoinverse_of_invertible {n} {A B P : Matrix} :
  shape n n A -> Pinv.inverse A = Ok B -> Pinv.pseudoinverse A = Ok P ->
  P = B.
Proof.
  intros HA HB HP.
  destruct (inverse_left_inverse HA HB) as (Hn & HsB & Hleft & _).
  pose proof (inverse_right_inverse HA HB) as Hright.
  rewrite (pseudoinverse_nonempty HA Hn Hn) in HP.
  destruct (transpose_spec HA Hn) as (AT & HAT & HsAT & HgAT).
  rewrite pinv_transpose_same, HAT, Nat.leb_refl in HP. cbn [bind] in HP.
  destruct (multiply_spec HsAT HA Hn (le_n n)) as (N & HN & HsN & HgN).
  rewrite HN in HP. cbn [bind] in HP.
  destruct (Pinv.inverse N) as [C|e] eqn:HC; [|discriminate HP].
  cbn [bind] in HP.
  destruct (inverse_left_inverse HsN HC) as (_ & HsC & HCN & _).
  destruct (multiply_spec HsC HsAT Hn (le_n n)) as (P' & HP' & HsP & HgP).
  assert (P' = P) by congruence. subst P'.
  assert (HPe : forall r k, r < n -> k < n ->
    get P r k = sum_to n (fun t => mul (get C r t) (get AT t k))).
  { intros r k Hr Hk. rewrite HgP by assumption.
    unfold product_entry_skip. now rewrite dot_skip_dot_sum. }
  assert (HNe : forall t l, t < n -> l < n ->
    get N t l = sum_to n (fun k => mul (get AT t k) (get A k l))).
  { intros t l Ht Hl. rewrite HgN by assumption.
    unfold product_entry_skip. now rewrite dot_skip_dot_sum. }
  assert (HPA : forall r l, r < n -> l < n ->
    sum_to n (fun k => mul (get P r k) (get A k l)) = unit_entry r l).
  { intros r l Hr Hl.
    rewrite (sum_to_ext n _
      (fun k => mul (sum_to n (fun t => mul (get C r t) (get AT t k)))
                    (get A k l)))
      by (intros k Hk; rewrite HPe by assumption; reflexivity).
    rewrite <- sum_to_assoc.
    rewrite (sum_to_ext n _ (fun t => mul (get C r t) (get N t l)))
      by (intros t Ht; rewrite HNe by assumption; reflexivity).
    now apply HCN. }
  apply (shape_ext n n); [exact HsP | exact HsB |].
  intros r j Hr Hj.
  rewrite <- (sum_to_unit_r n j (fun l => get P r l) Hj).
  rewrite (sum_to_ext n _
    (fun l => mul (get P r l)
                  (sum_to n (fun k => mul (get A l k) (get B k j)))))
    by (intros l Hl; rewrite Hright by assumption; reflexivity).
  rewrite sum_to_assoc.
  rewrite (sum_to_ext n _
    (fun k => mul (if r =? k then one else zero) (get B k j)))
    by (intros k Hk; rewrite HPA by assumption; reflexivity).
  exact (sum_to_unit n r (fun k => get B k j) Hr).
Qed.

End InverseExact.

(** ** Transposing twice, and the norms *)

Section PrimitiveFacts.
Context {K : Scalar}.

(** Transposing twice gives the matrix back. *)
Lemma transpose_twice {m n} {A : Matrix} :
  shape m n A -> 0 < m -> 0 < n ->
  exists B, QR.transpose A = Ok B /\ QR.transpose B = Ok A.
Proof.
  intros HA Hm Hn.
  destruct (transpose_spec HA Hm) as (B & HB & HsB & HgB).
  destruct (transpose_spec HsB Hn) as (C & HC & HsC & HgC).
  exists B. split; [exact HB |]. rewrite HC. f_equal.
  apply (shape_ext m n); [exact HsC | exact HA |].
  intros i j Hi Hj. rewrite HgC by assumption. now apply HgB.
Qed.

Lemma skipn_nth_cons {A : Type} (l : list A) i d :
  i < length l -> skipn i l = nth i l d :: skipn (S i) l.
Proof.
  revert i. induction l as [|x l IH]; intros i Hi; simpl in Hi; [lia |].
  destruct i as [|i]; [reflexivity |]. simpl. apply IH. lia.
Qed.

Lemma fold_left_concat {A B : Type} (f : A -> B -> A) (ls : list (list B)) :
  forall a, fold_left f (concat ls) a =
            fold_left (fun acc l => fold_left f l acc) ls a.
Proof.
  induction ls as [|l ls IH]; intros a; simpl; [reflexivity |].
  now rewrite fold_left_app, IH.
Qed.

End PrimitiveFacts.

Section NormFacts.
Context {K : Scalar} {SQ : ScalarSqrt K}.

Lemma frobenius_norm_concat (A : Matrix) :
  Pinv.frobenius_norm A = QR.norm2 (concat A).
Proof.
  unfold Pinv.frobenius_norm, QR.norm2, sum_squares.
  now rewrite fold_left_concat.
Qed.

(** The column [col] of [A] from row [start] on. *)
Lemma column_norm_spec {m n} {A : Matrix} col start :
  shape m n A -> col < n ->
  QR.column_norm A col start = Ok (QR.norm2 (column_from A col start)).
Proof.
  intros HA Hcol. unfold QR.column_norm.
  rewrite (for_range_fold (fun sum i => add sum (mul (get A i col) (get A i col)))).
  2:{ intros i t Hi. rewrite (mget_ok i col HA) by (pose proof (shape_length HA); lia).
      reflexivity. }
  cbn [bind]. f_equal. unfold QR.norm2, sum_squares, column_from. f_equal.
  rewrite (shape_length HA).
  assert (Hgen : forall len st acc, st + len = m ->
    fold_left (fun sum i => add sum (mul (get A i col) (get A i col)))
              (seq st len) acc =
    fold_left (fun s x => add s (mul x x))
              (map (fun r => nth col r zero) (skipn st A)) acc).
  { induction len as [|len IH]; intros st acc Hst.
    - rewrite skipn_all2 by (rewrite (shape_length HA); lia). reflexivity.
    - assert (Hlt : st < length A) by (rewrite (shape_length HA); lia).
      rewrite (skipn_nth_cons A st [] Hlt).
      cbn [seq map fold_left]. rewrite IH by lia. reflexivity. }
  destruct (Nat.le_gt_cases start m) as [Hle|Hgt].
  - apply Hgen. lia.
  - replace (m - start) with 0 by lia.
    rewrite skipn_all2 by (rewrite (shape_length HA); lia). reflexivity.
Qed.

End NormFacts.

(** ** What a reflection leaves alone; inverting twice *)

Section ReflectFrame.
Context {K : Scalar} {SQ : ScalarSqrt K}.

Lemma same_outside_refl m n start lo (A : Matrix) :
  shape m n A -> same_outside m n start lo A A.
Proof. intros HA. split; [exact HA | reflexivity]. Qed.

Lemma reflect_columns_frame {m n} (v : Vector) start lo hi {A : Matrix} :
  shape m n A -> start + length v <= m -> hi <= n ->
  exists A', QR.reflect_columns v start lo hi A = Ok A' /\
             same_outside m n start lo A A'.
Proof.
  intros HA Hv Hhi. unfold QR.reflect_columns.
  apply for_range_pres; [now apply same_outside_refl |].
  intros j A0 Hj [HA0 Hf0].
  destruct (for_range_pres (fun _ : num => True)
    (fun k proj =>
       vk <- vget v k ;;
       a <- mget A0 (start + k) j ;;
       Ok (add proj (mul vk a))) 0 (length v) zero I) as (proj & Hproj & _).
  { intros k t Hk _. rewrite vget_ok by lia. simpl.
    rewrite (mget_ok (start + k) j HA0) by lia. simpl. eauto. }
  rewrite Hproj. simpl.
  apply for_range_pres; [split; [exact HA0 | exact Hf0] |].
  intros k A1 Hk [HA1 Hf1].
  rewrite (mget_ok (start + k) j HA1) by lia. simpl.
  rewrite vget_ok by lia. simpl.
  rewrite (mset_ok (start + k) j _ HA1) by lia.
  eexists. split; [reflexivity |].
  split; [apply shape_upd; [exact HA1 | lia | lia] |].
  intros i' j' Hi' Hj' Hout.
  rewrite (get_upd (start + k) j _ i' j' HA1) by lia.
  destruct (Nat.eqb_spec i' (start + k)), (Nat.eqb_spec j' j);
    cbn [andb]; try (now apply Hf1). lia.
Qed.

Lemma reflect_rows_frame {q m} (v : Vector) start {Q : Matrix} :
  shape q m Q -> start + length v <= m ->
  exists Q', QR.reflect_rows v start q Q = Ok Q' /\ same_left q m start Q Q'.
Proof.
  intros HQ Hv. unfold QR.reflect_rows.
  apply for_range_pres; [split; [exact HQ | reflexivity] |].
  intros j Q0 Hj [HQ0 Hf0].
  destruct (for_range_pres (fun _ : num => True)
    (fun k proj =>
       vk <- vget v k ;;
       a <- mget Q0 j (start + k) ;;
       Ok (add proj (mul vk a))) 0 (length v) zero I) as (proj & Hproj & _).
  { intros k t Hk _. rewrite vget_ok by lia. simpl.
    rewrite (mget_ok j (start + k) HQ0) by lia. simpl. eauto. }
  rewrite Hproj. simpl.
  apply for_range_pres; [split; [exact HQ0 | exact Hf0] |].
  intros k Q1 Hk [HQ1 Hf1].
  rewrite (mget_ok j (start + k) HQ1) by lia. simpl.
  rewrite vget_ok by lia. simpl.
  rewrite (mset_ok j (start + k) _ HQ1) by lia.
  eexists. split; [reflexivity |].
  split; [apply shape_upd; [exact HQ1 | lia | lia] |].
  intros i' j' Hi' Hj' Hout.
  rewrite (get_upd j (start + k) _ i' j' HQ1) by lia.
  destruct (Nat.eqb_spec i' j), (Nat.eqb_spec j' (start + k));
    cbn [andb]; try (now apply Hf1). lia.
Qed.

Lemma householder_reflect_frame {m n q} {A Q : Matrix} start col :
  shape m n A -> shape q m Q -> start < m -> col < n ->
  exists A' Q', QR.householder_reflect A Q start col = Ok (A', Q') /\
                same_outside m n start col A A' /\
                same_left q m start Q Q'.
Proof.
  intros HA HQ Hstart Hcol. unfold QR.householder_reflect.
  rewrite (shape_length HA).
  destruct (for_range_pres (fun x : Vector => length x = m - start)
    (fun i x => a <- mget A i col ;; vset x (i - start) a)
    start m (vzeros (m - start))) as (x & Hx & Hlen).
  { apply repeat_length. }
  { intros i x Hi Hlen. rewrite (mget_ok i col HA) by lia. simpl.
    rewrite vset_ok by lia. eexists. split; [reflexivity |].
    rewrite set_nth_length; lia. }
  rewrite Hx. cbn [bind].
  assert (Hsame : exists A' Q' : Matrix,
    Ok (A, Q) = Ok (A', Q') /\ same_outside m n start col A A' /\
    same_left q m start Q Q').
  { exists A, Q. split; [reflexivity |].
    split; [now apply same_outside_refl | split; [exact HQ | reflexivity]]. }
  destruct (eqb (sqrt (sum_squares x)) zero); [exact Hsame |].
  rewrite vget_ok by lia. cbn [bind].
  rewrite vset_ok by lia. cbn [bind].
  match goal with
  | |- context [eqb (sqrt (sum_squares ?w)) zero] => set (v := w)
  end.
  assert (Hv : length v = m - start)
    by (unfold v; rewrite set_nth_length; lia).
  destruct (eqb (sqrt (sum_squares v)) zero); [exact Hsame |].
  rewrite (cols0_ok HA) by lia. cbn [bind].
  set (u := map (fun t => div t (sqrt (sum_squares v))) v).
  assert (Hu : length u = m - start) by (unfold u; now rewrite length_map).
  destruct (reflect_columns_frame u start col n HA) as (A' & HA' & HfA');
    [lia | lia |].
  rewrite HA'. cbn [bind]. rewrite (shape_length HQ).
  destruct (reflect_rows_frame u start HQ) as (Q' & HQ' & HfQ'); [lia |].
  rewrite HQ'. cbn [bind]. now exists A', Q'.
Qed.

End ReflectFrame.

Section InverseExtra.
Context {K : Scalar} {E : ExactField K}.

Add Ring scalar_ring_x : exact_ring.

(** Inverting the computed inverse gives the matrix back. *)
Lemma inverse_twice {n} {A B C : Matrix} :
  shape n n A -> Pinv.inverse A = Ok B -> Pinv.inverse B = Ok C -> C = A.
Proof.
  intros HA HB HC.
  destruct (inverse_left_inverse HA HB) as (Hn & HsB & HBA & _).
  destruct (inverse_left_inverse HsB HC) as (_ & HsC & HCB & _).
  apply (shape_ext n n); [exact HsC | exact HA |].
  intros r j Hr Hj.
  rewrite <- (sum_to_unit_r n j (fun l => get C r l) Hj).
  rewrite (sum_to_ext n _
    (fun l => mul (get C r l)
                  (sum_to n (fun k => mul (get B l k) (get A k j)))))
    by (intros l Hl; rewrite HBA by assumption; reflexivity).
  rewrite sum_to_assoc.
  rewrite (sum_to_ext n _
    (fun k => mul (if r =? k then one else zero) (get A k j)))
    by (intros k Hk; rewrite HCB by assumption; reflexivity).
  exact (sum_to_unit n r (fun k => get A k j) Hr).
Qed.

End InverseExtra.

(** ** The pseudoinverse over a field *)

Section PseudoinverseExact.
Context {K : Scalar} {E : ExactField K}.

Add Ring scalar_ring_pinv : exact_ring.

Lemma fprod_ext n (X X' Y Y' : nat -> nat -> num) i j :
  (forall k, k < n -> X i k = X' i k) ->
  (forall k, k < n -> Y k j = Y' k j) ->
  fprod n X Y i j = fprod n X' Y' i j.
Proof.
  intros HX HY. apply sum_to_ext. intros k Hk.
  now rewrite HX, HY.
Qed.

Lemma fprod_assoc n m (X Y Z : nat -> nat -> num) i j :
  fprod m (fprod n X Y) Z i j = fprod n X (fprod m Y Z) i j.
Proof. unfold fprod. symmetry. apply sum_to_assoc. Qed.

Lemma fprod_unit_l n (Y : nat -> nat -> num) i j :
  i < n -> fprod n unit_entry Y i j = Y i j.
Proof. intros Hi. exact (sum_to_unit n i (fun k => Y k j) Hi). Qed.

Lemma fprod_unit_r n (X : nat -> nat -> num) i j :
  j < n -> fprod n X unit_entry i j = X i j.
Proof. intros Hj. exact (sum_to_unit_r n j (fun k => X i k) Hj). Qed.

Lemma unit_entry_sym r c : unit_entry r c = unit_entry c r.
Proof. unfold unit_entry. now rewrite Nat.eqb_sym. Qed.

(** The computed inverse of a symmetric matrix is symmetric. *)
Lemma inverse_symmetric {n} {N C : Matrix} :
  shape n n N -> Pinv.inverse N = Ok C ->
  (forall t l, t < n -> l < n -> get N t l = get N l t) ->
  forall r j, r < n -> j < n -> get C r j = get C j r.
Proof.
  intros HN HC Hsym r j Hr Hj.
  destruct (inverse_left_inverse HN HC) as (Hn & HsC & Hleft & _).
  pose proof (inverse_right_inverse HN HC) as Hright.
  (* D = C^T is a left inverse of N, and N has the right inverse C. *)
  pose (D := fun a b => get C b a).
  assert (HDN : forall a b, a < n -> b < n ->
    fprod n D (get N) a b = unit_entry a b).
  { intros a b Ha Hb. unfold fprod, D.
    rewrite (sum_to_ext n _ (fun l => mul (get N b l) (get C l a)))
      by (intros l Hl; rewrite (Hsym l b) by assumption; ring).
    rewrite Hright by assumption. apply unit_entry_sym. }
  change (get C r j = D r j).
  rewrite <- (fprod_unit_r n D r j Hj).
  rewrite (fprod_ext n D D unit_entry (fprod n (get N) (get C)) r j)
    by (intros k Hk; first [reflexivity | unfold fprod; now rewrite Hright]).
  rewrite <- fprod_assoc.
  rewrite (fprod_ext n _ unit_entry (get C) (get C) r j)
    by (intros k Hk; first [reflexivity | now apply HDN]).
  now rewrite fprod_unit_l.
Qed.

(** The elements of what [pseudoinverse] returns on a matrix with at least
    as many rows as columns: [P = (A^T A)^-1 A^T], with [C] the computed
    inverse of the normal matrix. *)
Lemma pseudoinverse_tall {m n} {A P : Matrix} :
  shape m n A -> 0 < n -> n <= m -> Pinv.pseudoinverse A = Ok P ->
  shape n m P /\
  exists C : Matrix,
    (forall r k, r < n -> k < m ->
       get P r k = sum_to n (fun t => mul (get C r t) (get A k t))) /\
    (forall r l, r < n -> l < n -> get C r l = get C l r) /\
    (forall r l, r < n -> l < n ->
       fprod n (get C) (fprod m (fun t k => get A k t) (get A)) r l =
       unit_entry r l).
Proof.
  intros HA Hn Hle HP. assert (Hm : 0 < m) by lia.
  rewrite (pseudoinverse_nonempty HA Hm Hn) in HP.
  destruct (transpose_spec HA Hm) as (AT & HAT & HsAT & HgAT).
  rewrite pinv_transpose_same, HAT in HP. cbn [bind] in HP.
  destruct (Nat.leb_spec n m); [|lia].
  destruct (multiply_spec HsAT HA Hm (le_n m)) as (N & HN & HsN & HgN).
  rewrite HN in HP. cbn [bind] in HP.
  destruct (Pinv.inverse N) as [C|e] eqn:HC; [|discriminate HP].
  cbn [bind] in HP.
  destruct (inverse_left_inverse HsN HC) as (_ & HsC & HCN & _).
  destruct (multiply_spec HsC HsAT Hn (le_n n)) as (P' & HP' & HsP & HgP).
  assert (P' = P) by congruence. subst P'.
  assert (HNe : forall t l, t < n -> l < n ->
    get N t l = fprod m (fun t k => get A k t) (get A) t l).
  { intros t l Ht Hl. rewrite HgN by assumption.
    unfold product_entry_skip. rewrite dot_skip_dot_sum. apply sum_to_ext.
    intros k Hk. now rewrite HgAT. }
  split; [exact HsP |]. exists C. split; [|split].
  - intros r k Hr Hk. rewrite HgP by assumption.
    unfold product_entry_skip. rewrite dot_skip_dot_sum. apply sum_to_ext.
    intros t Ht. now rewrite HgAT.
  - apply (inverse_symmetric HsN HC). intros t l Ht Hl.
    rewrite !HNe by assumption. apply sum_to_ext. intros k _. ring.
  - intros r l Hr Hl. rewrite <- HCN by assumption.
    apply sum_to_ext. intros t Ht. now rewrite HNe.
Qed.

(** The same on a matrix with fewer rows than columns:
    [P = A^T (A A^T)^-1]. *)
Lemma pseudoinverse_wide {m n} {A P : Matrix} :
  shape m n A -> 0 < m -> m < n -> Pinv.pseudoinverse A = Ok P ->
  shape n m P /\
  exists C : Matrix,
    (forall r k, r < n -> k < m ->
       get P r k = sum_to m (fun t => mul (get A t r) (get C t k))) /\
    (forall r l, r < m -> l < m -> get C r l = get C l r) /\
    (forall r l, r < m -> l < m ->
       fprod m (fprod n (get A) (fun t k => get A k t)) (get C) r l =
       unit_entry r l).
Proof.
  intros HA Hm Hlt HP. assert (Hn : 0 < n) by lia.
  rewrite (pseudoinverse_nonempty HA Hm Hn) in HP.
  destruct (transpose_spec HA Hm) as (AT & HAT & HsAT & HgAT).
  rewrite pinv_transpose_same, HAT in HP. cbn [bind] in HP.
  destruct (Nat.leb_spec n m); [lia |].
  destruct (multiply_spec HA HsAT Hn (le_n n)) as (N & HN & HsN & HgN).
  rewrite HN in HP. cbn [bind] in HP.
  destruct (Pinv.inverse N) as [C|e] eqn:HC; [|discriminate HP].
  cbn [bind] in HP.
  destruct (inverse_left_inverse HsN HC) as (_ & HsC & _ & _).
  pose proof (inverse_right_inverse HsN HC) as HNC.
  destruct (multiply_spec HsAT HsC Hm (le_n m)) as (P' & HP' & HsP & HgP).
  assert (P' = P) by congruence. subst P'.
  assert (HNe : forall t l, t < m -> l < m ->
    get N t l = fprod n (get A) (fun t k => get A k t) t l).
  { intros t l Ht Hl. rewrite HgN by assumption.
    unfold product_entry_skip. rewrite dot_skip_dot_sum. apply sum_to_ext.
    intros k Hk. now rewrite HgAT. }
  split; [exact HsP |]. exists C. split; [|split].
  - intros r k Hr Hk. rewrite HgP by assumption.
    unfold product_entry_skip. rewrite dot_skip_dot_sum. apply sum_to_ext.
    intros t Ht. now rewrite HgAT.
  - apply (inverse_symmetric HsN HC). intros t l Ht Hl.
    rewrite !HNe by assumption. apply sum_to_ext. intros k _. ring.
  - intros r l Hr Hl. rewrite <- HNC by assumption.
    apply sum_to_ext. intros t Ht. now rewrite HNe.
Qed.


(** The elements of a product computed by [multiply]. *)
Lemma multiply_entries {m n p} {X Y : Matrix} :
  shape m n X -> shape n p Y -> 0 < n ->
  exists Z, Pinv.multiply X Y = Ok Z /\ shape m p Z /\
            forall i j, i < m -> j < p ->
                        get Z i j = fprod n (get X) (get Y) i j.
Proof.
  intros HX HY Hn.
  destruct (multiply_spec HX HY Hn (le_n n)) as (Z & HZ & HsZ & HgZ).
  exists Z. split; [exact HZ |]. split; [exact HsZ |].
  intros i j Hi Hj. rewrite HgZ by assumption.
  unfold product_entry_skip. now rewrite dot_skip_dot_sum.
Qed.

(** A symmetric matrix between two vectors: the vectors may be exchanged. *)
Lemma sandwich_symmetric q (C : nat -> nat -> num) (u v : nat -> num) :
  (forall a b, a < q -> b < q -> C a b = C b a) ->
  sum_to q (fun a => sum_to q (fun b => mul (mul (u a) (C a b)) (v b))) =
  sum_to q (fun a => sum_to q (fun b => mul (mul (v a) (C a b)) (u b))).
Proof.
  intros Hsym.
  rewrite (sum_to_swap q q (fun a b => mul (mul (v a) (C a b)) (u b))).
  apply sum_to_ext. intros a Ha. apply sum_to_ext. intros b Hb.
  rewrite (Hsym a b) by assumption. ring.
Qed.

(** The four Penrose conditions on the elements give them on the products
    the code computes. *)
Lemma penrose_products {m n} {A P : Matrix} :
  shape m n A -> shape n m P -> 0 < m -> 0 < n ->
  (forall i l, i < m -> l < n ->
     fprod m (fprod n (get A) (get P)) (get A) i l = get A i l) ->
  (forall r k, r < n -> k < m ->
     fprod n (fprod m (get P) (get A)) (get P) r k = get P r k) ->
  (forall r l, r < n -> l < n ->
     fprod m (get P) (get A) r l = fprod m (get P) (get A) l r) ->
  (forall i k, i < m -> k < m ->
     fprod n (get A) (get P) i k = fprod n (get A) (get P) k i) ->
  exists PA AP,
    Pinv.multiply P A = Ok PA /\ Pinv.multiply A P = Ok AP /\
    Pinv.multiply AP A = Ok A /\ Pinv.multiply PA P = Ok P /\
    Pinv.transpose PA = Ok PA /\ Pinv.transpose AP = Ok AP.
Proof.
  intros HA HP Hm Hn H1 H2 H3 H4.
  destruct (multiply_entries HP HA Hm) as (PA & HPA & HsPA & HgPA).
  destruct (multiply_entries HA HP Hn) as (AP & HAP & HsAP & HgAP).
  destruct (multiply_entries HsAP HA Hm) as (APA & HAPA & HsAPA & HgAPA).
  destruct (multiply_entries HsPA HP Hn) as (PAP & HPAP & HsPAP & HgPAP).
  destruct (transpose_spec HsPA Hn) as (PAT & HPAT & HsPAT & HgPAT).
  destruct (transpose_spec HsAP Hm) as (APT & HAPT & HsAPT & HgAPT).
  exists PA, AP.
  rewrite (pinv_transpose_same PA), (pinv_transpose_same AP).
  rewrite HPA, HAP, HAPA, HPAP, HPAT, HAPT.
  repeat split; f_equal.
  - apply (shape_ext m n); [exact HsAPA | exact HA |]. intros i l Hi Hl.
    rewrite HgAPA by assumption. rewrite <- H1 by assumption.
    apply fprod_ext; intros k Hk; [now apply HgAP | reflexivity].
  - apply (shape_ext n m); [exact HsPAP | exact HP |]. intros r k Hr Hk.
    rewrite HgPAP by assumption. rewrite <- H2 by assumption.
    apply fprod_ext; intros l Hl; [now apply HgPA | reflexivity].
  - apply (shape_ext n n); [exact HsPAT | exact HsPA |]. intros r l Hr Hl.
    rewrite HgPAT by assumption. rewrite !HgPA by assumption.
    now apply H3.
  - apply (shape_ext m m); [exact HsAPT | exact HsAP |]. intros i k Hi Hk.
    rewrite HgAPT by assumption. rewrite !HgAP by assumption.
    now apply H4.
Qed.

(** Whenever [pseudoinverse] returns, over a field, what it returns
    satisfies the four Penrose conditions; with at least as many rows as
    columns it is a left inverse, with fewer a right inverse. *)
Lemma pseudoinverse_penrose_entries {m n} {A P : Matrix} :
  shape m n A -> 0 < m -> 0 < n -> Pinv.pseudoinverse A = Ok P ->
  shape n m P /\
  (forall i l, i < m -> l < n ->
     fprod m (fprod n (get A) (get P)) (get A) i l = get A i l) /\
  (forall r k, r < n -> k < m ->
     fprod n (fprod m (get P) (get A)) (get P) r k = get P r k) /\
  (forall r l, r < n -> l < n ->
     fprod m (get P) (get A) r l = fprod m (get P) (get A) l r) /\
  (forall i k, i < m -> k < m ->
     fprod n (get A) (get P) i k = fprod n (get A) (get P) k i) /\
  (n <= m -> forall r l, r < n -> l < n ->
     fprod m (get P) (get A) r l = unit_entry r l) /\
  (m < n -> forall i k, i < m -> k < m ->
     fprod n (get A) (get P) i k = unit_entry i k).
Proof.
  intros HA Hm Hn HP. pose (AT := fun t k : nat => get A k t).
  destruct (Nat.le_gt_cases n m) as [Hle|Hlt].
  - destruct (pseudoinverse_tall HA Hn Hle HP)
      as (HsP & C & HPe & HCsym & HCN).
    assert (HPA : forall r l, r < n -> l < n ->
      fprod m (get P) (get A) r l = unit_entry r l).
    { intros r l Hr Hl. rewrite <- HCN by assumption.
      rewrite <- fprod_assoc. apply fprod_ext; intros k Hk;
        [now apply HPe | reflexivity]. }
    split; [exact HsP |]. split; [|split; [|split; [|split; [|split]]]].
    + intros i l Hi Hl. rewrite fprod_assoc.
      rewrite (fprod_ext n (get A) (get A) _ unit_entry i l)
        by (intros k Hk; first [reflexivity | now apply HPA]).
      now apply fprod_unit_r.
    + intros r k Hr Hk.
      rewrite (fprod_ext n _ unit_entry (get P) (get P) r k)
        by (intros l Hl; first [reflexivity | now apply HPA]).
      now apply fprod_unit_l.
    + intros r l Hr Hl. rewrite !HPA by assumption. apply unit_entry_sym.
    + intros i k Hi Hk. unfold fprod.
      rewrite (sum_to_ext n _
        (fun a => sum_to n (fun b =>
           mul (mul (get A i a) (get C a b)) (get A k b)))).
      2:{ intros a Ha. rewrite HPe by assumption.
          rewrite <- sum_to_scale. apply sum_to_ext. intros b _. ring. }
      rewrite (sum_to_ext n (fun a => mul (get A k a) (get P a i))
        (fun a => sum_to n (fun b =>
           mul (mul (get A k a) (get C a b)) (get A i b)))).
      2:{ intros a Ha. rewrite HPe by assumption.
          rewrite <- sum_to_scale. apply sum_to_ext. intros b _. ring. }
      now apply sandwich_symmetric.
    + intros _. exact HPA.
    + intros Hlt. lia.
  - destruct (pseudoinverse_wide HA Hm Hlt HP)
      as (HsP & C & HPe & HCsym & HNC).
    assert (HAP : forall i k, i < m -> k < m ->
      fprod n (get A) (get P) i k = unit_entry i k).
    { intros i k Hi Hk. rewrite <- HNC by assumption.
      rewrite fprod_assoc. apply fprod_ext; intros r Hr;
        [reflexivity | now apply HPe]. }
    split; [exact HsP |]. split; [|split; [|split; [|split; [|split]]]].
    + intros i l Hi Hl.
      rewrite (fprod_ext m _ unit_entry (get A) (get A) i l)
        by (intros k Hk; first [reflexivity | now apply HAP]).
      now apply fprod_unit_l.
    + intros r k Hr Hk. rewrite fprod_assoc.
      rewrite (fprod_ext m (get P) (get P) _ unit_entry r k)
        by (intros l Hl; first [reflexivity | now apply HAP]).
      now apply fprod_unit_r.
    + intros r l Hr Hl. unfold fprod.
      rewrite (sum_to_ext m _
        (fun b => sum_to m (fun a =>
           mul (mul (get A a r) (get C a b)) (get A b l)))).
      2:{ intros b Hb. rewrite HPe by assumption.
          rewrite (sum_to_ext m
            (fun a => mul (mul (get A a r) (get C a b)) (get A b l))
            (fun a => mul (get A b l) (mul (get A a r) (get C a b))))
            by (intros; ring).
          rewrite sum_to_scale. ring. }
      rewrite (sum_to_ext m (fun b => mul (get P l b) (get A b r))
        (fun b => sum_to m (fun a =>
           mul (mul (get A a l) (get C a b)) (get A b r)))).
      2:{ intros b Hb. rewrite HPe by assumption.
          rewrite (sum_to_ext m
            (fun a => mul (mul (get A a l) (get C a b)) (get A b r))
            (fun a => mul (get A b r) (mul (get A a l) (get C a b))))
            by (intros; ring).
          rewrite sum_to_scale. ring. }
      rewrite (sum_to_swap m m
        (fun b a => mul (mul (get A a r) (get C a b)) (get A b l))).
      rewrite (sum_to_swap m m
        (fun b a => mul (mul (get A a l) (get C a b)) (get A b r))).
      now apply sandwich_symmetric.
    + intros i k Hi Hk. rewrite !HAP by assumption. apply unit_entry_sym.
    + intros Hle. lia.
    + intros _. exact HAP.
Qed.

End PseudoinverseExact.

(** ** The triangular system; outcomes of the inversion *)

Section SolveReturned.
Context {K : Scalar}.

(** What [solve_qr] has checked and computed when it returns. *)
Lemma solve_qr_returned {m n} {Q R : Matrix} {b x : Vector} :
  shape m m Q -> shape m n R -> 0 < m -> n <= m ->
  QR.solve_qr Q R b = Ok x ->
  length b = m /\
  (forall i, i < n -> ltb (fabs (get R i i)) tiny = false) /\
  back_substituted n R (qt_b m Q b) x.
Proof.
  intros HQ HR Hm Hn. unfold QR.solve_qr.
  rewrite (cols0_ok HR Hm). cbn [bind]. rewrite (shape_length HQ).
  destruct (Nat.eqb_spec (length b) m) as [Hb|Hb]; cbn [negb];
    [|discriminate].
  destruct (qt_b_loop m Q b HQ Hb) as (y & Hy & Hlen & Hnth).
  rewrite Hy. cbn [bind].
  pose proof (back_substitution_loop m n R y HR Hlen Hn) as Hloop.
  cbv zeta in Hloop.
  pose proof (singular_diagonal_true n R) as Hsing.
  destruct (singular_diagonal n R).
  - rewrite Hloop. discriminate.
  - destruct Hloop as (x' & Hx & Hxlen & Hrec). rewrite Hx.
    intros H. injection H as <-. split; [exact Hb |]. split.
    + intros i Hi. destruct (ltb (fabs (get R i i)) tiny) eqn:Hbad;
        [|reflexivity].
      assert (false = true) by (apply Hsing; now exists i). discriminate.
    + split; [exact Hxlen |]. intros i Hi.
      rewrite Hrec by exact Hi. rewrite Hnth by lia. reflexivity.
Qed.

End SolveReturned.

Section SolveExact.
Context {K : Scalar} {E : ExactField K}.

Add Ring scalar_ring_solve : exact_ring.

Lemma fold_add_from (f : nat -> num) len :
  forall lo a,
    fold_left (fun acc j => add acc (f j)) (seq lo len) a =
    add a (fold_left (fun acc j => add acc (f j)) (seq lo len) zero).
Proof.
  induction len as [|len IH]; intros lo a; cbn [seq fold_left]; [ring |].
  rewrite (IH (S lo) (add a (f lo))), (IH (S lo) (add zero (f lo))). ring.
Qed.

(** A sum split at [i]: the terms before, the term at [i], the terms
    after. *)
Lemma sum_to_split n i f :
  i < n ->
  sum_to n f =
  add (add (sum_to i f) (f i))
      (fold_left (fun acc j => add acc (f j)) (seq (i + 1) (n - (i + 1))) zero).
Proof.
  intros Hi. unfold sum_to at 1.
  replace n with (S i + (n - (i + 1))) at 1 by lia.
  rewrite seq_app, fold_left_app.
  change (fold_left (fun acc k => add acc (f k)) (seq 0 (S i)) zero)
    with (sum_to (S i) f).
  rewrite sum_to_S, fold_add_from.
  replace (0 + S i) with (i + 1) by lia. reflexivity.
Qed.

(** Over a field, what [solve_qr] returns for an upper-triangular [R]
    solves [R x = Q^T b]. *)
Lemma solve_qr_solves {m n} {Q R : Matrix} {b x : Vector} :
  shape m m Q -> shape m n R -> 0 < m -> n <= m ->
  (forall i j, i < n -> j < i -> get R i j = zero) ->
  QR.solve_qr Q R b = Ok x ->
  length x = n /\
  forall i, i < n ->
    sum_to n (fun j => mul (get R i j) (nth j x zero)) = qt_b m Q b i.
Proof.
  intros HQ HR Hm Hn Htri Hx.
  destruct (solve_qr_returned HQ HR Hm Hn Hx) as (Hb & Hdiag & Hlen & Hrec).
  split; [exact Hlen |]. intros i Hi.
  rewrite (sum_to_split n i _ Hi).
  rewrite (sum_to_ext i _ (fun _ => zero))
    by (intros j Hj; rewrite Htri by lia; ring).
  rewrite sum_to_zero.
  change (fold_left _ (seq (i + 1) (n - (i + 1))) zero)
    with (back_sum n R x i).
  rewrite (Hrec i Hi) at 1.
  pose proof (pivot_nonzero _ (Hdiag i Hi)) as Hnz.
  rewrite div_def.
  transitivity (add (mul (mul (div one (get R i i)) (get R i i))
                         (sub (qt_b m Q b i) (back_sum n R x i)))
                    (back_sum n R x i)); [ring |].
  rewrite div_inv by exact Hnz. ring.
Qed.

End SolveExact.

Section InverseOutcomes.
Context {K : Scalar}.

(** The outcomes of [inverse] on a rectangular array. *)
Lemma inverse_outcomes {m n} {A : Matrix} :
  shape m n A ->
  (Pinv.inverse A = Err NonSquareMatrix <-> m = 0 \/ m <> n) /\
  (forall e, Pinv.inverse A = Err e ->
             e = NonSquareMatrix \/ e = SingularMatrix) /\
  (forall B, Pinv.inverse A = Ok B -> 0 < m /\ m = n /\ shape n n B).
Proof.
  intros HA.
  destruct (Nat.eq_dec m 0) as [Hm0|Hm0].
  { subst m. destruct HA as [Hlen _]. destruct A; [|discriminate Hlen].
    cbn. split; [split; [now left | reflexivity] |].
    split; [intros e H; injection H as <-; now left | discriminate]. }
  destruct (Nat.eq_dec m n) as [Heq|Hne].
  - subst n. assert (Hm : 0 < m) by lia.
    destruct (inverse_square_cases HA Hm)
      as [(B & HB & HsB & _)|(Herr & _)].
    + rewrite HB. split; [split; [discriminate | lia] |].
      split; [discriminate |]. intros B' H. injection H as <-.
      split; [exact Hm | split; [reflexivity | exact HsB]].
    + rewrite Herr. split; [split; [discriminate | lia] |].
      split; [intros e H; injection H as <-; now right | discriminate].
  - rewrite (inverse_nonsquare HA Hne).
    split; [split; [now right | reflexivity] |].
    split; [intros e H; injection H as <-; now left | discriminate].
Qed.

End InverseOutcomes.

Section ProductsAgree.
Context {K : Scalar} {E : ExactField K}.

(** Over a field the two product routines return the same matrix. *)
Lemma multiply_matmul_same {m n p} {A B : Matrix} :
  shape m n A -> shape n p B -> 0 < m -> 0 < n ->
  Pinv.multiply A B = QR.matmul A B.
Proof.
  intros HA HB Hm Hn.
  destruct (matmul_spec HA HB Hm Hn (le_n n)) as (C & HC & HsC & HgC).
  destruct (multiply_spec HA HB Hn (le_n n)) as (C' & HC' & HsC' & HgC').
  rewrite HC, HC'. f_equal. apply (shape_ext m p); [exact HsC' | exact HsC |].
  intros i j Hi Hj. rewrite HgC, HgC' by assumption.
  apply dot_skip_dot_sum.
Qed.

End ProductsAgree.

Section EmptyNorm.
Context {K : Scalar} {SQ : ScalarSqrt K}.

Lemma pseudoinverse_empty {m n} {A : Matrix} :
  shape m n A -> m = 0 \/ n = 0 -> Pinv.pseudoinverse A = Ok [].
Proof.
  intros HA Hempty. unfold Pinv.pseudoinverse.
  destruct A as [|r0 A']; [reflexivity |].
  assert (Hm : 0 < m) by (destruct HA as [H _]; simpl in H; lia).
  assert (Hr0 : length r0 = n) by exact (shape_row (i := 0) HA Hm).
  rewrite Hr0. destruct Hempty as [->| ->]; [lia |].
  now rewrite orb_true_r.
Qed.

Lemma frobenius_norm_no_columns m (A : Matrix) :
  shape m 0 A -> Pinv.frobenius_norm A = sqrt zero.
Proof.
  intros [_ HA]. unfold Pinv.frobenius_norm. f_equal.
  induction HA as [|r A' Hr _ IH]; [reflexivity |].
  destruct r; [|discriminate Hr]. exact IH.
Qed.

End EmptyNorm.

(** ** The comparison of the tests *)

Section ApproxEqual.
Context {K : Scalar}.

(** On two matrices of one shape, with a row, [matrices_approx_equal]
    reads no element outside them and answers whether no element
    differs. *)
Lemma approx_equal_same_shape {m n} {A B : Matrix} (eps : num) :
  shape m n A -> shape m n B -> 0 < m ->
  exists same, Tests.matrices_approx_equal A B eps = Ok same /\
    (same = true <->
     forall i j, i < m -> j < n -> differs eps A B i j = false).
Proof.
  intros HA HB Hm. unfold Tests.matrices_approx_equal.
  rewrite (shape_length HA), (shape_length HB), Nat.eqb_refl.
  destruct (Nat.eqb_spec m 0); [lia |]. cbn [negb orb].
  rewrite (cols0_ok HA Hm), (cols0_ok HB Hm). cbn [bind].
  rewrite Nat.eqb_refl. cbn [negb].
  apply (for_range_ind (fun i same =>
    same = true <->
    forall i' j, i' < i -> j < n -> differs eps A B i' j = false));
    [lia | split; [intros _ i' j Hi'; lia | reflexivity] |].
  intros i same Hi Hsame. destruct same.
  - destruct (for_range_ind (fun j same =>
      same = true <->
      forall j', j' < j -> differs eps A B i j' = false)
      (fun j same =>
         if same : bool then
           a <- mget A i j ;;
           b <- mget B i j ;;
           Ok (negb (gtb (fabs (sub a b)) eps))
         else Ok false) 0 n true) as (same & Hrun & Hrow).
    + lia.
    + split; [intros _ j' Hj'; lia | reflexivity].
    + intros j same Hj Hrow. destruct same.
      * rewrite (mget_ok i j HA), (mget_ok i j HB) by lia. cbn [bind].
        eexists. split; [reflexivity |].
        fold (differs eps A B i j). split.
        -- intros Hd j' Hj'. destruct (Nat.eq_dec j' j) as [->|Hne].
           ++ now destruct (differs eps A B i j).
           ++ apply Hrow; [reflexivity | lia].
        -- intros Hall. rewrite (Hall j) by lia. reflexivity.
      * exists false. split; [reflexivity |]. split; [discriminate |].
        intros Hall. apply Hrow. intros j' Hj'. apply Hall. lia.
    + exists same. split; [exact Hrun |]. rewrite Hrow. split.
      * intros Hall i' j Hi' Hj. destruct (Nat.eq_dec i' i) as [->|Hne].
        -- now apply Hall.
        -- apply Hsame; [reflexivity | lia | exact Hj].
      * intros Hall j Hj. apply Hall; [lia | exact Hj].
  - exists false. split.
    + reflexivity.
    + split; [discriminate |]. intros Hall. apply Hsame.
      intros i' j Hi' Hj. apply Hall; [lia | exact Hj].
Qed.

(** Matrices with different numbers of rows, or without rows, are never
    equal; nor are matrices whose first rows differ in length. *)
Lemma approx_equal_rejects (A B : Matrix) (eps : num) :
  (length A <> length B \/ A = [] \/ B = [] ->
   Tests.matrices_approx_equal A B eps = Ok false) /\
  (length A = length B -> length (nth 0 A []) <> length (nth 0 B []) ->
   Tests.matrices_approx_equal A B eps = Ok false).
Proof.
  unfold Tests.matrices_approx_equal. split.
  - intros [H|[->| ->]].
    + destruct (Nat.eqb_spec (length A) (length B)); [contradiction |].
      reflexivity.
    + cbn [length]. now rewrite Nat.eqb_refl, orb_true_r.
    + cbn [length]. now rewrite Nat.eqb_refl, orb_true_r.
  - intros Hlen Hrow. rewrite Hlen, Nat.eqb_refl. cbn [negb orb].
    destruct A as [|a A'], B as [|b B']; try discriminate Hlen;
      [reflexivity |].
    cbn -[Nat.eqb] in *.
    destruct (Nat.eqb_spec (length a) (length b)); [contradiction |].
    reflexivity.
Qed.

End ApproxEqual.

(** A NaN takes part in no true comparison: where one of the two elements
    is a NaN, [matrices_approx_equal] sees no difference. *)
Lemma prim_sub_nan (x : float) : Prim2SF (x - nan)%float = S754_nan.
Proof.
  rewrite sub_spec. change (Prim2SF nan) with S754_nan.
  destruct (Prim2SF x) as [s|s| |s m e]; reflexivity.
Qed.

Lemma prim_ltb_nan_r (x y : float) :
  Prim2SF y = S754_nan -> (x <? y)%float = false.
Proof.
  intros Hy. rewrite ltb_spec, Hy. unfold SFltb.
  destruct (Prim2SF x) as [s|s| |s m e]; try destruct s; reflexivity.
Qed.

Lemma differs_nan (eps : @num double) (A B : @Matrix double) i j :
  get B i j = nan -> differs eps A B i j = false.
Proof.
  intros HB. unfold differs, gtb. rewrite HB. cbn [ltb fabs sub double].
  apply prim_ltb_nan_r. rewrite abs_spec, prim_sub_nan. reflexivity.
Qed.

(** ** Dijkstra: the loop ends *)

Section GraphAccess.

Lemma at_index_returned {A : Type} (l : list A) i x :
  at_index l i = Returned x <->
  (0 <= i)%Z /\ nth_error l (Z.to_nat i) = Some x.
Proof.
  unfold at_index. destruct (Z.ltb_spec i 0).
  - split; [discriminate | lia].
  - destruct (nth_error l (Z.to_nat i)) as [y|].
    + split; [intros H0; injection H0 as <-; now split |].
      intros [_ H0]. now injection H0 as <-.
    + split; [discriminate | intros [_ H0]; discriminate].
Qed.

Lemma at_index_cases {A : Type} (l : list A) i :
  (exists x, at_index l i = Returned x) \/ at_index l i = OutOfRange.
Proof.
  unfold at_index. destruct (i <? 0)%Z; [now right |].
  destruct (nth_error l (Z.to_nat i)); [left; eauto | now right].
Qed.

Lemma at_index_node {A : Type} (l : list A) i :
  is_node (length l) i -> exists x, at_index l i = Returned x.
Proof.
  intros [H0 H1]. unfold at_index.
  destruct (Z.ltb_spec i 0); [lia |].
  destruct (nth_error l (Z.to_nat i)) as [x|] eqn:Hx; [eauto |].
  apply nth_error_None in Hx. lia.
Qed.

Lemma at_index_is_node {A : Type} (l : list A) i x :
  at_index l i = Returned x -> is_node (length l) i.
Proof.
  intros H. apply at_index_returned in H. destruct H as [H0 H1].
  assert (Z.to_nat i < length l) by (apply nth_error_Some; congruence).
  unfold is_node. lia.
Qed.

Lemma assign_returned {A : Type} (l : list A) i x l' :
  assign l i x = Returned l' <->
  is_node (length l) i /\ l' = set_nth l (Z.to_nat i) x.
Proof.
  unfold assign, is_node. destruct (Z.ltb_spec i 0).
  - split; [discriminate | lia].
  - destruct (Nat.ltb_spec (Z.to_nat i) (length l)).
    + split; [intros H1; injection H1 as <-; split; [lia | reflexivity] |].
      now intros [_ ->].
    + split; [discriminate | lia].
Qed.

Lemma assign_cases {A : Type} (l : list A) i x :
  (exists l', assign l i x = Returned l') \/ assign l i x = OutOfRange.
Proof.
  unfold assign. destruct (i <? 0)%Z; [now right |].
  destruct (Z.to_nat i <? length l); [left; eauto | now right].
Qed.

Lemma assign_node {A : Type} (l : list A) i x :
  is_node (length l) i -> assign l i x = Returned (set_nth l (Z.to_nat i) x).
Proof. intros H. now apply assign_returned. Qed.

End GraphAccess.

Section Termination.
Context {W : Weight} (Q : PriorityQueue).

Lemma pending_le (adj : AdjList) :
  forall visited, pending adj visited <= edge_count adj.
Proof.
  induction adj as [|edges adj IH]; intros [|seen visited];
    cbn [pending]; try lia.
  specialize (IH visited).
  change (edge_count (edges :: adj)) with (length edges + edge_count adj).
  destruct seen; lia.
Qed.

Lemma pending_visit (adj : AdjList) :
  forall visited u edges,
    nth_error adj u = Some edges -> nth_error visited u = Some false ->
    pending adj visited = length edges + pending adj (set_nth visited u true).
Proof.
  induction adj as [|e adj IH]; intros [|seen visited] [|u] edges Ha Hv;
    try discriminate.
  - cbn in Ha, Hv. injection Ha as ->. injection Hv as ->. reflexivity.
  - cbn in Ha, Hv.
    change (set_nth (seen :: visited) (S u) true)
      with (seen :: set_nth visited u true).
    cbn [pending]. rewrite (IH visited u edges Ha Hv). lia.
Qed.

(** [relax] keeps the length of [dist] and pushes at most one item for
    each edge. *)
Lemma relax_sizes d edges :
  forall dist q dist' q',
    relax Q d edges dist q = Returned (dist', q') ->
    length dist' = length dist /\
    length (pq_items Q q') <= length (pq_items Q q) + length edges.
Proof.
  induction edges as [|[v w] rest IH]; intros dist q dist' q' H; cbn in H.
  - injection H as <- <-. cbn. lia.
  - destruct (w_ltb w w_zero); [discriminate |].
    destruct (at_index dist v) as [dv| | |]; try discriminate. cbn in H.
    destruct (w_ltb (w_add d w) dv).
    + destruct (assign dist v (w_add d w)) as [dist1| | |] eqn:Ha;
        try discriminate.
      cbn in H. apply assign_returned in Ha. destruct Ha as [Hv ->].
      apply IH in H. destruct H as [Hl Hq].
      rewrite set_nth_length in Hl by (destruct Hv; lia).
      split; [exact Hl |].
      rewrite (Permutation_length (pq_push_items Q _ q)) in Hq. cbn in *. lia.
    + apply IH in H. cbn. lia.
Qed.

(** Each turn of the loop uses up an item of the queue or an edge. *)
Lemma turn_measure adj dist visited q dist' visited' q' :
  turn Q adj dist visited q = Some (Returned (dist', visited', q')) ->
  length (pq_items Q q') + pending adj visited' <
  length (pq_items Q q) + pending adj visited.
Proof.
  unfold turn. destruct (pq_pop Q q) as [[[d u] q0]|] eqn:Hpop;
    [|discriminate].
  pose proof (Permutation_length (pq_pop_some Q q _ _ Hpop)) as Hlen.
  cbn in Hlen. intros H. injection H as H.
  destruct (at_index visited u) as [seen| | |] eqn:Hseen; try discriminate.
  cbn in H. destruct seen.
  - injection H as <- <- <-. lia.
  - destruct (assign visited u true) as [visited1| | |] eqn:Hv;
      try discriminate. cbn in H.
    destruct (at_index adj u) as [edges| | |] eqn:He; try discriminate.
    cbn in H.
    destruct (relax Q d edges dist q0) as [[dist1 q1]| | |] eqn:Hr;
      try discriminate. cbn in H. injection H as <- <- <-.
    apply relax_sizes in Hr. destruct Hr as [_ Hq].
    apply assign_returned in Hv. destruct Hv as [_ ->].
    apply at_index_returned in Hseen, He.
    rewrite (pending_visit adj visited (Z.to_nat u) edges)
      by (apply He || apply Hseen). lia.
Qed.

Lemma drain_returns adj :
  forall fuel dist visited q,
    length (pq_items Q q) + pending adj visited < fuel ->
    exists r, drain Q fuel adj dist visited q = Some r.
Proof.
  induction fuel as [|fuel IH]; intros dist visited q Hlt; [lia |].
  cbn [drain].
  destruct (turn Q adj dist visited q) as [[[[dist' visited'] q']| | |]|]
    eqn:Ht; eauto.
  apply turn_measure in Ht. apply IH. lia.
Qed.

Lemma drain_more adj r :
  forall fuel dist visited q,
    drain Q fuel adj dist visited q = Some r ->
    forall fuel', fuel <= fuel' ->
                  drain Q fuel' adj dist visited q = Some r.
Proof.
  induction fuel as [|fuel IH]; intros dist visited q H fuel' Hle;
    [discriminate |].
  destruct fuel' as [|fuel']; [lia |]. cbn [drain] in *.
  destruct (turn Q adj dist visited q) as [[[[dist' visited'] q']| | |]|];
    try exact H.
  apply (IH _ _ _ H). lia.
Qed.

Lemma dijkstra_in_returns n adj source :
  exists r, dijkstra Q n adj source = Some r /\
            forall fuel, edge_count adj + 2 <= fuel ->
                         dijkstra_in Q fuel n adj source = Some r.
Proof.
  unfold dijkstra, dijkstra_in.
  destruct (n <? 0)%Z; [eauto |].
  destruct (assign (repeat w_inf (Z.to_nat n)) source w_zero)
    as [dist| | |]; eauto.
  destruct (drain_returns adj (edge_count adj + 2) dist
              (repeat false (Z.to_nat n))
              (pq_push Q (w_zero, source) (pq_empty Q))) as (r & Hr).
  { rewrite (Permutation_length (pq_push_items Q _ _)), pq_empty_items.
    pose proof (pending_le adj (repeat false (Z.to_nat n))). cbn. lia. }
  exists r. split; [exact Hr |]. intros fuel Hle.
  now apply (drain_more adj r _ _ _ _ Hr).
Qed.

End Termination.

(** ** Dijkstra: what the outcomes tell *)

Section Soundness.
Context {W : Weight} (Q : PriorityQueue).
Variables (n : nat) (adj : AdjList) (s : Z).

Lemma dist_at_set_nth dist v x u :
  is_node (length dist) v -> is_node (length dist) u ->
  dist_at (set_nth dist (Z.to_nat v) x) u =
  if (u =? v)%Z then x else dist_at dist u.
Proof.
  intros Hv Hu. unfold dist_at.
  rewrite nth_set_nth by (destruct Hv; lia).
  destruct (Z.eqb_spec u v) as [->|Hne].
  - now rewrite Nat.eqb_refl.
  - destruct (Nat.eqb_spec (Z.to_nat u) (Z.to_nat v)) as [He|_];
      [|reflexivity].
    destruct Hu, Hv. lia.
Qed.

Lemma relax_sound d u edges :
  walk adj s u d -> is_node n u ->
  (forall e, In e edges -> In e (edges_of adj u)) ->
  forall dist q,
    dist_sound n adj s dist -> items_sound n adj s (pq_items Q q) ->
    match relax Q d edges dist q with
    | Returned (dist', q') =>
        dist_sound n adj s dist' /\ items_sound n adj s (pq_items Q q')
    | NegativeWeight =>
        exists v w, In (v, w) edges /\ w_ltb w w_zero = true
    | OutOfRange => exists v w, In (v, w) edges /\ ~ is_node n v
    | LengthError => False
    end.
Proof.
  intros Hwalk Hu.
  induction edges as [|[v w] rest IH]; intros Hin dist q Hd Hq;
    cbn [relax]; [now split |].
  destruct (w_ltb w w_zero) eqn:Hneg; [exists v, w; split; [now left | easy] |].
  assert (Hrest : forall e, In e rest -> In e (edges_of adj u))
    by (intros e He; apply Hin; now right).
  assert (Hlift : forall dist' q',
    dist_sound n adj s dist' -> items_sound n adj s (pq_items Q q') ->
    match relax Q d rest dist' q' with
    | Returned (dist'', q'') =>
        dist_sound n adj s dist'' /\ items_sound n adj s (pq_items Q q'')
    | NegativeWeight =>
        exists v0 w0, In (v0, w0) ((v, w) :: rest) /\ w_ltb w0 w_zero = true
    | OutOfRange =>
        exists v0 w0, In (v0, w0) ((v, w) :: rest) /\ ~ is_node n v0
    | LengthError => False
    end).
  { intros dist' q' Hd' Hq'. specialize (IH Hrest dist' q' Hd' Hq').
    destruct (relax Q d rest dist' q') as [[dist'' q'']| | |];
      [exact IH | | exact IH |];
      destruct IH as (v0 & w0 & H0 & H1); exists v0, w0;
      (split; [now right | exact H1]). }
  destruct Hd as [Hlen Hd].
  destruct (at_index dist v) as [dv| | |] eqn:Hdv; cbn [and_then].
  - pose proof (at_index_is_node _ _ _ Hdv) as Hv.
    destruct (w_ltb (w_add d w) dv).
    + rewrite (assign_node dist v _ Hv). cbn [and_then].
      rewrite Hlen in Hv.
      assert (Hnew : walk adj s v (w_add d w))
        by (apply (walk_edge adj s u); [exact Hwalk | apply Hin; now left]).
      apply Hlift.
      * split; [rewrite set_nth_length; [exact Hlen | destruct Hv; lia] |].
        intros x Hx. rewrite dist_at_set_nth by (rewrite Hlen; assumption).
        destruct (Z.eqb_spec x v) as [->|_]; [now right | now apply Hd].
      * intros d0 u0 H0.
        apply (Permutation_in _ (pq_push_items Q _ q)) in H0.
        destruct H0 as [H0|H0]; [|now apply Hq].
        injection H0 as <- <-. now split.
    + apply Hlift; [now split | exact Hq].
  - destruct (at_index_cases dist v) as [(x & Hx)|Hx]; congruence.
  - destruct (at_index_cases dist v) as [(x & Hx)|Hx]; congruence.
  - exists v, w. split; [now left |]. intros Hv. rewrite <- Hlen in Hv.
    destruct (at_index_node dist v Hv) as (x & Hx). congruence.
Qed.

Lemma edges_of_entry u edges :
  at_index adj u = Returned edges -> edges_of adj u = edges.
Proof. intros H. unfold edges_of. now rewrite H. Qed.

Lemma turn_sound dist visited q :
  dist_sound n adj s dist -> length visited = n ->
  items_sound n adj s (pq_items Q q) ->
  match turn Q adj dist visited q with
  | None => True
  | Some (Returned (dist', visited', q')) =>
      dist_sound n adj s dist' /\ length visited' = n /\
      items_sound n adj s (pq_items Q q')
  | Some r => outcome_sound n adj s (dist' <~ r ;; Returned (fst (fst dist')))
  end.
Proof.
  intros Hd Hv Hq. unfold turn.
  destruct (pq_pop Q q) as [[[d u] q0]|] eqn:Hpop; [|exact I].
  pose proof (pq_pop_some Q q _ _ Hpop) as Hperm.
  destruct (Hq d u) as [Hu Hwalk];
    [apply (Permutation_in _ (Permutation_sym Hperm)); now left |].
  assert (Hq0 : items_sound n adj s (pq_items Q q0)).
  { intros d0 u0 H0. apply Hq.
    apply (Permutation_in _ (Permutation_sym Hperm)). now right. }
  rewrite <- Hv in Hu.
  destruct (at_index_node visited u Hu) as (seen & Hseen).
  rewrite Hseen. cbn [and_then].
  destruct seen; [split; [exact Hd | split; [exact Hv | exact Hq0]] |].
  rewrite (assign_node visited u true Hu). cbn [and_then].
  rewrite Hv in Hu.
  destruct (at_index adj u) as [edges| | |] eqn:He; cbn [and_then].
  - pose proof (relax_sound d u edges Hwalk Hu) as Hr.
    rewrite (edges_of_entry u edges He) in Hr.
    specialize (Hr (fun e H => H) dist q0 Hd Hq0).
    destruct (relax Q d edges dist q0) as [[dist' q']| | |];
      cbn [and_then].
    + destruct Hr as [Hd' Hq']. split; [exact Hd' |].
      split; [|exact Hq'].
      rewrite set_nth_length; [exact Hv | destruct Hu; lia].
    + destruct Hr as (v & w & Hin & Hneg). exists u, d, v, w.
      rewrite (edges_of_entry u edges He).
      split; [exact Hwalk | split; [exact Hu | split; [exact Hin | exact Hneg]]].
    + exact Hr.
    + destruct Hr as (v & w & Hin & Hbad). exists u, d.
      split; [exact Hwalk |]. split; [exact Hu |]. right. exists v, w.
      rewrite (edges_of_entry u edges He). now split.
  - destruct (at_index_cases adj u) as [(x & Hx)|Hx]; congruence.
  - destruct (at_index_cases adj u) as [(x & Hx)|Hx]; congruence.
  - exists u, d. split; [exact Hwalk |]. split; [exact Hu |]. left.
    destruct (Nat.le_gt_cases (length adj) (Z.to_nat u)) as [H|H];
      [exact H |].
    destruct (at_index_node adj u) as (x & Hx); [|congruence].
    destruct Hu. unfold is_node. lia.
Qed.

Lemma drain_sound :
  forall fuel dist visited q r,
    dist_sound n adj s dist -> length visited = n ->
    items_sound n adj s (pq_items Q q) ->
    drain Q fuel adj dist visited q = Some r ->
    outcome_sound n adj s r.
Proof.
  induction fuel as [|fuel IH]; intros dist visited q r Hd Hv Hq H;
    [discriminate |].
  cbn [drain] in H. pose proof (turn_sound dist visited q Hd Hv Hq) as Ht.
  destruct (turn Q adj dist visited q) as [[[[dist' visited'] q']| | |]|].
  - destruct Ht as (Hd' & Hv' & Hq'). exact (IH _ _ _ _ Hd' Hv' Hq' H).
  - injection H as <-. exact Ht.
  - destruct Ht.
  - injection H as <-. exact Ht.
  - injection H as <-. exact Hd.
Qed.

End Soundness.

Section DijkstraSound.
Context {W : Weight} (Q : PriorityQueue).

Lemma nth_repeat_any {A : Type} (x d : A) k i :
  i < k -> nth i (repeat x k) d = x.
Proof. intros H. now apply nth_repeat_lt. Qed.

(** The state [dijkstra] enters the loop with. *)
Lemma initial_sound n adj source :
  is_node n source ->
  dist_sound n adj source (set_nth (repeat w_inf n) (Z.to_nat source) w_zero) /\
  items_sound n adj source
    (pq_items Q (pq_push Q (w_zero, source) (pq_empty Q))).
Proof.
  intros Hs. split; [split |].
  - rewrite set_nth_length; rewrite repeat_length;
      [reflexivity | destruct Hs; lia].
  - intros v Hv.
    rewrite dist_at_set_nth by (rewrite repeat_length; assumption).
    destruct (Z.eqb_spec v source) as [->|_]; [right; constructor |].
    left. unfold dist_at. apply nth_repeat_any. destruct Hv. lia.
  - intros d u H. apply (Permutation_in _ (pq_push_items Q _ _)) in H.
    rewrite pq_empty_items in H. destruct H as [H|[]].
    injection H as <- <-. split; [exact Hs | constructor].
Qed.

(** The outcomes of [dijkstra_in], when the turns do not run out. *)
Lemma dijkstra_in_sound fuel n adj source r :
  dijkstra_in Q fuel n adj source = Some r ->
  match r with
  | LengthError => (n < 0)%Z
  | OutOfRange =>
      (0 <= n)%Z /\
      (~ is_node (Z.to_nat n) source \/
       outcome_sound (Z.to_nat n) adj source OutOfRange)
  | _ => (0 <= n)%Z /\ is_node (Z.to_nat n) source /\
         outcome_sound (Z.to_nat n) adj source r
  end.
Proof.
  unfold dijkstra_in. destruct (Z.ltb_spec n 0) as [Hn|Hn].
  { intros H. injection H as <-. exact Hn. }
  destruct (assign (repeat w_inf (Z.to_nat n)) source w_zero)
    as [dist| | |] eqn:Ha.
  - apply assign_returned in Ha. rewrite repeat_length in Ha.
    destruct Ha as [Hs ->]. intros H.
    destruct (initial_sound (Z.to_nat n) adj source Hs) as [Hd Hq].
    pose proof (drain_sound Q (Z.to_nat n) adj source fuel _ _ _ r Hd
                  (repeat_length false (Z.to_nat n)) Hq H) as Hr.
    destruct r;
      [split; [exact Hn | split; [exact Hs | exact Hr]]
      |split; [exact Hn | split; [exact Hs | exact Hr]]
      |destruct Hr |].
    split; [exact Hn | now right].
  - destruct (assign_cases (repeat w_inf (Z.to_nat n)) source w_zero)
      as [(x & Hx)|Hx]; congruence.
  - destruct (assign_cases (repeat w_inf (Z.to_nat n)) source w_zero)
      as [(x & Hx)|Hx]; congruence.
  - intros H. injection H as <-. split; [exact Hn |]. left. intros Hs.
    rewrite (assign_node (repeat w_inf (Z.to_nat n)) source w_zero) in Ha
      by (rewrite repeat_length; exact Hs).
    discriminate.
Qed.

End DijkstraSound.

(** ** Dijkstra: shortest walks *)

Section Shortest.
Context {W : Weight} {O : OrderedWeight W} (Q : PriorityQueue).
Variables (n : nat) (adj : AdjList) (s : Z).
Hypothesis Hfirst : pops_first Q.
Hypothesis Hwf : well_formed n adj = true.
Hypothesis Hs : is_node n s.

Lemma le_trans3 (a b c : weight) : a <=w b -> b <=w c -> a <=w c.
Proof. apply w_le_trans. Qed.

Lemma wf_entry u : is_node n u -> at_index adj u = Returned (edges_of adj u).
Proof.
  intros Hu. unfold well_formed in Hwf. apply andb_prop in Hwf.
  destruct Hwf as [Hlen _]. apply Nat.leb_le in Hlen.
  destruct (at_index_node adj u) as (edges & He);
    [destruct Hu; unfold is_node; lia |].
  now rewrite (edges_of_entry adj u edges He).
Qed.

Lemma wf_edge u v w :
  is_node n u -> In (v, w) (edges_of adj u) ->
  is_node n v /\ w_zero <=w w.
Proof.
  intros Hu Hin. pose proof (wf_entry u Hu) as He.
  apply at_index_returned in He. destruct He as [_ He].
  unfold well_formed in Hwf. apply andb_prop in Hwf.
  destruct Hwf as [_ Hall]. rewrite forallb_forall in Hall.
  assert (Hrow : In (edges_of adj u) (firstn n adj)).
  { apply (nth_error_In _ (Z.to_nat u)). rewrite nth_error_firstn.
    destruct (Nat.ltb_spec (Z.to_nat u) n) as [_|H]; [exact He |].
    destruct Hu. lia. }
  apply Hall in Hrow. rewrite forallb_forall in Hrow.
  apply Hrow in Hin. unfold edge_ok in Hin. cbn [fst snd] in Hin.
  apply andb_prop in Hin. destruct Hin as [Hin Hw].
  apply andb_prop in Hin. destruct Hin as [H0 H1].
  split; [unfold is_node; lia |]. now destruct (w_ltb w w_zero).
Qed.

Lemma dist_at_index dist v :
  length dist = n -> is_node n v ->
  at_index dist v = Returned (dist_at dist v).
Proof.
  intros Hlen Hv. apply at_index_returned. split; [apply Hv |].
  unfold dist_at. apply nth_error_nth'. destruct Hv. lia.
Qed.

Lemma seen_index visited u :
  length visited = n -> is_node n u ->
  at_index visited u = Returned (seen visited u).
Proof.
  intros Hlen Hu. apply at_index_returned. split; [apply Hu |].
  unfold seen. apply nth_error_nth'. destruct Hu. lia.
Qed.

Lemma seen_set visited u x :
  length visited = n -> is_node n u -> is_node n x ->
  seen (set_nth visited (Z.to_nat u) true) x =
  if (x =? u)%Z then true else seen visited x.
Proof.
  intros Hlen Hu Hx. unfold seen.
  rewrite nth_set_nth by (destruct Hu; lia).
  destruct (Z.eqb_spec x u) as [->|Hne]; [now rewrite Nat.eqb_refl |].
  destruct (Nat.eqb_spec (Z.to_nat x) (Z.to_nat u)); [|reflexivity].
  destruct Hu, Hx. lia.
Qed.

Lemma relaxing_done d u visited done done' dist items :
  (forall e, In e done' -> In e done) ->
  relaxing n adj s d u visited done dist items ->
  relaxing n adj s d u visited done' dist items.
Proof.
  intros Hsub (H1 & H2 & H3 & H4 & H5 & H6 & H7).
  split; [exact H1 |]. split; [exact H2 |]. split; [exact H3 |].
  split; [exact H4 |]. split; [exact H5 |].
  split; [|exact H7]. intros v w Hin. apply H6, Hsub, Hin.
Qed.

(** One edge. *)
Lemma relax_edge d u visited done dist q v w :
  is_node n u -> seen visited u = true ->
  is_node n v -> w_zero <=w w ->
  relaxing n adj s d u visited done dist (pq_items Q q) ->
  exists dist' q',
    (dv <~ at_index dist v ;;
     if w_ltb (w_add d w) dv then
       dist' <~ assign dist v (w_add d w) ;;
       Returned (dist', pq_push Q (w_add d w, v) q)
     else Returned (dist, q)) = Returned (dist', q') /\
    relaxing n adj s d u visited ((v, w) :: done) dist' (pq_items Q q').
Proof.
  intros Hu Hseen Hv Hw (Hlen & Hit & Hvd & Hun & He & Hed & Hdd & Ht & Hz).
  rewrite (dist_at_index dist v Hlen Hv). cbn [and_then].
  assert (Hda : d <=w w_add d w) by (now apply w_add_nonneg).
  destruct (w_ltb (w_add d w) (dist_at dist v)) eqn:Hlt.
  - assert (Hvn : is_node (length dist) v) by (now rewrite Hlen).
    rewrite (assign_node dist v _ Hvn). cbn [and_then].
    do 2 eexists. split; [reflexivity |].
    set (alt := w_add d w) in *.
    set (dist' := set_nth dist (Z.to_nat v) alt).
    assert (Hunseen : seen visited v = false).
    { destruct (seen visited v) eqn:Hsv; [|reflexivity].
      pose proof (le_trans3 _ _ _ (Hvd v Hv Hsv) Hda). congruence. }
    assert (Hat : forall x, is_node n x ->
      dist_at dist' x = if (x =? v)%Z then alt else dist_at dist x).
    { intros x Hx. unfold dist'. apply dist_at_set_nth; now rewrite Hlen. }
    assert (Hle : alt <=w dist_at dist v) by (now apply w_lt_le).
    assert (Hdec : forall x, dist_at dist' x <=w dist_at dist x).
    { intros x. unfold dist', dist_at.
      rewrite nth_set_nth by (destruct Hv; lia).
      destruct (Nat.eqb_spec (Z.to_nat x) (Z.to_nat v)) as [->|_];
        [exact Hle | apply w_le_refl]. }
    assert (Hkeep : forall x, is_node n x -> seen visited x = true ->
      dist_at dist' x = dist_at dist x).
    { intros x Hx Hsx. rewrite Hat by exact Hx.
      destruct (Z.eqb_spec x v) as [->|_]; [congruence | reflexivity]. }
    assert (Hin : forall y, In y (pq_items Q (pq_push Q (alt, v) q)) <->
                            y = (alt, v) \/ In y (pq_items Q q)).
    { intros y. split; intros H.
      - apply (Permutation_in _ (pq_push_items Q _ q)) in H.
        destruct H as [H|H]; [now left | now right].
      - apply (Permutation_in _ (Permutation_sym (pq_push_items Q _ q))).
        destruct H as [H|H]; [now left | now right]. }
    split; [unfold dist'; rewrite set_nth_length;
            [exact Hlen | destruct Hv; lia] |].
    split; [|split; [|split; [|split; [|split; [|split; [|split]]]]]].
    + intros k x Hk. apply Hin in Hk. destruct Hk as [Hk|Hk].
      * injection Hk as -> ->. split; [exact Hv |].
        rewrite Hat, Z.eqb_refl by exact Hv.
        split; [apply w_le_refl |]. split; [|exact Hda].
        exact (le_trans3 _ _ _ Hle (Ht v Hv)).
      * destruct (Hit k x Hk) as (Hx & Hk1 & Hk2 & Hk3).
        split; [exact Hx |]. split; [|split; assumption].
        exact (le_trans3 _ _ _ (Hdec x) Hk1).
    + intros x Hx Hsx. rewrite Hkeep by assumption. now apply Hvd.
    + intros x Hx Hsx. rewrite Hat by exact Hx.
      destruct (Z.eqb_spec x v) as [->|_].
      * left. apply Hin. now left.
      * destruct (Hun x Hx Hsx) as [H|H]; [left; apply Hin; now right |].
        now right.
    + intros x v0 w0 Hx Hne Hsx Hin0. rewrite (Hkeep x Hx Hsx).
      exact (le_trans3 _ _ _ (Hdec v0) (He x v0 w0 Hx Hne Hsx Hin0)).
    + intros v0 w0 [H0|H0].
      * injection H0 as <- <-. rewrite Hat, Z.eqb_refl by exact Hv.
        apply w_le_refl.
      * exact (le_trans3 _ _ _ (Hdec v0) (Hed v0 w0 H0)).
    + rewrite (Hkeep u Hu Hseen). exact Hdd.
    + intros x Hx. exact (le_trans3 _ _ _ (Hdec x) (Ht x Hx)).
    + exact (le_trans3 _ _ _ (Hdec s) Hz).
  - do 2 eexists. split; [reflexivity |].
    split; [exact Hlen |]. split; [exact Hit |]. split; [exact Hvd |].
    split; [exact Hun |]. split; [exact He |].
    split; [|split; [exact Hdd | split; [exact Ht | exact Hz]]].
    intros v0 w0 [H0|H0]; [|now apply Hed].
    injection H0 as <- <-. exact Hlt.
Qed.

(** The loop over the edges of [u]. *)
Lemma relax_relaxing d u visited :
  is_node n u -> seen visited u = true ->
  forall edges done dist q,
    (forall e, In e edges -> In e (edges_of adj u)) ->
    relaxing n adj s d u visited done dist (pq_items Q q) ->
    exists dist' q',
      relax Q d edges dist q = Returned (dist', q') /\
      relaxing n adj s d u visited (edges ++ done) dist' (pq_items Q q').
Proof.
  intros Hu Hseen.
  induction edges as [|[v w] rest IH]; intros done dist q Hin Hrel.
  - exists dist, q. now split.
  - destruct (wf_edge u v w Hu (Hin _ (or_introl eq_refl))) as [Hv Hw].
    cbn [relax]. rewrite Hw.
    destruct (relax_edge d u visited done dist q v w Hu Hseen Hv Hw Hrel)
      as (dist1 & q1 & Hstep & Hrel1).
    rewrite (dist_at_index dist v (proj1 Hrel) Hv) in *. cbn [and_then] in *.
    destruct (IH ((v, w) :: done) dist1 q1) as (dist' & q' & Hr & Hrel');
      [intros e He; apply Hin; now right | exact Hrel1 |].
    exists dist', q'. split.
    + destruct (w_ltb (w_add d w) (dist_at dist v)).
      * destruct (assign dist v (w_add d w)) as [dist2| | |];
          try discriminate Hstep.
        cbn [and_then] in *. injection Hstep as -> ->. exact Hr.
      * injection Hstep as -> ->. exact Hr.
    + apply (relaxing_done d u visited (rest ++ (v, w) :: done));
        [|exact Hrel'].
      intros e He. cbn [app] in He. apply in_app_iff.
      destruct He as [He|He]; [right; now left |].
      apply in_app_iff in He. destruct He as [He|He];
        [now left | right; now right].
Qed.

(** One turn of the loop. *)
Lemma turn_settled dist visited q :
  settled n adj s dist visited (pq_items Q q) ->
  match turn Q adj dist visited q with
  | None => pq_items Q q = []
  | Some r =>
      exists dist' visited' q',
        r = Returned (dist', visited', q') /\
        settled n adj s dist' visited' (pq_items Q q')
  end.
Proof.
  intros (Hlen & Hvlen & Hit & Hv & Hun & He & Ht & Hz). unfold turn.
  destruct (pq_pop Q q) as [[[d u] q0]|] eqn:Hpop;
    [|now apply pq_pop_none].
  pose proof (pq_pop_some Q q _ _ Hpop) as Hperm.
  assert (Hold : forall y, In y (pq_items Q q0) -> In y (pq_items Q q)).
  { intros y Hy. apply (Permutation_in _ (Permutation_sym Hperm)).
    now right. }
  assert (Hpopped : In (d, u) (pq_items Q q)).
  { apply (Permutation_in _ (Permutation_sym Hperm)). now left. }
  assert (Hmin : forall k x, In (k, x) (pq_items Q q) -> d <=w k).
  { intros k x Hk. exact (Hfirst q _ _ Hpop (k, x) Hk). }
  destruct (Hit d u Hpopped) as (Hu & Hku & Hdinf).
  rewrite (seen_index visited u Hvlen Hu). cbn [and_then].
  destruct (seen visited u) eqn:Hseen.
  - exists dist, visited, q0. split; [reflexivity |].
    split; [exact Hlen |]. split; [exact Hvlen |].
    split; [intros k x Hk; now apply Hit, Hold |].
    split; [intros x k y Hx Hsx Hk; apply (Hv x k y Hx Hsx); now apply Hold |].
    split; [|split; [exact He | split; [exact Ht | exact Hz]]].
    intros x Hx Hsx. destruct (Hun x Hx Hsx) as [H|H]; [|now right].
    left. apply (Permutation_in _ Hperm) in H. destruct H as [H|H];
      [|exact H].
    injection H as _ <-. congruence.
  - assert (Hvn : is_node (length visited) u) by (now rewrite Hvlen).
    rewrite (assign_node visited u true Hvn). cbn [and_then].
    rewrite (wf_entry u Hu). cbn [and_then].
    set (visited' := set_nth visited (Z.to_nat u) true).
    assert (Hseen' : forall x, is_node n x ->
      seen visited' x = if (x =? u)%Z then true else seen visited x).
    { intros x Hx. now apply seen_set. }
    assert (Hdu : d <=w dist_at dist u).
    { destruct (Hun u Hu Hseen) as [H|H].
      - exact (Hmin _ _ H).
      - now rewrite H. }
    destruct (relax_relaxing d u visited' Hu) with
      (edges := edges_of adj u) (done := @nil (Z * weight))
      (dist := dist) (q := q0) as (dist' & q' & Hr & Hrel).
    { rewrite Hseen' by exact Hu. now rewrite Z.eqb_refl. }
    { intros e H. exact H. }
    { split; [exact Hlen |].
      split; [|split; [|split; [|split; [|split; [|split; [|split]]]]]].
      - intros k x Hk. destruct (Hit k x (Hold _ Hk)) as (Hx & Hk1 & Hk2).
        split; [exact Hx |]. split; [exact Hk1 |]. split; [exact Hk2 |].
        exact (Hmin _ _ (Hold _ Hk)).
      - intros x Hx Hsx. rewrite Hseen' in Hsx by exact Hx.
        destruct (Z.eqb_spec x u) as [->|_]; [exact Hku |].
        exact (Hv x d u Hx Hsx Hpopped).
      - intros x Hx Hsx. rewrite Hseen' in Hsx by exact Hx.
        destruct (Z.eqb_spec x u) as [->|Hne]; [discriminate |].
        destruct (Hun x Hx Hsx) as [H|H]; [|now right].
        left. apply (Permutation_in _ Hperm) in H.
        destruct H as [H|H]; [|exact H]. injection H as _ <-. congruence.
      - intros x v w Hx Hne Hsx Hin. rewrite Hseen' in Hsx by exact Hx.
        destruct (Z.eqb_spec x u) as [->|_]; [congruence |].
        now apply He.
      - intros v w [].
      - exact Hdu.
      - exact Ht.
      - exact Hz. }
    rewrite Hr. cbn [and_then].
    exists dist', visited', q'. split; [reflexivity |].
    destruct Hrel as (Hlen' & Hit' & Hvd' & Hun' & He' & Hed' & Hdd' & Ht'
                      & Hz').
    split; [exact Hlen' |].
    split; [unfold visited'; rewrite set_nth_length;
            [exact Hvlen | destruct Hu; lia] |].
    split; [|split; [|split; [|split; [|split]]]].
    + intros k x Hk. destruct (Hit' k x Hk) as (Hx & Hk1 & Hk2 & _).
      split; [exact Hx | split; [exact Hk1 | exact Hk2]].
    + intros x k y Hx Hsx Hk. destruct (Hit' k y Hk) as (_ & _ & _ & Hk3).
      exact (le_trans3 _ _ _ (Hvd' x Hx Hsx) Hk3).
    + exact Hun'.
    + intros x v w Hx Hsx Hin.
      destruct (Z.eq_dec x u) as [->|Hne]; [|now apply He'].
      apply (le_trans3 _ (w_add d w)).
      * apply Hed'. apply in_app_iff. now left.
      * now apply w_add_mono.
    + exact Ht'.
    + exact Hz'.
Qed.

(** With the queue empty, no walk is shorter than the distance found. *)
Lemma settled_shortest dist visited :
  settled n adj s dist visited [] ->
  forall v d, walk adj s v d -> is_node n v /\ dist_at dist v <=w d.
Proof.
  intros (Hlen & Hvlen & Hit & Hv & Hun & He & Ht & Hz) v d Hwalk.
  induction Hwalk as [|u v d w Hwalk [Hu IH] Hin].
  - split; [exact Hs | exact Hz].
  - destruct (wf_edge u v w Hu Hin) as [Hnv Hw]. split; [exact Hnv |].
    destruct (seen visited u) eqn:Hseen.
    + apply (le_trans3 _ (w_add (dist_at dist u) w)).
      * now apply He.
      * now apply w_add_mono.
    + destruct (Hun u Hu Hseen) as [[]|Hinf].
      rewrite Hinf in IH.
      apply (le_trans3 _ w_inf); [now apply Ht |].
      apply (le_trans3 _ d); [exact IH |]. now apply w_add_nonneg.
Qed.

Lemma drain_shortest :
  forall fuel dist visited q r,
    settled n adj s dist visited (pq_items Q q) ->
    drain Q fuel adj dist visited q = Some r ->
    exists dist', r = Returned dist' /\ length dist' = n /\
      forall v d, walk adj s v d -> dist_at dist' v <=w d.
Proof.
  induction fuel as [|fuel IH]; intros dist visited q r Hset H;
    [discriminate |].
  cbn [drain] in H. pose proof (turn_settled dist visited q Hset) as Ht.
  destruct (turn Q adj dist visited q) as [r0|].
  - destruct Ht as (dist' & visited' & q' & -> & Hset').
    exact (IH _ _ _ _ Hset' H).
  - injection H as <-. exists dist. split; [reflexivity |].
    rewrite Ht in Hset. split; [apply Hset |].
    intros v d Hwalk. now apply (settled_shortest dist visited Hset).
Qed.

Lemma initial_settled :
  settled n adj s (set_nth (repeat w_inf n) (Z.to_nat s) w_zero) (repeat false n)
          (pq_items Q (pq_push Q (w_zero, s) (pq_empty Q))).
Proof.
  assert (Hat : forall x, is_node n x ->
    dist_at (set_nth (repeat w_inf n) (Z.to_nat s) w_zero) x =
    if (x =? s)%Z then w_zero else w_inf).
  { intros x Hx. rewrite dist_at_set_nth
      by (rewrite repeat_length; assumption).
    destruct (x =? s)%Z; [reflexivity |].
    unfold dist_at. apply nth_repeat_any. destruct Hx. lia. }
  assert (Hunseen : forall x, seen (repeat false n) x = false).
  { intros x. unfold seen.
    destruct (Nat.lt_ge_cases (Z.to_nat x) n) as [H|H].
    - now apply nth_repeat_any.
    - apply nth_overflow. now rewrite repeat_length. }
  assert (Hin : forall y,
    In y (pq_items Q (pq_push Q (w_zero, s) (pq_empty Q))) <->
    y = (w_zero, s)).
  { intros y. split; intros H.
    - apply (Permutation_in _ (pq_push_items Q _ _)) in H.
      rewrite pq_empty_items in H. destruct H as [H|[]]. now symmetry.
    - apply (Permutation_in _ (Permutation_sym (pq_push_items Q _ _))).
      left. now symmetry. }
  split; [rewrite set_nth_length; rewrite repeat_length;
          [reflexivity | destruct Hs; lia] |].
  split; [apply repeat_length |].
  split; [|split; [|split; [|split; [|split]]]].
  - intros d u H. apply Hin in H. injection H as -> ->.
    split; [exact Hs |]. rewrite Hat, Z.eqb_refl by exact Hs.
    split; [apply w_le_refl | apply w_inf_nonneg].
  - intros x d u _ Hsx. rewrite Hunseen in Hsx. discriminate.
  - intros u Hu _. rewrite Hat by exact Hu.
    destruct (Z.eqb_spec u s) as [->|_]; [left; now apply Hin | now right].
  - intros x v w _ Hsx. rewrite Hunseen in Hsx. discriminate.
  - intros v Hv. rewrite Hat by exact Hv.
    destruct (v =? s)%Z; [apply w_inf_nonneg | apply w_le_refl].
  - rewrite Hat, Z.eqb_refl by exact Hs. apply w_le_refl.
Qed.

End Shortest.

Section DijkstraShortest.
Context {W : Weight} {O : OrderedWeight W} (Q : PriorityQueue).

(** On a well-formed graph, with a queue that hands out a smallest
    distance first, [dijkstra] returns and no walk from the source is
    shorter than the distance returned for its end. *)
Lemma dijkstra_shortest_walks n adj source :
  pops_first Q -> (0 <= n)%Z ->
  well_formed (Z.to_nat n) adj = true -> is_node (Z.to_nat n) source ->
  exists dist,
    dijkstra Q n adj source = Some (Returned dist) /\
    length dist = Z.to_nat n /\
    forall v d, walk adj source v d -> w_ltb d (dist_at dist v) = false.
Proof.
  intros Hfirst Hn Hwf Hs.
  destruct (dijkstra_in_returns Q n adj source) as (r & Hr & _).
  rewrite Hr. unfold dijkstra, dijkstra_in in Hr.
  destruct (Z.ltb_spec n 0) as [H|_]; [lia |].
  rewrite (assign_node (repeat w_inf (Z.to_nat n)) source w_zero) in Hr
    by (rewrite repeat_length; exact Hs).
  destruct (drain_shortest Q (Z.to_nat n) adj source Hfirst Hwf Hs _ _ _ _ r
              (initial_settled Q (Z.to_nat n) adj source Hs) Hr)
    as (dist & -> & Hlen & Hmin).
  exists dist. split; [reflexivity |]. split; [exact Hlen | exact Hmin].
Qed.

End DijkstraShortest.

(** ** A priority queue *)

Section ListQueue.
Context {W : Weight}.

Lemma pop_first_none l : pop_first l = None -> l = [].
Proof.
  destruct l as [|x l']; [reflexivity |]. cbn.
  destruct (pop_first l') as [[y r]|]; [|discriminate].
  destruct (NodeCmp x y); discriminate.
Qed.

Lemma pop_first_some l :
  forall x r, pop_first l = Some (x, r) -> Permutation l (x :: r).
Proof.
  induction l as [|a l' IH]; intros x r H; [discriminate |]. cbn in H.
  destruct (pop_first l') as [[y r0]|] eqn:Hpop.
  - destruct (NodeCmp a y).
    + injection H as <- <-.
      rewrite (IH y r0 eq_refl). apply perm_swap.
    + injection H as <- <-. reflexivity.
  - injection H as <- <-. apply pop_first_none in Hpop. now subst l'.
Qed.

(** The queue kept as the list of its items. *)
Definition list_queue : PriorityQueue := {|
  pq := list Item;
  pq_empty := [];
  pq_push := cons;
  pq_pop := pop_first;
  pq_items := fun l => l;
  pq_empty_items := eq_refl;
  pq_push_items := fun x q => Permutation_refl (x :: q);
  pq_pop_none := pop_first_none;
  pq_pop_some := pop_first_some
|}.

Lemma list_queue_pops_first {O : OrderedWeight W} : pops_first list_queue.
Proof.
  unfold pops_first. cbn. intros q.
  induction q as [|a l' IH]; intros x r H y Hy; [discriminate |].
  cbn in H. unfold NodeCmp in *.
  destruct (pop_first l') as [[m r0]|] eqn:Hpop.
  - specialize (IH m r0 eq_refl).
    destruct (w_ltb (fst m) (fst a)) eqn:Hlt.
    + injection H as <- <-. destruct Hy as [<-|Hy]; [|now apply IH].
      now apply w_lt_le.
    + injection H as <- <-. destruct Hy as [<-|Hy]; [apply w_le_refl |].
      exact (w_le_trans _ _ _ Hlt (IH y Hy)).
  - injection H as <- <-. apply pop_first_none in Hpop. subst l'.
    destruct Hy as [<-|[]]. apply w_le_refl.
Qed.

End ListQueue.

(** ** The extended rationals are ordered weights *)

Lemma rational_ltb_false (x y : Qc) : @ltb rational x y = false <-> (y <= x)%Qc.
Proof.
  change (@ltb rational x y)
    with (match (Qnum x * QDen y ?= Qnum y * QDen x)%Z with
          | Lt => true
          | _ => false
          end).
  unfold Qcle, Qle.
  destruct (Z.compare_spec (Qnum x * QDen y) (Qnum y * QDen x));
    split; intros; try lia; try discriminate; reflexivity.
Qed.

Lemma rational_ltb_true (x y : Qc) : @ltb rational x y = true <-> (x < y)%Qc.
Proof.
  change (@ltb rational x y)
    with (match (Qnum x * QDen y ?= Qnum y * QDen x)%Z with
          | Lt => true
          | _ => false
          end).
  unfold Qclt, Qlt.
  destruct (Z.compare_spec (Qnum x * QDen y) (Qnum y * QDen x));
    split; intros; try lia; try discriminate; reflexivity.
Qed.

#[export] Instance extended_ordered : OrderedWeight extended_weight.
Proof.
  split.
  - intros [x|]; [|reflexivity]. apply rational_ltb_false. apply Qcle_refl.
  - intros [x|] [y|] [z|]; cbn [w_ltb extended_weight]; try easy.
    rewrite !rational_ltb_false. intros H1 H2. exact (Qcle_trans _ _ _ H1 H2).
  - intros [x|] [y|]; cbn [w_ltb extended_weight]; try easy.
    rewrite rational_ltb_true, rational_ltb_false. apply Qclt_le_weak.
  - intros [x|] [y|] [z|]; cbn [w_ltb w_add extended_weight]; try easy.
    rewrite !rational_ltb_false. intros H.
    apply Qcplus_le_compat; [exact H | apply Qcle_refl].
  - intros [x|] [y|]; cbn [w_ltb w_add w_zero extended_weight]; try easy.
    rewrite !rational_ltb_false. intros H.
    rewrite <- (Qcplus_0_r x) at 1.
    apply Qcplus_le_compat; [apply Qcle_refl | exact H].
  - reflexivity.
Qed.

Section DijkstraSafe.
Context {W : Weight} (Q : PriorityQueue).

(** On a well-formed graph no walk leaves the nodes. *)
Lemma walk_is_node n adj s :
  well_formed n adj = true -> is_node n s ->
  forall v d, walk adj s v d -> is_node n v.
Proof.
  intros Hwf Hs v d Hwalk.
  induction Hwalk as [|u v d w _ IH Hin]; [exact Hs |].
  exact (proj1 (wf_edge n adj Hwf u v w IH Hin)).
Qed.

(** On a well-formed graph [dijkstra] returns, whatever the arithmetic
    and the order in which the queue hands out its items. *)
Lemma dijkstra_returns_distances n adj source :
  (0 <= n)%Z -> well_formed (Z.to_nat n) adj = true ->
  is_node (Z.to_nat n) source ->
  exists dist, dijkstra Q n adj source = Some (Returned dist) /\
               dist_sound (Z.to_nat n) adj source dist.
Proof.
  intros Hn Hwf Hs.
  destruct (dijkstra_in_returns Q n adj source) as (r & Hr & _).
  rewrite Hr. pose proof (dijkstra_in_sound Q _ n adj source r Hr) as Hcause.
  destruct r as [dist| | |].
  - exists dist. split; [reflexivity | apply Hcause].
  - destruct Hcause as (_ & _ & u & d & v & w & Hwalk & Hu & Hin & Hneg).
    destruct (wf_edge _ adj Hwf u v w Hu Hin) as [_ Hw]. congruence.
  - lia.
  - destruct Hcause as (_ & [Hbad|(u & d & Hwalk & Hu & Hbad)]);
      [contradiction |].
    destruct Hbad as [Hbad|(v & w & Hin & Hbad)].
    + pose proof (wf_entry _ adj Hwf u Hu) as He.
      apply at_index_is_node in He. destruct He. lia.
    + destruct (wf_edge _ adj Hwf u v w Hu Hin) as [Hv _]. contradiction.
Qed.

End DijkstraSafe.

(** ** The Frobenius norm and the inverse of the normal matrix *)

Section FrobeniusFacts.
Context {K : Scalar} {SQ : ScalarSqrt K}.

(** A loop over a vector is the loop over its indices. *)
Lemma fold_left_indices {A B : Type} (f : A -> B -> A) (d : B) (l : list B) :
  forall a,
    fold_left f l a =
    fold_left (fun acc i => f acc (nth i l d)) (seq 0 (length l)) a.
Proof.
  induction l as [|x l IH]; intros a; [reflexivity |].
  cbn [length seq fold_left nth]. rewrite IH, <- seq_shift.
  generalize (f a x) (seq 0 (length l)). intros a' s. revert a'.
  induction s as [|i s IHs]; intros a'; [reflexivity |].
  cbn [map fold_left nth]. apply IHs.
Qed.

(** [frobenius_norm] accumulates the squares in that order. *)
Lemma frobenius_norm_square_sum {m n} {A : Matrix} :
  shape m n A -> Pinv.frobenius_norm A = frobenius m n A.
Proof.
  intros HA. unfold Pinv.frobenius_norm, frobenius, square_sum. f_equal.
  rewrite (fold_left_indices _ [] A), (shape_length HA).
  apply fold_left_ext_in. intros a i Hi. apply in_seq in Hi.
  rewrite (fold_left_indices _ zero (nth i A [])).
  rewrite (shape_row (i := i) HA) by lia. reflexivity.
Qed.

Lemma dot_skip_ext n (a a' b b' : nat -> num) :
  (forall k, k < n -> a k = a' k) -> (forall k, k < n -> b k = b' k) ->
  dot_skip n a b = dot_skip n a' b'.
Proof.
  intros Ha Hb. unfold dot_skip. apply fold_left_ext_in.
  intros acc k Hk. apply in_seq in Hk. now rewrite Ha, Hb by lia.
Qed.

End FrobeniusFacts.

Section ExactNorms.
Context {K : Scalar} {E : ExactField K}.

Add Ring scalar_ring_norm : exact_ring.

(** Over a field the order of the accumulation does not matter. *)
Lemma square_sum_exact m n (A : Matrix) :
  square_sum m n A =
  sum_to m (fun i => sum_to n (fun j => mul (get A i j) (get A i j))).
Proof.
  unfold square_sum. induction m as [|m IH]; [reflexivity |].
  rewrite seq_S, fold_left_app, IH, sum_to_S. cbn [fold_left Nat.add].
  apply fold_add_from.
Qed.

(** The computed inverse of a symmetric matrix is a right inverse as
    well as a left one. *)
Lemma gram_right_inverse n (C N : nat -> nat -> num) :
  (forall r l, r < n -> l < n -> C r l = C l r) ->
  (forall r l, r < n -> l < n -> N r l = N l r) ->
  (forall r l, r < n -> l < n -> fprod n C N r l = unit_entry r l) ->
  forall r l, r < n -> l < n -> fprod n N C r l = unit_entry r l.
Proof.
  intros HC HN Hleft r l Hr Hl. rewrite unit_entry_sym.
  rewrite <- (Hleft l r Hl Hr). unfold fprod. apply sum_to_ext.
  intros t Ht. rewrite (HN r t), (HC t l) by assumption. ring.
Qed.

End ExactNorms.

Section PseudoinverseInverse.
Context {K : Scalar} {E : ExactField K}.

Add Ring scalar_ring_gram : exact_ring.

(** Over a field, what [pseudoinverse] returns is the product of the
    two-sided inverse of the normal matrix with the transpose. *)
Lemma pseudoinverse_normal_inverse {m n} {A P : Matrix} :
  shape m n A -> 0 < m -> 0 < n -> Pinv.pseudoinverse A = Ok P ->
  shape n m P /\
  exists C : Matrix,
    if n <=? m then
      (forall r l, r < n -> l < n ->
         sum_to n (fun t => mul (get C r t) (gram_columns m A t l)) =
         unit_entry r l) /\
      (forall r l, r < n -> l < n ->
         sum_to n (fun t => mul (gram_columns m A r t) (get C t l)) =
         unit_entry r l) /\
      (forall r k, r < n -> k < m ->
         get P r k = sum_to n (fun t => mul (get C r t) (get A k t)))
    else
      (forall r l, r < m -> l < m ->
         sum_to m (fun t => mul (get C r t) (gram_rows n A t l)) =
         unit_entry r l) /\
      (forall r l, r < m -> l < m ->
         sum_to m (fun t => mul (gram_rows n A r t) (get C t l)) =
         unit_entry r l) /\
      (forall r k, r < n -> k < m ->
         get P r k = sum_to m (fun t => mul (get A t r) (get C t k))).
Proof.
  intros HA Hm Hn HP. destruct (Nat.leb_spec n m) as [Hle|Hlt].
  - destruct (pseudoinverse_tall HA Hn Hle HP) as (HsP & C & HPe & HC & HCN).
    split; [exact HsP |]. exists C.
    assert (HN : forall r l, r < n -> l < n ->
      gram_columns m A r l = gram_columns m A l r).
    { intros r l _ _. apply sum_to_ext. intros k _. ring. }
    split; [exact HCN |]. split; [|exact HPe].
    exact (gram_right_inverse n (get C) (gram_columns m A) HC HN HCN).
  - destruct (pseudoinverse_wide HA Hm Hlt HP) as (HsP & C & HPe & HC & HNC).
    split; [exact HsP |]. exists C.
    assert (HN : forall r l, r < m -> l < m ->
      gram_rows n A r l = gram_rows n A l r).
    { intros r l _ _. apply sum_to_ext. intros k _. ring. }
    split; [|split; [exact HNC | exact HPe]].
    exact (gram_right_inverse m (gram_rows n A) (get C) HN HC HNC).
Qed.

End PseudoinverseInverse.

(** * The claims *)

Ltac shape_tac := split; [reflexivity | repeat constructor].

(** ** C1 *)

(** C1 (evaluation at the failing inputs).  On the 3x3 matrix of the
    repository's own QR test, [qr_decompose] returns [Q] and [R] and
    [matmul(transpose(Q), Q)] is within 1e-6 of the identity, but
    [matmul(Q, R)] is not within 1e-6 of the input, while
    [matmul(transpose(Q), R)] is: the factor comes back transposed.  On the
    2x2 system of the same test, [solve_qr] on the returned factors does
    not give the solution [[1, 1]] within 1e-6. *)
Theorem qr_product_misses_input :
  (exists Q R P Qt P' G,
     QR.qr_decompose qr_test_matrix = Ok (Q, R) /\
     QR.matmul Q R = Ok P /\
     mat_within tol6 P qr_test_matrix = false /\
     QR.transpose Q = Ok Qt /\
     QR.matmul Qt R = Ok P' /\
     mat_within tol6 P' qr_test_matrix = true /\
     QR.matmul Qt Q = Ok G /\
     mat_within tol6 G identity3 = true) /\
  (exists Q R x,
     QR.qr_decompose solve_test_matrix = Ok (Q, R) /\
     QR.solve_qr Q R solve_test_rhs = Ok x /\
     vec_within tol6 x solve_test_solution = false).
Proof.
  split.
  - do 6 eexists.
    split; [vm_compute; reflexivity |].
    split; [vm_compute; reflexivity |].
    split; [vm_compute; reflexivity |].
    split; [vm_compute; reflexivity |].
    split; [vm_compute; reflexivity |].
    split; [vm_compute; reflexivity |].
    split; vm_compute; reflexivity.
  - do 3 eexists.
    split; [vm_compute; reflexivity |].
    split; vm_compute; reflexivity.
Qed.

(** ** C2 *)

(** C2. [inverse] fails with NonSquareMatrix on every matrix whose row and
    column counts differ.  On a square matrix it fails with SingularMatrix
    exactly when the elimination reaches some column [i] where the selected
    pivot has magnitude below [1e-12]; the selected pivot lies in the rows
    [i .. n-1] and no entry of column [i] in those rows has a larger
    magnitude.  On [[1,2],[2,4]] in double arithmetic it fails with
    SingularMatrix. *)
Theorem inverse_failure_conditions :
  (forall (K : Scalar) (O : OrderedScalar K) m n (A : Matrix),
     shape m n A -> m <> n -> Pinv.inverse A = Err NonSquareMatrix) /\
  (forall (K : Scalar) (O : OrderedScalar K) n (A : Matrix),
     shape n n A ->
     (Pinv.inverse A = Err SingularMatrix <->
      exists i aug p,
        i < n /\ gj_run n A i = Ok aug /\
        Pinv.select_pivot aug n i = Ok p /\
        ltb (fabs (get aug p i)) tiny = true) /\
     (forall i aug p,
        i < n -> gj_run n A i = Ok aug ->
        Pinv.select_pivot aug n i = Ok p ->
        i <= p < n /\
        forall r, i <= r < n ->
                  gtb (fabs (get aug r i)) (fabs (get aug p i)) = false)) /\
  Pinv.inverse singular_example = Err SingularMatrix.
Proof.
  split; [|split].
  - intros K O m n A HA Hmn. exact (inverse_nonsquare HA Hmn).
  - intros K O n A HA. split.
    + destruct (Nat.eq_dec n 0) as [->|Hn0].
      { destruct HA as [Hlen _]. destruct A; [|discriminate Hlen].
        split; [discriminate |]. intros (i & _ & _ & Hi & _). lia. }
      assert (Hn : 0 < n) by lia.
      split.
      * intros H. destruct (inverse_square_cases HA Hn)
          as [(B & HB & _)|(_ & i & aug & p & Hi & Hrun & Hp & _ & Hbad)];
          [congruence |].
        now exists i, aug, p.
      * intros (i & aug & p & Hi & Hrun & Hp & Hbad).
        rewrite (inverse_unfold HA Hn).
        assert (Hs : shape n (2 * n) aug)
          by (apply (gj_run_shape i aug HA); [lia | exact Hrun]).
        destruct (eliminate_column_spec i Hs Hi) as (p' & Hp' & _ & Hcase).
        assert (p' = p) by congruence. subst p'. rewrite Hbad in Hcase.
        assert (H : gj_run n A n = Err SingularMatrix).
        { apply (gj_run_err n SingularMatrix HA (le_n n)).
          now exists i, aug. }
        now rewrite H.
    + intros i aug p Hi Hrun Hp.
      assert (Hs : shape n (2 * n) aug)
        by (apply (gj_run_shape i aug HA); [lia | exact Hrun]).
      split.
      * destruct (select_pivot_range i Hs Hi) as (p' & Hp' & Hr); [lia |].
        congruence.
      * apply (select_pivot_max i p Hs Hi); [lia | exact Hp].
  - vm_compute. reflexivity.
Qed.

(** The conditions at the singular 2x2 matrix, in double arithmetic. *)
Lemma inverse_failure_conditions_witness :
  Pinv.inverse singular_example = Err SingularMatrix <->
  exists i aug p,
    i < 2 /\ gj_run 2 singular_example i = Ok aug /\
    Pinv.select_pivot aug 2 i = Ok p /\
    ltb (fabs (get aug p i)) tiny = true.
Proof.
  apply (proj1 (proj2 inverse_failure_conditions) double double_ordered 2
           singular_example); shape_tac.
Defined.

(** ** C3 *)

(** In double arithmetic [inverse] succeeds on the ill-conditioned matrix,
    and its product with the matrix is not within 1e-6 of the identity. *)
Lemma inverse_product_far_from_identity :
  exists B P,
    Pinv.inverse ill_conditioned = Ok B /\
    QR.matmul B ill_conditioned = Ok P /\
    mat_within tol6 P identity2 = false.
Proof.
  do 2 eexists.
  split; [vm_compute; reflexivity |].
  split; vm_compute; reflexivity.
Qed.

(** C3 (amended).  Over exact arithmetic, for every square matrix [A] on
    which [inverse] succeeds, [matmul(inverse(A), A)] and
    [matmul(A, inverse(A))] are the identity exactly, and so are the two
    products formed with [multiply].  In double arithmetic
    [inverse([[4,7],[2,6]])] is within 1e-6 of [[0.6,-0.7],[-0.2,0.4]] and
    both products with the input are within 1e-6 of the identity. *)
Theorem inverse_times_matrix :
  (forall (K : Scalar) (E : ExactField K) n (A B : Matrix),
     shape n n A -> Pinv.inverse A = Ok B ->
     QR.matmul B A = QR.identity n /\ QR.matmul A B = QR.identity n /\
     Pinv.multiply B A = QR.identity n /\
     Pinv.multiply A B = QR.identity n) /\
  exists B P P',
    Pinv.inverse inverse_test_matrix = Ok B /\
    mat_within tol6 B inverse_test_expected = true /\
    QR.matmul B inverse_test_matrix = Ok P /\
    mat_within tol6 P identity2 = true /\
    QR.matmul inverse_test_matrix B = Ok P' /\
    mat_within tol6 P' identity2 = true.
Proof.
  split.
  - intros K E n A B HA HB. exact (inverse_products HA HB).
  - do 3 eexists.
    split; [vm_compute; reflexivity |].
    split; [vm_compute; reflexivity |].
    split; [vm_compute; reflexivity |].
    split; [vm_compute; reflexivity |].
    split; vm_compute; reflexivity.
Qed.

(** The exact statement at [[4,7],[2,6]] over the rationals. *)
Lemma inverse_times_matrix_witness :
  match Pinv.inverse inverse_test_exact with
  | Ok B => QR.matmul B inverse_test_exact = QR.identity 2 /\
            QR.matmul inverse_test_exact B = QR.identity 2 /\
            Pinv.multiply B inverse_test_exact = QR.identity 2 /\
            Pinv.multiply inverse_test_exact B = QR.identity 2
  | Err _ => False
  end.
Proof.
  destruct (Pinv.inverse inverse_test_exact) as [B|e] eqn:HB.
  - apply (proj1 inverse_times_matrix rational rational_exact 2
             inverse_test_exact B); [shape_tac | exact HB].
  - vm_compute in HB. discriminate HB.
Defined.

(** ** C4 *)

(** A 1x2 matrix times a 3x1 matrix, and a 1x3 matrix times a 2x1 matrix:
    both products are returned. *)
Lemma matmul_accepts_mismatch :
  QR.matmul row12 ones31 = Ok [[3%float]] /\
  Pinv.multiply row123 ones21 = Ok [[3%float]].
Proof. split; vm_compute; reflexivity. Qed.

(** C4 (amended).  Neither [matmul] nor [multiply] checks dimensions, and
    neither ever fails with DimensionMismatch.  For [A] of size [m x n] and
    [B] of size [n' x p], both with at least one row, [matmul] returns the
    [m x p] matrix whose [(i, j)] element is the inner-product sum of
    [A(i,k) * B(k,j)] over [k < n], accumulated from [0.0] in the order of
    [k], whenever [n <= n']: the standard product when [n = n'], and the
    rows of [B] past [n] ignored otherwise.  [multiply] sums over [k < n']
    whenever [n' <= n] and leaves out the terms whose [A(i,k)] compares
    equal to [0.0]; over exact arithmetic that is the same sum. *)
Theorem matmul_contract :
  (forall (K : Scalar) (A B : Matrix),
     QR.matmul A B <> Err DimensionMismatch /\
     Pinv.multiply A B <> Err DimensionMismatch) /\
  (forall (K : Scalar) m n n' p (A B : Matrix),
     shape m n A -> shape n' p B -> 0 < m -> 0 < n' ->
     (n <= n' ->
      exists C, QR.matmul A B = Ok C /\ shape m p C /\
        forall i j, i < m -> j < p ->
          get C i j = dot_sum n (fun k => get A i k) (fun k => get B k j)) /\
     (n' <= n ->
      exists C, Pinv.multiply A B = Ok C /\ shape m p C /\
        forall i j, i < m -> j < p ->
          get C i j = dot_skip n' (fun k => get A i k) (fun k => get B k j))) /\
  (forall (K : Scalar) (E : ExactField K) n (a b : nat -> num),
     dot_skip n a b = dot_sum n a b).
Proof.
  split; [|split].
  - intros K A B. split; intros H.
    + apply oob_only_matmul in H. discriminate.
    + apply oob_only_multiply in H. discriminate.
  - intros K m n n' p A B HA HB Hm Hn. split; intros Hle.
    + exact (matmul_spec HA HB Hm Hn Hle).
    + exact (multiply_spec HA HB Hn Hle).
  - intros K E n a b. apply dot_skip_dot_sum.
Qed.

(** The product of two 2x2 matrices in double arithmetic. *)
Lemma matmul_contract_witness :
  exists C, QR.matmul inverse_test_matrix inverse_test_expected = Ok C /\
            shape 2 2 C /\
            forall i j, i < 2 -> j < 2 ->
              get C i j = dot_sum 2 (fun k => get inverse_test_matrix i k)
                                    (fun k => get inverse_test_expected k j).
Proof.
  apply (proj1 (proj2 matmul_contract) double 2 2 2 2
           inverse_test_matrix inverse_test_expected);
    [shape_tac | shape_tac | lia | lia | lia].
Defined.

(** ** C5 *)

(** With neither [Q] nor [R] having a row, [solve_qr] reads [R[0]] before
    it looks at [b]: it neither returns the empty solution for the empty
    [b] nor fails with DimensionMismatch for a [b] of length 1. *)
Lemma solve_qr_reads_empty_factor :
  QR.solve_qr (K := double) [] [] [] = Err OutOfBounds /\
  QR.solve_qr (K := double) [] [] [1%float] = Err OutOfBounds.
Proof. split; reflexivity. Qed.

(** C5 (amended).  For [Q] of size [m x m] and [R] of size [m x n] with
    [n <= m] and at least one row (the column count of [R] is read as
    [R[0].size()], with no test for emptiness), [solve_qr] fails with
    DimensionMismatch exactly when [b] does not have length [m];
    otherwise, with [y = Q^T b], it fails with SingularSystem exactly when
    some diagonal element [R[i][i]], [i < n], has magnitude below [1e-12],
    and else returns the vector [x] of length [n] with
    [x[i] = (y[i] - sum_{j>i} R[i][j] x[j]) / R[i][i]]. *)
Theorem solve_qr_contract {K : Scalar} m n (Q R : Matrix) (b : Vector) :
  shape m m Q -> shape m n R -> 0 < m -> n <= m ->
  (QR.solve_qr Q R b = Err DimensionMismatch <-> length b <> m) /\
  (length b = m ->
   (QR.solve_qr Q R b = Err SingularSystem <->
    exists i, i < n /\ ltb (fabs (get R i i)) tiny = true) /\
   ((forall i, i < n -> ltb (fabs (get R i i)) tiny = false) ->
    exists x, QR.solve_qr Q R b = Ok x /\
              back_substituted n R (qt_b m Q b) x)).
Proof.
  intros HQ HR Hm Hn. unfold QR.solve_qr.
  rewrite (cols0_ok HR Hm). cbn [bind]. rewrite (shape_length HQ).
  destruct (Nat.eqb_spec (length b) m) as [Hb|Hb]; cbn [negb].
  2:{ split; [tauto | intros H; contradiction]. }
  destruct (qt_b_loop m Q b HQ Hb) as (y & Hy & Hlen & Hnth).
  rewrite Hy. cbn [bind].
  pose proof (back_substitution_loop m n R y HR Hlen Hn) as Hloop.
  cbv zeta in Hloop.
  pose proof (singular_diagonal_true n R) as Hsing.
  destruct (singular_diagonal n R).
  - rewrite Hloop. split; [split; [discriminate | tauto] |].
    intros _. split.
    + split; [intros _; now apply Hsing | reflexivity].
    + intros Hno. destruct (proj1 Hsing eq_refl) as (i & Hi & Hbad).
      rewrite Hno in Hbad by exact Hi. discriminate.
  - destruct Hloop as (x & Hx & Hxlen & Hrec). rewrite Hx.
    split; [split; [discriminate | tauto] |].
    intros _. split.
    + split; [discriminate |]. intros H. apply Hsing in H. discriminate.
    + intros _. exists x. split; [reflexivity |]. split; [exact Hxlen |].
      intros i Hi. rewrite Hrec by exact Hi. rewrite Hnth by lia. reflexivity.
Qed.

(** The contract at a 2x2 triangular system in double arithmetic. *)
Lemma solve_qr_contract_witness :
  (QR.solve_qr identity2 solve_R solve_b = Err DimensionMismatch <->
   length solve_b <> 2) /\
  (length solve_b = 2 ->
   (QR.solve_qr identity2 solve_R solve_b = Err SingularSystem <->
    exists i, i < 2 /\ ltb (fabs (get solve_R i i)) tiny = true) /\
   ((forall i, i < 2 -> ltb (fabs (get solve_R i i)) tiny = false) ->
    exists x, QR.solve_qr identity2 solve_R solve_b = Ok x /\
              back_substituted 2 solve_R (qt_b 2 identity2 solve_b) x)).
Proof.
  apply (solve_qr_contract (K := double) 2 2 identity2 solve_R solve_b);
    [shape_tac | shape_tac | lia | lia].
Defined.

(** ** C6 *)

(** C6. [pseudoinverse] returns the empty matrix, without error, when [A]
    has no row or no column.  On an [m x n] matrix with [m, n >= 1] it forms
    the transpose [AT]; when [m >= n] the normal matrix [N] has the
    elements of [AT A] (the sum over the rows of [A] of the products of
    two columns), the inversion is [inverse(N)], and the result has the
    elements of the product of that inverse with [AT]; when [m < n] the
    normal matrix has the elements of [A AT] and the result those of [AT]
    times the inverse.  The whole fails exactly when the inversion fails,
    with the inversion's condition, which can only be SingularMatrix.
    Over a field the result is [C AT], respectively [AT C], for a matrix
    [C] that is the inverse of the normal matrix on both sides.  In double
    arithmetic the pseudoinverse of [[1,2],[3,4],[5,6]] is within 1e-6 of
    [[-4/3,-1/3,2/3],[13/12,1/3,-5/12]]. *)
Theorem pseudoinverse_contract :
  (forall (K : Scalar) m n (A : Matrix),
     shape m n A ->
     ((m = 0 \/ n = 0) -> Pinv.pseudoinverse A = Ok []) /\
     (0 < m -> 0 < n ->
      exists AT,
        Pinv.transpose A = Ok AT /\ shape n m AT /\
        (forall i j, i < m -> j < n -> get AT j i = get A i j) /\
        exists N,
          (if n <=? m
           then Pinv.multiply AT A = Ok N /\ shape n n N /\
                (forall i j, i < n -> j < n ->
                   get N i j =
                   dot_skip m (fun k => get A k i) (fun k => get A k j)) /\
                Pinv.pseudoinverse A =
                (I <- Pinv.inverse N ;; Pinv.multiply I AT) /\
                (forall I, Pinv.inverse N = Ok I ->
                   exists P, Pinv.pseudoinverse A = Ok P /\
                             Pinv.multiply I AT = Ok P /\ shape n m P /\
                             forall i j, i < n -> j < m ->
                               get P i j =
                               dot_skip n (fun k => get I i k)
                                          (fun k => get A j k))
           else Pinv.multiply A AT = Ok N /\ shape m m N /\
                (forall i j, i < m -> j < m ->
                   get N i j =
                   dot_skip n (fun k => get A i k) (fun k => get A j k)) /\
                Pinv.pseudoinverse A =
                (I <- Pinv.inverse N ;; Pinv.multiply AT I) /\
                (forall I, Pinv.inverse N = Ok I ->
                   exists P, Pinv.pseudoinverse A = Ok P /\
                             Pinv.multiply AT I = Ok P /\ shape n m P /\
                             forall i j, i < n -> j < m ->
                               get P i j =
                               dot_skip m (fun k => get A k i)
                                          (fun k => get I k j))) /\
          (forall e, Pinv.pseudoinverse A = Err e <-> Pinv.inverse N = Err e) /\
          (forall e, Pinv.inverse N = Err e -> e = SingularMatrix))) /\
  (forall (K : Scalar) (E : ExactField K) m n (A P : Matrix),
     shape m n A -> 0 < m -> 0 < n -> Pinv.pseudoinverse A = Ok P ->
     shape n m P /\
     exists C : Matrix,
       if n <=? m then
         (forall r l, r < n -> l < n ->
            sum_to n (fun t => mul (get C r t) (gram_columns m A t l)) =
            unit_entry r l) /\
         (forall r l, r < n -> l < n ->
            sum_to n (fun t => mul (gram_columns m A r t) (get C t l)) =
            unit_entry r l) /\
         (forall r k, r < n -> k < m ->
            get P r k = sum_to n (fun t => mul (get C r t) (get A k t)))
       else
         (forall r l, r < m -> l < m ->
            sum_to m (fun t => mul (get C r t) (gram_rows n A t l)) =
            unit_entry r l) /\
         (forall r l, r < m -> l < m ->
            sum_to m (fun t => mul (gram_rows n A r t) (get C t l)) =
            unit_entry r l) /\
         (forall r k, r < n -> k < m ->
            get P r k = sum_to m (fun t => mul (get A t r) (get C t k)))) /\
  (exists P, Pinv.pseudoinverse pinv_test_matrix = Ok P /\
             mat_within tol6 P pinv_test_expected = true).
Proof.
  split; [|split].
  - intros K m n A HA. split; [exact (pseudoinverse_empty HA) |].
    intros Hm Hn. rewrite (pseudoinverse_nonempty HA Hm Hn).
    destruct (transpose_spec HA Hm) as (AT & HAT & HsAT & HgAT).
    rewrite pinv_transpose_same, HAT. cbn [bind].
    exists AT. split; [reflexivity |]. split; [exact HsAT |].
    split; [exact HgAT |].
    destruct (Nat.leb_spec n m) as [Hle|Hlt].
    + destruct (multiply_spec HsAT HA Hm (le_n m)) as (N & HN & HsN & HgN).
      rewrite HN. cbn [bind]. exists N.
      destruct (invert_then (fun I => Pinv.multiply I AT) n m HsN Hn)
        as (Hok & Herr & Hkind).
      { intros I HsI.
        destruct (multiply_spec HsI HsAT Hn (le_n n)) as (P & HP & HsP & _).
        now exists P. }
      split; [|split; [exact Herr | exact Hkind]].
      split; [reflexivity |]. split; [exact HsN |]. split.
      { intros i j Hi Hj. rewrite HgN by assumption.
        apply dot_skip_ext; intros k Hk; [now apply HgAT | reflexivity]. }
      split; [reflexivity |].
      intros I HI. destruct (Hok I HI) as (P & HP & HPm & HsP).
      exists P. split; [exact HP |]. split; [exact HPm |].
      split; [exact HsP |].
      destruct (proj2 (proj2 (inverse_outcomes HsN)) I HI) as (_ & _ & HsI).
      destruct (multiply_spec HsI HsAT Hn (le_n n)) as (P' & HP' & _ & HgP).
      assert (P' = P) by congruence. subst P'.
      intros i j Hi Hj. rewrite HgP by assumption.
      apply dot_skip_ext; intros k Hk; [reflexivity | now apply HgAT].
    + destruct (multiply_spec HA HsAT Hn (le_n n)) as (N & HN & HsN & HgN).
      rewrite HN. cbn [bind]. exists N.
      destruct (invert_then (fun I => Pinv.multiply AT I) n m HsN Hm)
        as (Hok & Herr & Hkind).
      { intros I HsI.
        destruct (multiply_spec HsAT HsI Hm (le_n m)) as (P & HP & HsP & _).
        now exists P. }
      split; [|split; [exact Herr | exact Hkind]].
      split; [reflexivity |]. split; [exact HsN |]. split.
      { intros i j Hi Hj. rewrite HgN by assumption.
        apply dot_skip_ext; intros k Hk; [reflexivity | now apply HgAT]. }
      split; [reflexivity |].
      intros I HI. destruct (Hok I HI) as (P & HP & HPm & HsP).
      exists P. split; [exact HP |]. split; [exact HPm |].
      split; [exact HsP |].
      destruct (proj2 (proj2 (inverse_outcomes HsN)) I HI) as (_ & _ & HsI).
      destruct (multiply_spec HsAT HsI Hm (le_n m)) as (P' & HP' & _ & HgP).
      assert (P' = P) by congruence. subst P'.
      intros i j Hi Hj. rewrite HgP by assumption.
      apply dot_skip_ext; intros k Hk; [now apply HgAT | reflexivity].
  - intros K E m n A P HA Hm Hn HP.
    exact (pseudoinverse_normal_inverse HA Hm Hn HP).
  - eexists. split; vm_compute; reflexivity.
Qed.

(** The transpose of the 3x2 test matrix in double arithmetic, and the
    inverse of its normal matrix over the rationals. *)
Lemma pseudoinverse_contract_witness :
  (exists AT, Pinv.transpose pinv_test_matrix = Ok AT /\ shape 2 3 AT) /\
  match Pinv.pseudoinverse pinv_test_exact with
  | Ok P =>
      shape 2 3 P /\
      exists C : Matrix,
        (forall r l, r < 2 -> l < 2 ->
           sum_to 2 (fun t =>
             mul (get C r t) (gram_columns 3 pinv_test_exact t l)) =
           unit_entry r l) /\
        (forall r l, r < 2 -> l < 2 ->
           sum_to 2 (fun t =>
             mul (gram_columns 3 pinv_test_exact r t) (get C t l)) =
           unit_entry r l) /\
        (forall r k, r < 2 -> k < 3 ->
           get P r k =
           sum_to 2 (fun t => mul (get C r t) (get pinv_test_exact k t)))
  | Err _ => False
  end.
Proof.
  split.
  - destruct (proj1 pseudoinverse_contract double 3 2 pinv_test_matrix)
      as (_ & H); [shape_tac |].
    destruct H as (AT & HAT & HsAT & _); [lia | lia |].
    now exists AT.
  - destruct (Pinv.pseudoinverse pinv_test_exact) as [P|e] eqn:HP.
    + apply (proj1 (proj2 pseudoinverse_contract) rational rational_exact
               3 2 pinv_test_exact P); [shape_tac | lia | lia | exact HP].
    + vm_compute in HP. discriminate HP.
Defined.

(** ** C7 *)

(** C7.  [qr_decompose] returns on every matrix with at least one row, and
    in the [R] it returns every element strictly below the diagonal is
    exactly [0.0].  The clean-up loop writes these zeros whatever the
    elements held before: applied to any matrix at all it leaves zeros
    below the diagonal.  On [[123456789,1],[987654321,1]] in double
    arithmetic the reflections leave in [R[1][0]] a residue whose magnitude
    is not below [1e-12], and the returned [R[1][0]] is [0.0]. *)
Theorem qr_lower_triangle_zeroed :
  (forall (K : Scalar) (SQ : ScalarSqrt K) m n (A : Matrix),
     shape m n A -> 0 < m ->
     (exists Q R, QR.qr_decompose A = Ok (Q, R)) /\
     (forall Q R, QR.qr_decompose A = Ok (Q, R) ->
        shape m m Q /\ shape m n R /\
        forall i j, i < m -> j < n -> j < i -> get R i j = zero) /\
     (forall R0 : Matrix, shape m n R0 ->
        exists R', QR.cleanup m n R0 = Ok R' /\
          forall i j, i < m -> j < n -> j < i -> get R' i j = zero)) /\
  (exists R0 Q0 Q R,
     before_cleanup residue_example = Ok (R0, Q0) /\
     ltb (fabs (get R0 1 0)) tiny = false /\
     QR.qr_decompose residue_example = Ok (Q, R) /\
     get R 1 0 = zero).
Proof.
  split.
  - intros K SQ m n A HA Hm.
    destruct (qr_decompose_spec HA Hm) as (Q & R & HQR & HsQ & HsR & Hz).
    split; [now exists Q, R |]. split.
    + intros Q' R' H. rewrite HQR in H. injection H as <- <-.
      split; [exact HsQ | split; [exact HsR | exact Hz]].
    + intros R0 HR0. destruct (cleanup_spec HR0) as (R' & HR' & _ & Hg).
      exists R'. split; [exact HR' |]. intros i j Hi Hj Hji.
      rewrite Hg by assumption. now apply Nat.ltb_lt in Hji as ->.
  - do 4 eexists.
    split; [vm_compute; reflexivity |].
    split; [vm_compute; reflexivity |].
    split; vm_compute; reflexivity.
Qed.

(** The factorization of the 3x3 test matrix returns. *)
Lemma qr_lower_triangle_zeroed_witness :
  exists Q R, QR.qr_decompose qr_test_matrix = Ok (Q, R).
Proof.
  apply (proj1 qr_lower_triangle_zeroed double double_sqrt 3 3
           qr_test_matrix); [shape_tac | lia].
Defined.

(** ** C8 *)

(** On the matrix without rows both [transpose] functions read outside
    the vector. *)
Lemma transpose_empty_out_of_bounds :
  QR.transpose (K := double) [] = Err OutOfBounds /\
  Pinv.transpose (K := double) [] = Err OutOfBounds.
Proof. split; reflexivity. Qed.

(** C8 (amended).  On every [m x n] matrix with [m >= 1], [n = 0]
    included, [transpose] has no error condition and returns the [n x m]
    matrix whose [(j, i)] element is [A(i, j)]; this holds for the
    [transpose] of both translation units. *)
Theorem transpose_contract (K : Scalar) m n (A : Matrix) :
  shape m n A -> 0 < m ->
  exists B, QR.transpose A = Ok B /\ Pinv.transpose A = Ok B /\
            shape n m B /\
            forall i j, i < m -> j < n -> get B j i = get A i j.
Proof.
  intros HA Hm. destruct (transpose_spec HA Hm) as (B & HB & HsB & HgB).
  exists B. split; [exact HB |]. split; [exact HB |].
  split; [exact HsB | exact HgB].
Qed.

(** The transpose of the 3x2 test matrix. *)
Lemma transpose_contract_witness :
  exists B, QR.transpose pinv_test_matrix = Ok B /\
            Pinv.transpose pinv_test_matrix = Ok B /\
            shape 2 3 B /\
            forall i j, i < 3 -> j < 2 ->
                        get B j i = get pinv_test_matrix i j.
Proof.
  apply (transpose_contract double 3 2 pinv_test_matrix); [shape_tac | lia].
Defined.

(** ** C9 *)

(** C9. When the pseudoinverse [P] of an [m x n] matrix [A] is computed,
    [condition_number(A)] is the product of the two values of
    [frobenius_norm], and each is the Frobenius norm: the square root of
    the sum of the squares of the elements, of [A] as an [m x n] matrix
    and of [P] as an [n x m] one (as the empty matrix when [A] has no row
    or no column).  The sum is accumulated row by row; over a field it is
    the double sum over the rows and the columns.  [condition_number]
    fails exactly when [pseudoinverse] does, with the same condition.  On
    [[1,2],[3,4],[5,6]] in double arithmetic the result is finite and
    strictly between 0 and 1e4: it lies between 18.5752 and 18.5754. *)
Theorem condition_number_contract :
  (forall (K : Scalar) (SQ : ScalarSqrt K) m n (A P : Matrix),
     shape m n A -> Pinv.pseudoinverse A = Ok P ->
     Pinv.condition_number A =
     Ok (mul (Pinv.frobenius_norm A) (Pinv.frobenius_norm P)) /\
     Pinv.frobenius_norm A = frobenius m n A /\
     (m = 0 \/ n = 0 -> P = [] /\ Pinv.frobenius_norm P = frobenius 0 0 P) /\
     (0 < m -> 0 < n ->
      shape n m P /\ Pinv.frobenius_norm P = frobenius n m P)) /\
  (forall (K : Scalar) (SQ : ScalarSqrt K) (A : Matrix) e,
     Pinv.condition_number A = Err e <-> Pinv.pseudoinverse A = Err e) /\
  (forall (K : Scalar) (E : ExactField K) m n (A : Matrix),
     square_sum m n A =
     sum_to m (fun i => sum_to n (fun j => mul (get A i j) (get A i j)))) /\
  exists c : float,
    Pinv.condition_number pinv_test_matrix = Ok c /\
    PrimFloat.is_finite c = true /\
    PrimFloat.ltb 0 c = true /\ PrimFloat.ltb c 10000 = true /\
    PrimFloat.ltb 18.5752 c = true /\ PrimFloat.ltb c 18.5754 = true.
Proof.
  split; [|split; [|split]].
  - intros K SQ m n A P HA HP.
    split; [unfold Pinv.condition_number; now rewrite HP |].
    split; [exact (frobenius_norm_square_sum HA) |]. split.
    + intros Hempty. rewrite (pseudoinverse_empty HA Hempty) in HP.
      injection HP as <-. split; reflexivity.
    + intros Hm Hn.
      assert (HsP : shape n m P).
      { rewrite (pseudoinverse_nonempty HA Hm Hn) in HP.
        destruct (transpose_spec HA Hm) as (AT & HAT & HsAT & _).
        rewrite pinv_transpose_same, HAT in HP. cbn [bind] in HP.
        destruct (Nat.leb_spec n m).
        - destruct (multiply_spec HsAT HA Hm (le_n m)) as (N & HN & HsN & _).
          rewrite HN in HP. cbn [bind] in HP.
          destruct (Pinv.inverse N) as [I|e] eqn:HI; [|discriminate HP].
          cbn [bind] in HP.
          destruct (proj2 (proj2 (inverse_outcomes HsN)) I HI)
            as (_ & _ & HsI).
          destruct (multiply_spec HsI HsAT Hn (le_n n))
            as (P' & HP' & HsP' & _).
          congruence.
        - destruct (multiply_spec HA HsAT Hn (le_n n)) as (N & HN & HsN & _).
          rewrite HN in HP. cbn [bind] in HP.
          destruct (Pinv.inverse N) as [I|e] eqn:HI; [|discriminate HP].
          cbn [bind] in HP.
          destruct (proj2 (proj2 (inverse_outcomes HsN)) I HI)
            as (_ & _ & HsI).
          destruct (multiply_spec HsAT HsI Hm (le_n m))
            as (P' & HP' & HsP' & _).
          congruence. }
      split; [exact HsP | exact (frobenius_norm_square_sum HsP)].
  - intros K SQ A e. unfold Pinv.condition_number.
    destruct (Pinv.pseudoinverse A) as [P|e']; cbn [bind]; split;
      intros H; try discriminate H; now injection H as ->.
  - intros K E m n A. apply square_sum_exact.
  - eexists. split; [vm_compute; reflexivity |].
    repeat split; vm_compute; reflexivity.
Qed.

(** The norms at the 3x2 test matrix. *)
Lemma condition_number_contract_witness :
  match Pinv.pseudoinverse pinv_test_matrix with
  | Ok P => Pinv.condition_number pinv_test_matrix =
            Ok (mul (Pinv.frobenius_norm pinv_test_matrix)
                    (Pinv.frobenius_norm P)) /\
            Pinv.frobenius_norm pinv_test_matrix =
            frobenius 3 2 pinv_test_matrix /\
            (3 = 0 \/ 2 = 0 ->
             P = [] /\ Pinv.frobenius_norm P = frobenius 0 0 P) /\
            (0 < 3 -> 0 < 2 ->
             shape 2 3 P /\ Pinv.frobenius_norm P = frobenius 2 3 P)
  | Err _ => False
  end.
Proof.
  destruct (Pinv.pseudoinverse pinv_test_matrix) as [P|e] eqn:HP.
  - apply (proj1 condition_number_contract double double_sqrt 3 2
             pinv_test_matrix P); [shape_tac | exact HP].
  - vm_compute in HP. discriminate HP.
Defined.

(** ** C10 *)

(** On [[1e-7]] [inverse] succeeds and [pseudoinverse] fails with
    SingularMatrix, in double arithmetic and over the rationals. *)
Lemma pseudoinverse_fails_where_inverse_succeeds :
  (exists B, Pinv.inverse tiny_pivot = Ok B) /\
  Pinv.pseudoinverse tiny_pivot = Err SingularMatrix /\
  (exists B, Pinv.inverse tiny_pivot_exact = Ok B) /\
  Pinv.pseudoinverse tiny_pivot_exact = Err SingularMatrix.
Proof.
  split; [eexists; vm_compute; reflexivity |].
  split; [vm_compute; reflexivity |].
  split; [eexists; vm_compute; reflexivity |].
  vm_compute; reflexivity.
Qed.

(** C10 (amended).  On a square matrix with at least one row
    [pseudoinverse] takes the [rows >= cols] branch: it is
    [inverse(AT A)] followed by the product with [AT].  Over exact
    arithmetic, whenever both [inverse(A)] and [pseudoinverse(A)] succeed
    they return the same matrix.  In double arithmetic, on [[4,7],[2,6]]
    both succeed and agree within 1e-6. *)
Theorem pseudoinverse_equals_inverse :
  (forall (K : Scalar) n (A : Matrix),
     shape n n A -> 0 < n ->
     exists AT N,
       Pinv.transpose A = Ok AT /\ Pinv.multiply AT A = Ok N /\
       Pinv.pseudoinverse A = (I <- Pinv.inverse N ;; Pinv.multiply I AT)) /\
  (forall (K : Scalar) (E : ExactField K) n (A B P : Matrix),
     shape n n A -> Pinv.inverse A = Ok B -> Pinv.pseudoinverse A = Ok P ->
     P = B) /\
  exists B P,
    Pinv.inverse inverse_test_matrix = Ok B /\
    Pinv.pseudoinverse inverse_test_matrix = Ok P /\
    mat_within tol6 P B = true.
Proof.
  split; [|split].
  - intros K n A HA Hn. rewrite (pseudoinverse_nonempty HA Hn Hn).
    destruct (transpose_spec HA Hn) as (AT & HAT & HsAT & _).
    destruct (multiply_spec HsAT HA Hn (le_n n)) as (N & HN & _).
    exists AT, N. rewrite pinv_transpose_same, HAT, Nat.leb_refl.
    cbn [bind]. rewrite HN. now repeat split.
  - intros K E n A B P HA HB HP. exact (pseudoinverse_of_invertible HA HB HP).
  - do 2 eexists.
    split; [vm_compute; reflexivity |].
    split; vm_compute; reflexivity.
Qed.

(** The exact statement at [[4,7],[2,6]] over the rationals. *)
Lemma pseudoinverse_equals_inverse_witness :
  match Pinv.inverse inverse_test_exact,
        Pinv.pseudoinverse inverse_test_exact with
  | Ok B, Ok P => P = B
  | _, _ => False
  end.
Proof.
  destruct (Pinv.inverse inverse_test_exact) as [B|e] eqn:HB.
  - destruct (Pinv.pseudoinverse inverse_test_exact) as [P|e] eqn:HP.
    + apply (proj1 (proj2 pseudoinverse_equals_inverse) rational
               rational_exact 2 inverse_test_exact B P);
        [shape_tac | exact HB | exact HP].
    + vm_compute in HP. discriminate HP.
  - vm_compute in HB. discriminate HB.
Defined.

(** * Further properties *)

(** ** qr.hpp *)

(** X1. [identity(n)] has no error condition: it returns the [n x n]
    matrix with [1.0] on the diagonal and [0.0] elsewhere. *)
Theorem identity_contract (K : Scalar) (n : nat) :
  exists I, QR.identity n = Ok I /\ shape n n I /\
            forall i j, i < n -> j < n ->
                        get I i j = if i =? j then one else zero.
Proof. apply identity_spec. Qed.

(** X2. On a matrix with at least one row and one column, transposing
    twice gives the matrix back, with either [transpose]. *)
Theorem transpose_involution (K : Scalar) m n (A : Matrix) :
  shape m n A -> 0 < m -> 0 < n ->
  exists B, QR.transpose A = Ok B /\ QR.transpose B = Ok A /\
            Pinv.transpose A = Ok B /\ Pinv.transpose B = Ok A.
Proof.
  intros HA Hm Hn. destruct (transpose_twice HA Hm Hn) as (B & HB & HBA).
  exists B. split; [exact HB |]. split; [exact HBA |].
  split; [exact HB | exact HBA].
Qed.

(** Transposing the 3x2 test matrix twice. *)
Lemma transpose_involution_witness :
  exists B, QR.transpose pinv_test_matrix = Ok B /\
            QR.transpose B = Ok pinv_test_matrix /\
            Pinv.transpose pinv_test_matrix = Ok B /\
            Pinv.transpose B = Ok pinv_test_matrix.
Proof.
  apply (transpose_involution double 3 2 pinv_test_matrix);
    [shape_tac | lia | lia].
Defined.

(** X3. For a column inside the matrix, [column_norm(A, col, start)] reads
    no element outside it and is [norm2] of the elements of the column in
    the rows [start ..]; from a [start] past the last row that is the norm
    of the empty vector. *)
Theorem column_norm_slice (K : Scalar) (SQ : ScalarSqrt K) m n (A : Matrix)
  (col start : nat) :
  shape m n A -> col < n ->
  QR.column_norm A col start = Ok (QR.norm2 (column_from A col start)) /\
  (m <= start -> QR.column_norm A col start = Ok (QR.norm2 [])).
Proof.
  intros HA Hcol. split; [exact (column_norm_spec col start HA Hcol) |].
  intros Hstart. rewrite (column_norm_spec col start HA Hcol).
  unfold column_from. rewrite skipn_all2; [reflexivity |].
  now rewrite (shape_length HA).
Qed.

(** The second column of the 3x2 test matrix from its second row. *)
Lemma column_norm_slice_witness :
  QR.column_norm pinv_test_matrix 1 1 =
  Ok (QR.norm2 (column_from pinv_test_matrix 1 1)) /\
  (3 <= 1 -> QR.column_norm pinv_test_matrix 1 1 = Ok (QR.norm2 [])).
Proof.
  apply (column_norm_slice double double_sqrt 3 2 pinv_test_matrix 1 1);
    [shape_tac | lia].
Defined.

(** X4. The Frobenius norm of a matrix is [norm2] of its rows laid end to
    end: the two routines accumulate the same sum of squares. *)
Theorem frobenius_norm_is_norm2 (K : Scalar) (SQ : ScalarSqrt K)
  (A : Matrix) :
  Pinv.frobenius_norm A = QR.norm2 (concat A).
Proof. apply frobenius_norm_concat. Qed.

(** X5. [householder_reflect(A, Q, start, col)] on an [m x n] matrix [A]
    and a [q x m] matrix [Q], with [start < m] and [col < n], reads and
    writes inside the two matrices, keeps their shapes, and leaves alone
    the rows of [A] before [start], the columns of [A] before [col] and
    the columns of [Q] before [start]. *)
Theorem householder_reflect_frame_contract (K : Scalar) (SQ : ScalarSqrt K)
  m n q (A Q : Matrix) (start col : nat) :
  shape m n A -> shape q m Q -> start < m -> col < n ->
  exists A' Q', QR.householder_reflect A Q start col = Ok (A', Q') /\
                same_outside m n start col A A' /\
                same_left q m start Q Q'.
Proof.
  intros HA HQ Hstart Hcol.
  exact (householder_reflect_frame start col HA HQ Hstart Hcol).
Qed.

(** The second reflection of the 3x3 test matrix. *)
Lemma householder_reflect_frame_contract_witness :
  exists A' Q',
    QR.householder_reflect qr_test_matrix identity3 1 1 = Ok (A', Q') /\
    same_outside 3 3 1 1 qr_test_matrix A' /\
    same_left 3 3 1 identity3 Q'.
Proof.
  apply (householder_reflect_frame_contract double double_sqrt 3 3 3
           qr_test_matrix identity3 1 1); [shape_tac | shape_tac | lia | lia].
Defined.

(** X6. Over a field, when [R] is upper triangular in its first [n] rows
    and [solve_qr] returns [x], then [x] has length [n] and solves the
    first [n] equations of [R x = Q^T b]. *)
Theorem solve_qr_solves_triangular (K : Scalar) (E : ExactField K)
  m n (Q R : Matrix) (b x : Vector) :
  shape m m Q -> shape m n R -> 0 < m -> n <= m ->
  (forall i j, i < n -> j < i -> get R i j = zero) ->
  QR.solve_qr Q R b = Ok x ->
  length x = n /\
  forall i, i < n ->
    sum_to n (fun j => mul (get R i j) (nth j x zero)) = qt_b m Q b i.
Proof.
  intros HQ HR Hm Hn Htri Hx. exact (solve_qr_solves HQ HR Hm Hn Htri Hx).
Qed.

(** The system [[2,1],[0,4]] x = [3,8] over the rationals. *)
Lemma solve_qr_solves_triangular_witness :
  match QR.solve_qr identity2_exact solve_R_exact solve_b_exact with
  | Ok x =>
      length x = 2 /\
      forall i, i < 2 ->
        sum_to 2 (fun j => mul (get solve_R_exact i j) (nth j x zero)) =
        qt_b 2 identity2_exact solve_b_exact i
  | Err _ => False
  end.
Proof.
  destruct (QR.solve_qr identity2_exact solve_R_exact solve_b_exact)
    as [x|e] eqn:Hx.
  - apply (solve_qr_solves_triangular rational rational_exact 2 2
             identity2_exact solve_R_exact solve_b_exact x);
      [shape_tac | shape_tac | lia | lia | | exact Hx].
    intros i j Hi Hj.
    assert (Hij : i = 1 /\ j = 0) by lia. destruct Hij as [-> ->].
    reflexivity.
  - vm_compute in Hx. discriminate Hx.
Defined.

(** X7. On the matrix without rows both [qr_decompose] and [matmul] read
    [A[0]]; [solve_qr] reads [R[0]] before it looks at [b], and
    [multiply] reads [B[0]]: each is an access outside the vector,
    whatever the other arguments. *)
Theorem empty_matrix_out_of_bounds (K : Scalar) (SQ : ScalarSqrt K) :
  QR.qr_decompose [] = Err OutOfBounds /\
  (forall B : Matrix, QR.matmul [] B = Err OutOfBounds) /\
  (forall (Q : Matrix) (b : Vector), QR.solve_qr Q [] b = Err OutOfBounds) /\
  (forall A : Matrix, Pinv.multiply A [] = Err OutOfBounds).
Proof. repeat split. Qed.

(** ** The pseudoinverse translation unit *)

(** X8. On an [m x n] array [inverse] fails with NonSquareMatrix exactly
    when [m = 0] or [m <> n]; it fails with no condition other than
    NonSquareMatrix and SingularMatrix, so it reads no element outside the
    array; and what it returns is an [n x n] matrix. *)
Theorem inverse_outcome_contract (K : Scalar) m n (A : Matrix) :
  shape m n A ->
  (Pinv.inverse A = Err NonSquareMatrix <-> m = 0 \/ m <> n) /\
  (forall e, Pinv.inverse A = Err e ->
             e = NonSquareMatrix \/ e = SingularMatrix) /\
  (forall B, Pinv.inverse A = Ok B -> 0 < m /\ m = n /\ shape n n B).
Proof. intros HA. exact (inverse_outcomes HA). Qed.

(** The outcomes at the 3x2 test matrix. *)
Lemma inverse_outcome_contract_witness :
  (Pinv.inverse pinv_test_matrix = Err NonSquareMatrix <-> 3 = 0 \/ 3 <> 2) /\
  (forall e, Pinv.inverse pinv_test_matrix = Err e ->
             e = NonSquareMatrix \/ e = SingularMatrix) /\
  (forall B, Pinv.inverse pinv_test_matrix = Ok B ->
             0 < 3 /\ 3 = 2 /\ shape 2 2 B).
Proof.
  apply (inverse_outcome_contract double 3 2 pinv_test_matrix). shape_tac.
Defined.

(** X9. Over a field, when [inverse] succeeds on a square matrix and
    again on its result, the second result is the matrix itself. *)
Theorem inverse_involution (K : Scalar) (E : ExactField K) n
  (A B C : Matrix) :
  shape n n A -> Pinv.inverse A = Ok B -> Pinv.inverse B = Ok C -> C = A.
Proof. intros HA HB HC. exact (inverse_twice HA HB HC). Qed.

(** Inverting [[4,7],[2,6]] twice over the rationals. *)
Lemma inverse_involution_witness :
  match Pinv.inverse inverse_test_exact with
  | Ok B => match Pinv.inverse B with
            | Ok C => C = inverse_test_exact
            | Err _ => False
            end
  | Err _ => False
  end.
Proof.
  destruct (Pinv.inverse inverse_test_exact) as [B|e] eqn:HB.
  - destruct (Pinv.inverse B) as [C|e] eqn:HC.
    + apply (inverse_involution rational rational_exact 2
               inverse_test_exact B C); [shape_tac | exact HB | exact HC].
    + vm_compute in HB. injection HB as <-. vm_compute in HC.
      discriminate HC.
  - vm_compute in HB. discriminate HB.
Defined.

(** X10. Over a field, whatever [pseudoinverse] returns on a matrix with
    at least one row and one column satisfies the four Penrose conditions,
    with the products and the transposes as the translation unit (and the
    test program) compute them: [A P A = A], [P A P = P], and [P A] and
    [A P] are symmetric. *)
Theorem pseudoinverse_penrose (K : Scalar) (E : ExactField K) m n
  (A P : Matrix) :
  shape m n A -> 0 < m -> 0 < n -> Pinv.pseudoinverse A = Ok P ->
  shape n m P /\
  exists PA AP,
    Pinv.multiply P A = Ok PA /\ Pinv.multiply A P = Ok AP /\
    Pinv.multiply AP A = Ok A /\ Pinv.multiply PA P = Ok P /\
    Pinv.transpose PA = Ok PA /\ Pinv.transpose AP = Ok AP.
Proof.
  intros HA Hm Hn HP.
  destruct (pseudoinverse_penrose_entries HA Hm Hn HP)
    as (HsP & H1 & H2 & H3 & H4 & _).
  split; [exact HsP |].
  exact (penrose_products HA HsP Hm Hn H1 H2 H3 H4).
Qed.

(** The conditions at [[1,2],[3,4],[5,6]] over the rationals. *)
Lemma pseudoinverse_penrose_witness :
  match Pinv.pseudoinverse pinv_test_exact with
  | Ok P =>
      shape 2 3 P /\
      exists PA AP,
        Pinv.multiply P pinv_test_exact = Ok PA /\
        Pinv.multiply pinv_test_exact P = Ok AP /\
        Pinv.multiply AP pinv_test_exact = Ok pinv_test_exact /\
        Pinv.multiply PA P = Ok P /\
        Pinv.transpose PA = Ok PA /\ Pinv.transpose AP = Ok AP
  | Err _ => False
  end.
Proof.
  destruct (Pinv.pseudoinverse pinv_test_exact) as [P|e] eqn:HP.
  - apply (pseudoinverse_penrose rational rational_exact 3 2
             pinv_test_exact P); [shape_tac | lia | lia | exact HP].
  - vm_compute in HP. discriminate HP.
Defined.

(** X11. Over a field, what [pseudoinverse] returns on a matrix with at
    least as many rows as columns is a left inverse, [P A = I], and on a
    matrix with fewer rows than columns a right inverse, [A P = I]. *)
Theorem pseudoinverse_one_sided_inverse (K : Scalar) (E : ExactField K)
  m n (A P : Matrix) :
  shape m n A -> 0 < m -> 0 < n -> Pinv.pseudoinverse A = Ok P ->
  (n <= m -> Pinv.multiply P A = QR.identity n) /\
  (m < n -> Pinv.multiply A P = QR.identity m).
Proof.
  intros HA Hm Hn HP.
  destruct (pseudoinverse_penrose_entries HA Hm Hn HP)
    as (HsP & _ & _ & _ & _ & Hleft & Hright).
  split; intros Hle.
  - destruct (multiply_entries HsP HA Hm) as (PA & HPA & HsPA & HgPA).
    rewrite HPA. symmetry. apply identity_entries_ext; [exact HsPA |].
    intros r l Hr Hl. rewrite HgPA by assumption. now apply Hleft.
  - destruct (multiply_entries HA HsP Hn) as (AP & HAP & HsAP & HgAP).
    rewrite HAP. symmetry. apply identity_entries_ext; [exact HsAP |].
    intros i k Hi Hk. rewrite HgAP by assumption. now apply Hright.
Qed.

(** The left inverse of [[1,2],[3,4],[5,6]] over the rationals. *)
Lemma pseudoinverse_one_sided_inverse_witness :
  match Pinv.pseudoinverse pinv_test_exact with
  | Ok P =>
      (2 <= 3 -> Pinv.multiply P pinv_test_exact = QR.identity 2) /\
      (3 < 2 -> Pinv.multiply pinv_test_exact P = QR.identity 3)
  | Err _ => False
  end.
Proof.
  destruct (Pinv.pseudoinverse pinv_test_exact) as [P|e] eqn:HP.
  - apply (pseudoinverse_one_sided_inverse rational rational_exact 3 2
             pinv_test_exact P); [shape_tac | lia | lia | exact HP].
  - vm_compute in HP. discriminate HP.
Defined.

(** X12. Over a field [multiply] and [matmul] return the same matrix on
    operands whose inner dimensions agree.  In double arithmetic they do
    not: [multiply] leaves out the terms whose left factor is [0.0], and
    [0.0 * inf] is a NaN. *)
Theorem multiply_agrees_with_matmul :
  (forall (K : Scalar) (E : ExactField K) m n p (A B : Matrix),
     shape m n A -> shape n p B -> 0 < m -> 0 < n ->
     Pinv.multiply A B = QR.matmul A B) /\
  Pinv.multiply zero11 infinity11 = Ok zero11 /\
  QR.matmul zero11 infinity11 = Ok nan_matrix.
Proof.
  split; [|split; vm_compute; reflexivity].
  intros K E m n p A B HA HB Hm Hn. exact (multiply_matmul_same HA HB Hm Hn).
Qed.

(** The two products of the 3x2 test matrix with the 2x2 identity over
    the rationals. *)
Lemma multiply_agrees_with_matmul_witness :
  Pinv.multiply pinv_test_exact identity2_exact =
  QR.matmul pinv_test_exact identity2_exact.
Proof.
  apply (proj1 multiply_agrees_with_matmul rational rational_exact 3 2 2
           pinv_test_exact identity2_exact);
    [shape_tac | shape_tac | lia | lia].
Defined.

(** X13. On a matrix without rows or without columns [condition_number]
    has no error condition: the pseudoinverse is the empty matrix, both
    norms are the square root of [0.0], and in double arithmetic the
    result is [0.0]. *)
Theorem condition_number_of_empty :
  (forall (K : Scalar) (SQ : ScalarSqrt K) m n (A : Matrix),
     shape m n A -> m = 0 \/ n = 0 ->
     Pinv.pseudoinverse A = Ok [] /\
     Pinv.condition_number A = Ok (mul (sqrt zero) (sqrt zero))) /\
  (forall m n (A : @Matrix double),
     shape m n A -> m = 0 \/ n = 0 ->
     Pinv.condition_number A = Ok 0%float).
Proof.
  assert (H : forall (K : Scalar) (SQ : ScalarSqrt K) m n (A : Matrix),
    shape m n A -> m = 0 \/ n = 0 ->
    Pinv.pseudoinverse A = Ok [] /\
    Pinv.condition_number A = Ok (mul (sqrt zero) (sqrt zero))).
  { intros K SQ m n A HA Hempty.
    pose proof (pseudoinverse_empty HA Hempty) as HP.
    split; [exact HP |]. unfold Pinv.condition_number. rewrite HP.
    cbn [bind]. do 2 f_equal. destruct Hempty as [-> | ->].
    - destruct HA as [Hlen _]. now destruct A.
    - exact (frobenius_norm_no_columns m A HA). }
  split; [exact H |]. intros m n A HA Hempty.
  now rewrite (proj2 (H double double_sqrt m n A HA Hempty)).
Qed.

(** The matrix of two rows and no column. *)
Lemma condition_number_of_empty_witness :
  Pinv.condition_number no_columns = Ok 0%float.
Proof.
  apply (proj2 condition_number_of_empty 2 0 no_columns);
    [shape_tac | now right].
Defined.

(** ** The test programs *)

(** X14. On two matrices of one shape, with at least one row,
    [matrices_approx_equal] reads no element outside them and returns
    [true] exactly when at no element [|A[i][j] - B[i][j]| > eps]. *)
Theorem approx_equal_contract (K : Scalar) m n (A B : Matrix) (eps : num) :
  shape m n A -> shape m n B -> 0 < m ->
  exists same, Tests.matrices_approx_equal A B eps = Ok same /\
    (same = true <->
     forall i j, i < m -> j < n -> differs eps A B i j = false).
Proof. intros HA HB Hm. exact (approx_equal_same_shape eps HA HB Hm). Qed.

(** The expected inverse of the first test against itself. *)
Lemma approx_equal_contract_witness :
  exists same,
    Tests.matrices_approx_equal inverse_test_expected inverse_test_expected
      tol6 = Ok same /\
    (same = true <->
     forall i j, i < 2 -> j < 2 ->
       differs tol6 inverse_test_expected inverse_test_expected i j = false).
Proof.
  apply (approx_equal_contract double 2 2 inverse_test_expected
           inverse_test_expected tol6); [shape_tac | shape_tac | lia].
Defined.

(** X15. [matrices_approx_equal] returns [false], reading no element,
    when the two matrices differ in their number of rows, when either has
    no row, and when their first rows differ in length. *)
Theorem approx_equal_rejects_shapes (K : Scalar) (A B : Matrix) (eps : num) :
  (length A <> length B \/ A = [] \/ B = [] ->
   Tests.matrices_approx_equal A B eps = Ok false) /\
  (length A = length B -> length (nth 0 A []) <> length (nth 0 B []) ->
   Tests.matrices_approx_equal A B eps = Ok false).
Proof. apply approx_equal_rejects. Qed.

(** X16. In double arithmetic a NaN is never a difference: against a
    matrix of the same shape whose elements are all NaN,
    [matrices_approx_equal] returns [true] for every matrix and every
    tolerance. *)
Theorem approx_equal_accepts_nan m n (A B : @Matrix double)
  (eps : @num double) :
  shape m n A -> shape m n B -> 0 < m ->
  (forall i j, i < m -> j < n -> get B i j = nan) ->
  Tests.matrices_approx_equal A B eps = Ok true.
Proof.
  intros HA HB Hm Hnan.
  destruct (approx_equal_same_shape eps HA HB Hm) as (same & Hrun & Hiff).
  rewrite Hrun. f_equal. apply Hiff. intros i j Hi Hj.
  apply differs_nan. now apply Hnan.
Qed.

(** A single element against a NaN. *)
Lemma approx_equal_accepts_nan_witness :
  Tests.matrices_approx_equal tiny_pivot nan_matrix tol6 = Ok true.
Proof.
  apply (approx_equal_accepts_nan 1 1 tiny_pivot nan_matrix tol6);
    [shape_tac | shape_tac | lia |].
  intros i j Hi Hj. assert (Hij : i = 0 /\ j = 0) by lia.
  destruct Hij as [-> ->]. reflexivity.
Defined.

(** X17. In double arithmetic the pseudoinverse test program runs to its
    end: no exception leaves it and each of its five assertions holds. *)
Theorem test_pseudoinverse_passes :
  Tests.test_pseudoinverse = Ok Tests.Passed.
Proof. vm_compute. reflexivity. Qed.

(** X18. In double arithmetic the QR test program is aborted by its first
    assertion, that the product of the two factors is within [1e-6] of
    the matrix. *)
Theorem test_qr_aborts_at_first_assertion :
  Tests.test_qr = Ok (Tests.Aborted 1).
Proof. vm_compute. reflexivity. Qed.

(** ** dijkstra.cpp *)

(** X19. The loop of [dijkstra] ends, whatever the graph, the arithmetic
    and the order in which the queue hands out its items: after at most
    [edge_count adj + 2] looks at the queue the call has returned or
    failed, and more turns change nothing. *)
Theorem dijkstra_terminates (W : Weight) (Q : PriorityQueue) (n : Z)
  (adj : AdjList) (source : Z) :
  exists r, dijkstra Q n adj source = Some r /\
            forall fuel, edge_count adj + 2 <= fuel ->
                         dijkstra_in Q fuel n adj source = Some r.
Proof. apply dijkstra_in_returns. Qed.

(** X20. How [dijkstra] fails.  A negative [n] is a length error and a
    source that is not a node an access outside [dist].  Otherwise the
    call fails with the negative-weight error only on a negative weight
    on an edge leaving a node that a walk from the source reaches, and
    reads outside a vector only for such a node with no entry in [adj] or
    with an edge to something that is not a node. *)
Theorem dijkstra_failures (W : Weight) (Q : PriorityQueue) (n : Z)
  (adj : AdjList) (source : Z) :
  ((n < 0)%Z -> dijkstra Q n adj source = Some LengthError) /\
  ((0 <= n)%Z -> ~ is_node (Z.to_nat n) source ->
   dijkstra Q n adj source = Some OutOfRange) /\
  (dijkstra Q n adj source = Some LengthError -> (n < 0)%Z) /\
  (dijkstra Q n adj source = Some NegativeWeight ->
   exists u d v w,
     walk adj source u d /\ is_node (Z.to_nat n) u /\
     In (v, w) (edges_of adj u) /\ w_ltb w w_zero = true) /\
  (dijkstra Q n adj source = Some OutOfRange ->
   ~ is_node (Z.to_nat n) source \/
   exists u d,
     walk adj source u d /\ is_node (Z.to_nat n) u /\
     (length adj <= Z.to_nat u \/
      exists v w, In (v, w) (edges_of adj u) /\ ~ is_node (Z.to_nat n) v)).
Proof.
  split; [|split; [|split; [|split]]].
  - intros Hn. unfold dijkstra, dijkstra_in.
    now destruct (Z.ltb_spec n 0); [|lia].
  - intros Hn Hs. unfold dijkstra, dijkstra_in.
    destruct (Z.ltb_spec n 0); [lia |].
    destruct (assign_cases (repeat w_inf (Z.to_nat n)) source w_zero)
      as [(dist & Ha)|Ha]; [|now rewrite Ha].
    apply assign_returned in Ha. rewrite repeat_length in Ha.
    destruct Ha as [Ha _]. contradiction.
  - intros H. exact (dijkstra_in_sound Q _ n adj source _ H).
  - intros H. exact (proj2 (proj2 (dijkstra_in_sound Q _ n adj source _ H))).
  - intros H. exact (proj2 (dijkstra_in_sound Q _ n adj source _ H)).
Qed.

(** X21. Every distance [dijkstra] returns is the initial infinity or the
    length of a walk from the source to the node, its weights added in
    the order of the walk; there are [n] of them. *)
Theorem dijkstra_distances_are_walks (W : Weight) (Q : PriorityQueue)
  (n : Z) (adj : AdjList) (source : Z) (dist : list weight) :
  dijkstra Q n adj source = Some (Returned dist) ->
  (0 <= n)%Z /\ is_node (Z.to_nat n) source /\
  length dist = Z.to_nat n /\
  forall v, is_node (Z.to_nat n) v ->
            dist_at dist v = w_inf \/ walk adj source v (dist_at dist v).
Proof.
  intros H.
  destruct (dijkstra_in_sound Q _ n adj source _ H) as (Hn & Hs & Hlen & Hd).
  split; [exact Hn |]. split; [exact Hs |]. split; [exact Hlen | exact Hd].
Qed.

(** The distances of the test graph, with the queue kept as a list. *)
Lemma dijkstra_distances_are_walks_witness :
  (0 <= 4)%Z /\ is_node (Z.to_nat 4) 0 /\
  length test_distances = Z.to_nat 4 /\
  forall v, is_node (Z.to_nat 4) v ->
    dist_at test_distances v = w_inf \/
    walk test_graph 0 v (dist_at test_distances v).
Proof.
  apply (dijkstra_distances_are_walks double_weight list_queue 4 test_graph
           0 test_distances).
  vm_compute. reflexivity.
Defined.

(** X22. On a well-formed graph (an entry in [adj] for each of the [n]
    nodes, every edge to a node, no weight below [0.0]) and from a source
    that is a node, [dijkstra] returns [n] distances, whatever the
    arithmetic and the order in which the queue hands out its items. *)
Theorem dijkstra_returns_on_well_formed (W : Weight) (Q : PriorityQueue)
  (n : Z) (adj : AdjList) (source : Z) :
  (0 <= n)%Z -> well_formed (Z.to_nat n) adj = true ->
  is_node (Z.to_nat n) source ->
  exists dist, dijkstra Q n adj source = Some (Returned dist) /\
               length dist = Z.to_nat n.
Proof.
  intros Hn Hwf Hs.
  destruct (dijkstra_returns_distances Q n adj source Hn Hwf Hs)
    as (dist & Hr & Hlen & _).
  now exists dist.
Qed.

(** The test graph in double arithmetic. *)
Lemma dijkstra_returns_on_well_formed_witness :
  exists dist, dijkstra list_queue 4 test_graph 0 = Some (Returned dist) /\
               length dist = Z.to_nat 4.
Proof.
  apply (dijkstra_returns_on_well_formed double_weight list_queue 4
           test_graph 0); [lia | reflexivity | unfold is_node; lia].
Defined.

(** X23. Over ordered weights, with a queue whose [top()] is an item that
    no other goes before, on a well-formed graph: [dijkstra] returns, no
    walk from the source to a node is shorter than the distance returned
    for the node, and that distance is the length of such a walk or, when
    it is none, the infinity it started as. *)
Theorem dijkstra_shortest (W : Weight) (O : OrderedWeight W)
  (Q : PriorityQueue) (n : Z) (adj : AdjList) (source : Z) :
  pops_first Q -> (0 <= n)%Z ->
  well_formed (Z.to_nat n) adj = true -> is_node (Z.to_nat n) source ->
  exists dist,
    dijkstra Q n adj source = Some (Returned dist) /\
    length dist = Z.to_nat n /\
    forall v, is_node (Z.to_nat n) v ->
      (forall d, walk adj source v d -> dist_at dist v <=w d) /\
      (dist_at dist v = w_inf \/ walk adj source v (dist_at dist v)).
Proof.
  intros Hfirst Hn Hwf Hs.
  destruct (dijkstra_shortest_walks Q n adj source Hfirst Hn Hwf Hs)
    as (dist & Hr & Hlen & Hmin).
  exists dist. split; [exact Hr |]. split; [exact Hlen |].
  intros v Hv. split; [intros d Hd; now apply Hmin |].
  destruct (dijkstra_in_sound Q _ n adj source _ Hr) as (_ & _ & _ & Hd).
  now apply Hd.
Qed.

(** The test graph over the extended rationals. *)
Lemma dijkstra_shortest_witness :
  exists dist,
    dijkstra list_queue 4 test_graph_exact 0 = Some (Returned dist) /\
    length dist = Z.to_nat 4 /\
    forall v, is_node (Z.to_nat 4) v ->
      (forall d, walk test_graph_exact 0 v d -> dist_at dist v <=w d) /\
      (dist_at dist v = w_inf \/ walk test_graph_exact 0 v (dist_at dist v)).
Proof.
  apply (dijkstra_shortest extended_weight extended_ordered list_queue 4
           test_graph_exact 0);
    [apply list_queue_pops_first | lia | reflexivity | unfold is_node; lia].
Defined.
